(** * Keyframe timelines of the animation-presets add-on

  A shallow embedding of the frame arithmetic of [animation_presets.py]
  (preset handlers and dispatch of [ANIM_OT_add_preset], the Prev/Next
  preset operators), [curve_animation.py] (loop expansion, per-object
  loop and report of [CURVE_OT_ApplyCurveAnimation], the Prev/Next curve
  operators) and [animate_along_curve.py].

  Python [int] is [Z]; Python [float] is the kernel's binary64 [float],
  so every literal and every operation below rounds exactly as CPython
  does.  A Python exception is a [Raise] in the [result] monad.  The host
  (Blender) is reduced to the ordered list of keyframe insertions a
  handler performs. *)

From Stdlib Require Import ZArith List Lia Bool Sorted.
From Stdlib Require Import Floats.
From Stdlib Require String.
Import ListNotations.
Import (notations) String.

Set Warnings "-inexact-float".

Open Scope Z_scope.

(** ** Python numbers *)

Module Py.

Inductive exn : Set :=
| ZeroDivisionError
| OverflowError
| ValueError.

Inductive result (A : Type) : Type :=
| Ok (a : A)
| Raise (e : exn).

Arguments Ok {A} a.
Arguments Raise {A} e.

Definition bind {A B : Type} (r : result A) (k : A -> result B) : result B :=
  match r with
  | Ok a => k a
  | Raise e => Raise e
  end.

(** Conversion of an [int] operand in mixed arithmetic: the nearest
    binary64 value, ties to even; [OverflowError] when that is out of
    range ("int too large to convert to float"). *)
Definition float_of_int (z : Z) : result float :=
  match binary_normalize prec emax z 0 false with
  | S754_infinity _ => Raise OverflowError
  | sf => Ok (SF2Prim sf)
  end.

(** [int(x)]: truncation toward zero; [ValueError] on NaN and
    [OverflowError] on an infinity. *)
Definition int (x : float) : result Z :=
  match Prim2SF x with
  | S754_zero _ => Ok 0
  | S754_finite s m e => Ok (cond_Zopp s (Z.shiftl (Zpos m) e))
  | S754_infinity _ => Raise OverflowError
  | S754_nan => Raise ValueError
  end.

(** [n * x] and [x * n] for an [int] n and a [float] x: the int operand
    is converted and the floats are multiplied, which commutes. *)
Definition int_mul_float (n : Z) (x : float) : result float :=
  bind (float_of_int n) (fun fn => Ok (fn * x)%float).

(** [n / x] for an [int] n and a [float] x. *)
Definition int_div_float (n : Z) (x : float) : result float :=
  bind (float_of_int n) (fun fn =>
    if (x =? 0)%float then Raise ZeroDivisionError else Ok (fn / x)%float).

(** [max(a, b)] and [min(a, b)]: the first argument is kept unless the
    second compares strictly beyond it. *)
Definition max (a b : float) : float := if (a <? b)%float then b else a.
Definition min (a b : float) : float := if (b <? a)%float then b else a.

(** [math.radians]: multiplication by the constant pi / 180. *)
Definition radians (x : float) : float :=
  (x * (0x1.921fb54442d18p+1 / 180))%float.

End Py.

Import Py.

Declare Scope py_scope.
Notation "x <- c1 ;; c2" := (Py.bind c1 (fun x => c2))
(at level 61, c1 at next level, right associativity) : py_scope.
Open Scope py_scope.

(** ** utils.py *)

Module utils.

Inductive data_path : Set := location | rotation_euler | scale.

Definition vec3 : Set := (float * float * float)%type.

(** One call [insert_keyframe(obj, data_path, frame, value)]. *)
Record keyframe : Set := insert_keyframe
  { kf_path : data_path; kf_frame : Z; kf_value : vec3 }.

End utils.

Import utils.

(** ** animation_presets.py: ANIM_OT_add_preset *)

Module ANIM_OT_add_preset.

Definition base_duration : Z := 30.

(** [actual_duration = int(base_duration / speed)] *)
Definition actual_duration (speed : float) : result Z :=
  q <- int_div_float base_duration speed ;; int q.

(** [execute], for the handler [apply] selected by the preset and one
    selected object: the handler receives [start_frame] and
    [end_frame = start_frame + actual_duration]. *)
Definition execute {A : Type} (apply : Z -> Z -> result A)
    (frame_current : Z) (speed : float) : result A :=
  let start_frame := frame_current in
  d <- actual_duration speed ;;
  let end_frame := start_frame + d in
  apply start_frame end_frame.

(** [frame = start_frame + int(duration * time_pct)] *)
Definition frame_at (start_frame duration : Z) (time_pct : float) : result Z :=
  x <- int_mul_float duration time_pct ;;
  n <- int x ;;
  Ok (start_frame + n).

Definition apply_popup_scale (start_frame end_frame : Z) : result (list keyframe) :=
  let duration := end_frame - start_frame in
  let frame1 := start_frame in
  frame2 <- frame_at start_frame duration 0.4 ;;
  frame3 <- frame_at start_frame duration 0.7 ;;
  let frame4 := end_frame in
  Ok [ insert_keyframe scale frame1 (0, 0, 0)%float;
       insert_keyframe scale frame2 (1.2, 1.2, 1.2)%float;
       insert_keyframe scale frame3 (0.9, 0.9, 0.9)%float;
       insert_keyframe scale frame4 (1, 1, 1)%float ].

(** The loop shared by the table-driven handlers:
    [for time_pct, v in keyframes: frame = ...; <insertions for v>]. *)
Fixpoint for_keyframes {V : Type} (insert : Z -> V -> list keyframe)
    (start_frame duration : Z) (keyframes : list (float * V))
    : result (list keyframe) :=
  match keyframes with
  | [] => Ok []
  | (time_pct, v) :: rest =>
      frame <- frame_at start_frame duration time_pct ;;
      ks <- for_keyframes insert start_frame duration rest ;;
      Ok (insert frame v ++ ks)
  end.

Definition elastic_timings : list (float * vec3) :=
  [ (0.0, (0.0, 0.0, 0.0)); (0.2, (1.5, 1.5, 1.5)); (0.4, (0.7, 0.7, 0.7));
    (0.6, (1.2, 1.2, 1.2)); (0.8, (0.9, 0.9, 0.9));
    (0.9, (1.05, 1.05, 1.05)); (1.0, (1.0, 1.0, 1.0)) ]%float.

Definition apply_elastic (start_frame end_frame : Z) : result (list keyframe) :=
  let duration := end_frame - start_frame in
  for_keyframes (fun frame s => [insert_keyframe scale frame s])
    start_frame duration elastic_timings.

Definition bouncy_reveal_keyframes : list (float * (vec3 * vec3)) :=
  [ (0.0, ((0.0, 0.0, 0.0), (0, 0, 0)));
    (0.3, ((1.3, 1.3, 1.3), (0, 0, 15)));
    (0.5, ((0.7, 0.7, 0.7), (0, 0, -10)));
    (0.7, ((1.1, 1.1, 1.1), (0, 0, 5)));
    (0.85, ((0.9, 0.9, 0.9), (0, 0, -2)));
    (1.0, ((1.0, 1.0, 1.0), (0, 0, 0))) ]%float.

(** [orig_rot] is [obj.rotation_euler] on entry. *)
Definition apply_bouncy_reveal (orig_rot : vec3) (start_frame end_frame : Z)
    : result (list keyframe) :=
  let duration := end_frame - start_frame in
  for_keyframes
    (fun frame '(s, (_, _, rot_offset_z)) =>
       let '(rx, ry, rz) := orig_rot in
       let rot := (rx, ry, (rz + radians rot_offset_z)%float) in
       [insert_keyframe scale frame s; insert_keyframe rotation_euler frame rot])
    start_frame duration bouncy_reveal_keyframes.

(** *** apply_stagger *)

(** A base keyframe of the staggered reveal:
    [(scale, x_offset, rot_z)] after the time fraction. *)
Definition stagger_sample : Set := (vec3 * float * float)%type.

Definition base_keyframes : list (float * stagger_sample) :=
  [ (0.0, ((0.0, 0.0, 0.0), -0.3, 10));
    (0.3, ((1.2, 1.2, 0.8), -0.1, -5));
    (0.5, ((0.9, 0.9, 1.1), 0.0, 2));
    (0.7, ((1.1, 1.1, 0.9), 0.0, -1));
    (1.0, ((1.0, 1.0, 1.0), 0.0, 0)) ]%float.

(** The three insertions made for one kept base keyframe of a copy;
    [obj_location] is [obj.location] and [copy_rot] the copy's
    [rotation_euler], of which only [z] is ever overwritten. *)
Definition stagger_insert (obj_location copy_rot : vec3)
    (frame : Z) (v : stagger_sample) : list keyframe :=
  let '(s, x_offset, rot_z) := v in
  let '(lx, ly, lz) := obj_location in
  let '(rx, ry, _) := copy_rot in
  [ insert_keyframe scale frame s;
    insert_keyframe location frame ((lx + x_offset)%float, ly, lz);
    insert_keyframe rotation_euler frame (rx, ry, radians rot_z) ].

(** The inner loop of [apply_stagger] for one copy:
    [adjusted_time = time_pct + delay_pct], and the keyframe is inserted
    only [if adjusted_time <= 1.0]. *)
Fixpoint stagger_keyframes {V : Type} (insert : Z -> V -> list keyframe)
    (start_frame duration : Z) (delay_pct : float)
    (keyframes : list (float * V)) : result (list keyframe) :=
  match keyframes with
  | [] => Ok []
  | (time_pct, v) :: rest =>
      let adjusted_time := (time_pct + delay_pct)%float in
      if (adjusted_time <=? 1.0)%float then
        frame <- frame_at start_frame duration adjusted_time ;;
        ks <- stagger_keyframes insert start_frame duration delay_pct rest ;;
        Ok (insert frame v ++ ks)
      else stagger_keyframes insert start_frame duration delay_pct rest
  end.

(** The outer loop, [for i in range(num_copies)], with
    [delay_pct = delay * i]; the result lists the keyframes of each copy
    in the order the copies are created. *)
Fixpoint stagger_copies {V : Type} (insert : Z -> V -> list keyframe)
    (start_frame duration : Z) (delay : float)
    (keyframes : list (float * V)) (copy_indices : list nat)
    : result (list (list keyframe)) :=
  match copy_indices with
  | [] => Ok []
  | i :: more =>
      delay_pct <- int_mul_float (Z.of_nat i) delay ;;
      ks <- stagger_keyframes insert start_frame duration delay_pct keyframes ;;
      kss <- stagger_copies insert start_frame duration delay keyframes more ;;
      Ok (ks :: kss)
  end.

Definition num_copies : nat := 3.

(** [apply_stagger]: nothing is inserted unless [obj.type == 'MESH']. *)
Definition apply_stagger (is_mesh : bool) (obj_location obj_rot : vec3)
    (start_frame end_frame : Z) : result (list (list keyframe)) :=
  if is_mesh then
    let duration := end_frame - start_frame in
    stagger_copies (stagger_insert obj_location obj_rot)
      start_frame duration 0.2 base_keyframes (seq 0 num_copies)
  else Ok [].

(** *** The other table-driven handlers *)

Definition rotate_pop_keyframes : list (float * (float * vec3)) :=
  [ (0.0, (0, (0.0, 0.0, 0.0)));
    (0.2, (90, (0.8, 0.8, 0.8)));
    (0.5, (270, (1.2, 1.2, 1.2)));
    (0.7, (330, (0.9, 0.9, 0.9)));
    (1.0, (360, (1.0, 1.0, 1.0))) ]%float.

(** [start_rot] is [obj.rotation_euler] on entry. *)
Definition apply_rotate_pop (start_rot : vec3) (start_frame end_frame : Z)
    : result (list keyframe) :=
  let duration := end_frame - start_frame in
  for_keyframes
    (fun frame '(angle, s) =>
       let '(rx, ry, rz) := start_rot in
       let rot := (rx, ry, (rz + radians angle)%float) in
       [insert_keyframe rotation_euler frame rot; insert_keyframe scale frame s])
    start_frame duration rotate_pop_keyframes.

Definition bounce_keyframes : list (float * (float * vec3)) :=
  [ (0.0, (-5.0, (0.9, 0.9, 1.3)));
    (0.3, (0.0, (1.2, 1.2, 0.8)));
    (0.5, (2.0, (0.9, 0.9, 1.2)));
    (0.7, (0.0, (1.1, 1.1, 0.9)));
    (0.85, (0.8, (0.95, 0.95, 1.1)));
    (1.0, (0.0, (1.0, 1.0, 1.0))) ]%float.

(** The insertions shared by [apply_bounce_in] and [apply_fall_from_sky]:
    the position raised by [height], then the scale. *)
Definition height_insert (loc : vec3) (frame : Z) (v : float * vec3)
    : list keyframe :=
  let '(height, s) := v in
  let '(lx, ly, lz) := loc in
  [ insert_keyframe location frame (lx, ly, (lz + height)%float);
    insert_keyframe scale frame s ].

(** [orig_loc] is [obj.location] on entry. *)
Definition apply_bounce_in (orig_loc : vec3) (start_frame end_frame : Z)
    : result (list keyframe) :=
  let duration := end_frame - start_frame in
  for_keyframes (height_insert orig_loc) start_frame duration bounce_keyframes.

Definition slide_keyframes : list (float * (float * float * vec3)) :=
  [ (0.0, (-3.0, -15, (0.8, 0.8, 0.8)));
    (0.3, (-2.0, -10, (0.9, 0.9, 1.1)));
    (0.6, (-0.5, -5, (1.1, 1.1, 0.9)));
    (0.8, (0.2, 2, (1.05, 1.05, 1.05)));
    (0.9, (0.1, 1, (0.95, 0.95, 0.95)));
    (1.0, (0.0, 0, (1.0, 1.0, 1.0))) ]%float.

Definition apply_slide_from_side (final_pos start_rot : vec3)
    (start_frame end_frame : Z) : result (list keyframe) :=
  let duration := end_frame - start_frame in
  for_keyframes
    (fun frame '(x_offset, rot_z, s) =>
       let '(lx, ly, lz) := final_pos in
       let '(rx, ry, rz) := start_rot in
       [ insert_keyframe location frame ((lx + x_offset)%float, ly, lz);
         insert_keyframe rotation_euler frame (rx, ry, (rz + radians rot_z)%float);
         insert_keyframe scale frame s ])
    start_frame duration slide_keyframes.

Definition fall_keyframes : list (float * (float * vec3)) :=
  [ (0.0, (10.0, (0.8, 0.8, 1.4)));
    (0.3, (-0.2, (1.4, 1.4, 0.6)));
    (0.5, (2.0, (0.9, 0.9, 1.2)));
    (0.7, (-0.1, (1.2, 1.2, 0.8)));
    (0.85, (0.5, (0.95, 0.95, 1.1)));
    (0.92, (0.0, (1.1, 1.1, 0.9)));
    (1.0, (0.0, (1.0, 1.0, 1.0))) ]%float.

Definition apply_fall_from_sky (final_pos : vec3) (start_frame end_frame : Z)
    : result (list keyframe) :=
  let duration := end_frame - start_frame in
  for_keyframes (height_insert final_pos) start_frame duration fall_keyframes.

Definition flip_keyframes : list (float * (float * vec3 * float)) :=
  [ (0.0, (0, (0.0, 0.0, 0.0), 0.0));
    (0.2, (45, (0.6, 0.6, 0.6), 0.2));
    (0.5, (135, (1.2, 1.2, 1.2), -0.1));
    (0.7, (160, (0.9, 0.9, 0.9), 0.05));
    (0.85, (175, (1.1, 1.1, 1.1), -0.02));
    (1.0, (180, (1.0, 1.0, 1.0), 0.0)) ]%float.

Definition apply_flip_reveal (start_rot orig_pos : vec3)
    (start_frame end_frame : Z) : result (list keyframe) :=
  let duration := end_frame - start_frame in
  for_keyframes
    (fun frame '(angle, s, y_offset) =>
       let '(rx, ry, rz) := start_rot in
       let '(lx, ly, lz) := orig_pos in
       [ insert_keyframe rotation_euler frame ((rx + radians angle)%float, ry, rz);
         insert_keyframe scale frame s;
         insert_keyframe location frame (lx, (ly + y_offset)%float, lz) ])
    start_frame duration flip_keyframes.

Definition typewriter_keyframes : list (float * stagger_sample) :=
  [ (0.0, ((0.0, 0.0, 0.0), -0.5, 10));
    (0.2, ((0.7, 0.7, 0.7), -0.3, 5));
    (0.5, ((1.1, 1.1, 1.1), -0.1, -3));
    (0.7, ((0.9, 0.9, 0.9), 0.0, 2));
    (1.0, ((1.0, 1.0, 1.0), 0.0, 0)) ]%float.

(** [apply_typewriter]: the keyframes go to a copy of the object, with
    the three insertions [apply_stagger] makes per sample; nothing is
    inserted unless [obj.type == 'MESH'].  The clean-up timer it
    registers is left to the host. *)
Definition apply_typewriter (is_mesh : bool) (original_loc copy_rot : vec3)
    (start_frame end_frame : Z) : result (list keyframe) :=
  if is_mesh then
    let duration := end_frame - start_frame in
    for_keyframes (stagger_insert original_loc copy_rot)
      start_frame duration typewriter_keyframes
  else Ok [].

Definition pulse_keyframes : list (float * (vec3 * vec3)) :=
  [ (0.0, ((1.0, 1.0, 1.0), (0, 0, 0)));
    (0.2, ((1.3, 1.3, 0.8), (0, 0, 2)));
    (0.4, ((0.8, 0.8, 1.3), (0, 0, -2)));
    (0.6, ((1.2, 1.2, 0.9), (0, 0, 1)));
    (0.8, ((0.9, 0.9, 1.1), (0, 0, -1)));
    (1.0, ((1.0, 1.0, 1.0), (0, 0, 0))) ]%float.

Definition apply_pulse (orig_rot : vec3) (start_frame end_frame : Z)
    : result (list keyframe) :=
  let duration := end_frame - start_frame in
  for_keyframes
    (fun frame '(s, (_, _, rot_offset_z)) =>
       let '(rx, ry, rz) := orig_rot in
       let rot := (rx, ry, (rz + radians rot_offset_z)%float) in
       [insert_keyframe scale frame s; insert_keyframe rotation_euler frame rot])
    start_frame duration pulse_keyframes.

(** *** apply_fade_slide and the dispatch of [execute] *)

(** Where a keyframe goes: on the selected object, on the [i]-th copy a
    handler makes of it, or on the [Alpha] input of the [node]-th
    Principled BSDF node among the object's node materials. *)
Inductive insertion : Set :=
| on_object (k : keyframe)
| on_copy (i : nat) (k : keyframe)
| on_alpha (node : nat) (frame : Z) (alpha : float).

Definition insertion_frame (x : insertion) : Z :=
  match x with
  | on_object k => kf_frame k
  | on_copy _ k => kf_frame k
  | on_alpha _ frame _ => frame
  end.

(** The loop of [for_keyframes], for a handler that also keys something
    that is no object channel. *)
Fixpoint for_insertions {V : Type} (insert : Z -> V -> list insertion)
    (start_frame duration : Z) (keyframes : list (float * V))
    : result (list insertion) :=
  match keyframes with
  | [] => Ok []
  | (time_pct, v) :: rest =>
      frame <- frame_at start_frame duration time_pct ;;
      ks <- for_insertions insert start_frame duration rest ;;
      Ok (insert frame v ++ ks)
  end.

Definition fade_slide_keyframes : list (float * (float * float * vec3)) :=
  [ (0.0, (-2.0, 0.0, (0.9, 0.9, 0.9)));
    (0.3, (-1.0, 0.4, (0.95, 0.95, 0.95)));
    (0.7, (-0.2, 0.8, (1.1, 1.1, 1.1)));
    (1.0, (0.0, 1.0, (1.0, 1.0, 1.0))) ]%float.

(** [principled_nodes] counts the nodes the nested material loops
    reach: those of type BSDF_PRINCIPLED in the slots whose material
    uses nodes. *)
Definition apply_fade_slide (final_pos : vec3) (principled_nodes : nat)
    (start_frame end_frame : Z) : result (list insertion) :=
  let duration := end_frame - start_frame in
  for_insertions
    (fun frame '(x_offset, alpha, s) =>
       let '(lx, ly, lz) := final_pos in
       [ on_object (insert_keyframe location frame ((lx + x_offset)%float, ly, lz));
         on_object (insert_keyframe scale frame s) ]
       ++ map (fun node => on_alpha node frame alpha) (seq 0 principled_nodes))
    start_frame duration fade_slide_keyframes.

Inductive preset_enum : Set :=
| PRESET_A
| PRESET_B
| PRESET_C
| PRESET_ROTATE_POP
| PRESET_BOUNCE_IN
| PRESET_SLIDE_FROM_SIDE
| PRESET_FALL_FROM_SKY
| PRESET_FLIP_REVEAL
| PRESET_TYPEWRITER
| PRESET_PULSE
| PRESET_ELASTIC
| PRESET_STAGGER.

(** What the handlers read of a selected object. *)
Record selected_object : Set :=
  { ob_is_mesh : bool;
    ob_location : vec3;
    ob_rotation_euler : vec3;
    ob_principled_nodes : nat }.

(** The keyframes of the copies, tagged with the index of their copy. *)
Definition on_copies (kss : list (list keyframe)) : list insertion :=
  concat (map (fun ik => map (on_copy (fst ik)) (snd ik))
            (combine (seq 0 (length kss)) kss)).

(** The [if preset == ... elif ...] chain of [execute]. *)
Definition apply_preset (preset : preset_enum) (obj : selected_object)
    (start_frame end_frame : Z) : result (list insertion) :=
  let loc := ob_location obj in
  let rot := ob_rotation_euler obj in
  match preset with
  | PRESET_A =>
      ks <- apply_popup_scale start_frame end_frame ;; Ok (map on_object ks)
  | PRESET_B =>
      apply_fade_slide loc (ob_principled_nodes obj) start_frame end_frame
  | PRESET_C =>
      ks <- apply_bouncy_reveal rot start_frame end_frame ;; Ok (map on_object ks)
  | PRESET_ROTATE_POP =>
      ks <- apply_rotate_pop rot start_frame end_frame ;; Ok (map on_object ks)
  | PRESET_BOUNCE_IN =>
      ks <- apply_bounce_in loc start_frame end_frame ;; Ok (map on_object ks)
  | PRESET_SLIDE_FROM_SIDE =>
      ks <- apply_slide_from_side loc rot start_frame end_frame ;;
      Ok (map on_object ks)
  | PRESET_FALL_FROM_SKY =>
      ks <- apply_fall_from_sky loc start_frame end_frame ;; Ok (map on_object ks)
  | PRESET_FLIP_REVEAL =>
      ks <- apply_flip_reveal rot loc start_frame end_frame ;; Ok (map on_object ks)
  | PRESET_TYPEWRITER =>
      ks <- apply_typewriter (ob_is_mesh obj) loc rot start_frame end_frame ;;
      Ok (map (on_copy 0) ks)
  | PRESET_PULSE =>
      ks <- apply_pulse rot start_frame end_frame ;; Ok (map on_object ks)
  | PRESET_ELASTIC =>
      ks <- apply_elastic start_frame end_frame ;; Ok (map on_object ks)
  | PRESET_STAGGER =>
      kss <- apply_stagger (ob_is_mesh obj) loc rot start_frame end_frame ;;
      Ok (on_copies kss)
  end.


(** [for obj in context.selected_objects: ...]: the first exception
    ends the loop and the operator. *)
Fixpoint for_selected {A B : Type} (body : A -> result B) (selected_objects : list A)
    : result (list B) :=
  match selected_objects with
  | [] => Ok []
  | obj :: rest =>
      r <- body obj ;;
      rs <- for_selected body rest ;;
      Ok (r :: rs)
  end.

(** [execute] over all selected objects: the insertions of each one. *)
Definition execute_preset (preset : preset_enum) (selected_objects : list selected_object)
    (frame_current : Z) (speed : float) : result (list (list insertion)) :=
  execute
    (fun start_frame end_frame =>
       for_selected (fun obj => apply_preset preset obj start_frame end_frame)
         selected_objects)
    frame_current speed.

End ANIM_OT_add_preset.

(** ** curve_animation.py: CURVE_OT_ApplyCurveAnimation *)

Module CURVE_OT_ApplyCurveAnimation.

Inductive loop_type_enum : Set := REPEAT | PING_PONG | OFFSET.

(** The fields of [CURVE_PG_AnimationProperties] the timing code reads. *)
Record CURVE_PG_AnimationProperties : Set :=
  { speed_factor : float;
    reverse_direction : bool;
    loop_animation : bool;
    loop_type : loop_type_enum;
    loop_offset : float }.

(** What [execute] reports before it touches any object. *)
Inductive report : Set :=
| No_objects_selected
| Invalid_animation_duration.

(** The input validation at the head of [execute]. *)
Definition validate_inputs (selected_objects : nat) (duration : Z) : option report :=
  if Nat.eqb selected_objects 0 then Some No_objects_selected
  else if duration <? 1 then Some Invalid_animation_duration
  else None.

(** "Calculate total animation duration including loops" *)
Definition total_duration (duration : Z) (settings : CURVE_PG_AnimationProperties) : Z :=
  if loop_animation settings then
    match loop_type settings with
    | PING_PONG => duration * 2
    | OFFSET => duration * 4
    | REPEAT => duration
    end
  else duration.

(** [adjusted_duration = int(duration / settings.speed_factor)] *)
Definition adjusted_duration (duration : Z) (settings : CURVE_PG_AnimationProperties)
    : result Z :=
  q <- int_div_float duration (speed_factor settings) ;; int q.

(** An [offset_factor] keyframe of the follow-path constraint:
    [follow.offset_factor = factor; follow.keyframe_insert(.., frame=frame)]. *)
Definition offset_key : Set := (Z * float)%type.

Definition _create_ping_pong_animation (start_frame duration : Z)
    (start_factor end_factor : float) : list offset_key :=
  let mid_frame := start_frame + duration in
  let end_frame := start_frame + (duration * 2) in
  [ (mid_frame, end_factor); (end_frame, start_factor) ].

(** One turn of [for i in range(1, 4)] in [_create_offset_animation]. *)
Definition offset_cycle (start_frame duration : Z) (start_factor end_factor : float)
    (settings : CURVE_PG_AnimationProperties) (i : Z) : result offset_key :=
  let frame := start_frame + (duration * i) in
  offset <- int_mul_float i (loop_offset settings) ;;
  let factor :=
    if reverse_direction settings then (start_factor + offset)%float
    else (end_factor + offset)%float in
  let factor := Py.min (Py.max factor 0.0) 1.0 in
  Ok (frame, factor).

Definition _create_offset_animation (start_frame duration : Z)
    (start_factor end_factor : float) (settings : CURVE_PG_AnimationProperties)
    : result (list offset_key) :=
  k1 <- offset_cycle start_frame duration start_factor end_factor settings 1 ;;
  k2 <- offset_cycle start_frame duration start_factor end_factor settings 2 ;;
  k3 <- offset_cycle start_frame duration start_factor end_factor settings 3 ;;
  Ok [k1; k2; k3].

Definition _create_repeat_animation (start_frame end_frame : Z) (end_factor : float)
    : list offset_key :=
  [ (end_frame, end_factor) ].

(** The insertions of [apply_animation] from "Insert initial keyframe"
    on, for the start frame and the two factors it has computed. *)
Definition offset_factor_keyframes (start_frame duration : Z)
    (start_factor end_factor : float) (settings : CURVE_PG_AnimationProperties)
    : result (list offset_key) :=
  let end_frame := start_frame + duration in
  rest <-
    (if loop_animation settings then
       match loop_type settings with
       | PING_PONG =>
           Ok (_create_ping_pong_animation start_frame duration start_factor end_factor)
       | OFFSET =>
           _create_offset_animation start_frame duration start_factor end_factor settings
       | REPEAT => Ok (_create_repeat_animation start_frame end_frame end_factor)
       end
     else Ok [ (end_frame, end_factor) ]) ;;
  Ok ((start_frame, start_factor) :: rest).

(** [apply_animation]; [time_offset] is the float computed by [execute],
    or [None] for the int [0] it passes when objects are not spaced. *)
Definition apply_animation (duration : Z) (time_offset : option float)
    (settings : CURVE_PG_AnimationProperties) : result (list offset_key) :=
  shift <-
    match time_offset with
    | None => Ok (0 * duration)
    | Some t => x <- int_mul_float duration t ;; int x
    end ;;
  let start_frame := 1 + shift in
  let start_factor := if reverse_direction settings then 1.0%float else 0.0%float in
  let end_factor := if reverse_direction settings then 0.0%float else 1.0%float in
  offset_factor_keyframes start_frame duration start_factor end_factor settings.

(** *** execute: the per-object loop and its report *)

(** The other fields of [CURVE_PG_AnimationProperties] that [execute]
    reads. *)
Record transform_options : Set :=
  { spacing : float;
    follow_curve : bool;
    additional_rotation : vec3;
    scale_animation : bool;
    scale_factor : vec3 }.

(** [spacing_offset = settings.spacing if total_objects > 1 else 0];
    [None] is the int [0]. *)
Definition spacing_offset (options : transform_options) (total_objects : nat)
    : option float :=
  if Nat.ltb 1 total_objects then Some (spacing options) else None.

(** [time_offset = (i * spacing_offset) / duration if spacing_offset > 0 else 0];
    again [None] is the int [0]. *)
Definition time_offset (i : nat) (spacing_offset : option float) (duration : Z)
    : result (option float) :=
  match spacing_offset with
  | Some sp =>
      if (0 <? sp)%float then
        x <- int_mul_float (Z.of_nat i) sp ;;
        fd <- float_of_int duration ;;
        if (fd =? 0)%float then Raise ZeroDivisionError
        else Ok (Some (x / fd)%float)
      else Ok None
  | None => Ok None
  end.

(** [apply_additional_rotation]: the rotation on entry is keyed at frame
    1 and the additional rotation at frame [duration]. *)
Definition apply_additional_rotation (rotation_on_entry rotation : vec3)
    (duration : Z) : list keyframe :=
  [ insert_keyframe rotation_euler 1 rotation_on_entry;
    insert_keyframe rotation_euler duration rotation ].

Definition apply_scale_animation (scale_factor : vec3) (duration : Z)
    (time_offset : option float) : result (list keyframe) :=
  shift <-
    match time_offset with
    | None => Ok (0 * duration)
    | Some t => x <- int_mul_float duration t ;; int x
    end ;;
  let start_frame := 1 + shift in
  x <- int_mul_float duration 0.5 ;;
  half <- int x ;;
  let mid_frame := start_frame + half in
  let end_frame := start_frame + duration in
  Ok [ insert_keyframe scale start_frame (1, 1, 1)%float;
       insert_keyframe scale mid_frame scale_factor;
       insert_keyframe scale end_frame (1, 1, 1)%float ].

(** What the host decides for one selected object: its name, whether
    [setup_constraints] yields a follow-path constraint when
    [apply_animation] calls it, and again when [apply_curve_following]
    does. *)
Record animated_object : Set :=
  { name : nat;
    constraints_ok : bool;
    following_ok : bool }.

(** [apply_animation] as [execute] sees it: [False], here [None], when
    no constraint could be made or when anything in its body raised. *)
Definition apply_animation_of (obj : animated_object) (duration : Z)
    (time_offset : option float) (settings : CURVE_PG_AnimationProperties)
    : option (list offset_key) :=
  if constraints_ok obj then
    match apply_animation duration time_offset settings with
    | Ok ks => Some ks
    | Raise _ => None
    end
  else None.

(** [any(r != 0 for r in settings.additional_rotation)] *)
Definition any_nonzero (v : vec3) : bool :=
  let '(x, y, z) := v in
  negb (x =? 0)%float || negb (y =? 0)%float || negb (z =? 0)%float.

(** The keys an object still has when [success_count] is raised. *)
Record object_keys : Set :=
  { offset_keys : list offset_key;
    rotation_keys : list keyframe;
    scale_keys : list keyframe }.

(** The body of the [try] for the object at index [i]: [Ok (Some _)]
    when it reaches [success_count += 1], [Ok None] when it leaves
    through a [continue], [Raise] when an exception reaches the
    [except].  With [follow_curve] on, [apply_curve_following] runs
    [setup_constraints] a second time, whose [cleanup_animation_data]
    removes the action [apply_animation] has just keyed: the object
    keeps none of its offset keys.  [setup_object] has reset the
    rotation to [(0, 0, 0)] before anything is keyed; what else the
    host does between the steps is taken not to raise. *)
Definition animate_object (settings : CURVE_PG_AnimationProperties)
    (options : transform_options) (duration : Z) (spacing_offset : option float)
    (i : nat) (obj : animated_object) : result (option object_keys) :=
  time_offset <- time_offset i spacing_offset duration ;;
  adjusted_duration <- adjusted_duration duration settings ;;
  match apply_animation_of obj adjusted_duration time_offset settings with
  | None => Ok None
  | Some offsets =>
      if follow_curve options && negb (following_ok obj) then Ok None
      else
        let offsets := if follow_curve options then [] else offsets in
        let rotations :=
          if any_nonzero (additional_rotation options)
          then apply_additional_rotation (0, 0, 0)%float
                 (additional_rotation options) adjusted_duration
          else [] in
        scales <-
          (if scale_animation options
           then apply_scale_animation (scale_factor options) adjusted_duration
                  time_offset
           else Ok []) ;;
        Ok (Some {| offset_keys := offsets; rotation_keys := rotations;
                    scale_keys := scales |})
  end.

(** [success_count] and [failed_objects] *)
Definition tally : Set := (nat * list nat)%type.

(** [for i, obj in enumerate(selected_objects)], from index [i] on. *)
Fixpoint for_objects (settings : CURVE_PG_AnimationProperties)
    (options : transform_options) (duration : Z) (spacing_offset : option float)
    (i : nat) (selected_objects : list animated_object) (t : tally) : tally :=
  match selected_objects with
  | [] => t
  | obj :: rest =>
      let '(success_count, failed_objects) := t in
      let t' :=
        match animate_object settings options duration spacing_offset i obj with
        | Ok (Some _) => (S success_count, failed_objects)
        | Ok None => (success_count, failed_objects ++ [name obj])
        | Raise _ => (success_count, failed_objects ++ [name obj])
        end in
      for_objects settings options duration spacing_offset (S i) rest t'
  end.

Inductive status : Set := FINISHED | CANCELLED.

Inductive level : Set := INFO | WARNING | ERROR.

(** What the host decides around the loop: whether the assets folder
    and [Assets.blend] exist, whether the curve loads, and how many
    collections the curve object is in ([curve_obj.users_collection]). *)
Record assets : Set :=
  { assets_folder_found : bool;
    blend_file_exists : bool;
    curve_loaded : bool;
    curve_users_collection : nat }.

Inductive raised : Set := NameError.

(** [update_curve_visibility], read without its stray [except] clause:
    the first turn of [for collection in curve_obj.users_collection]
    reads [context], which is no name of the method or of the module,
    and raises; with no collection nothing is raised. *)
Definition update_curve_visibility (users_collection : nat) : raised + unit :=
  match users_collection with
  | O => inr tt
  | S _ => inl NameError
  end.

(** "Report results" *)
Definition report_results (total_objects : nat) (t : tally) : status * level :=
  let '(success_count, _) := t in
  if Nat.eqb success_count total_objects then (FINISHED, INFO)
  else if Nat.ltb 0 success_count then (FINISHED, WARNING)
  else (CANCELLED, ERROR).

(** [execute]: the operator's return value, the level of its last
    report and the tally of the loop, if it was reached.  An exception
    of [update_curve_visibility] is caught by the handler around the
    loop, which reports "Animation process failed" and cancels. *)
Module Operator.

Definition execute (host : assets) (settings : CURVE_PG_AnimationProperties)
    (options : transform_options) (selected_objects : list animated_object)
    (duration : Z) : status * level * option tally :=
  match validate_inputs (length selected_objects) duration with
  | Some _ => (CANCELLED, ERROR, None)
  | None =>
      if negb (assets_folder_found host) then (CANCELLED, ERROR, None)
      else if negb (blend_file_exists host) then (CANCELLED, ERROR, None)
      else if negb (curve_loaded host) then (CANCELLED, ERROR, None)
      else
        let total_objects := length selected_objects in
        let spacing_offset := spacing_offset options total_objects in
        let t := for_objects settings options duration spacing_offset 0
                   selected_objects (O, []) in
        match update_curve_visibility (curve_users_collection host) with
        | inl _ => (CANCELLED, ERROR, Some t)
        | inr _ => (report_results total_objects t, Some t)
        end
  end.

End Operator.

End CURVE_OT_ApplyCurveAnimation.

(** ** Stepping through an enum: the Prev/Next operators *)

Module PyList.

Inductive exn : Set := ValueError | IndexError | ZeroDivisionError.

Definition result (A : Type) : Type := (exn + A)%type.

(** [l.index(x)]: the position of the first element equal to [x]. *)
Fixpoint index (l : list String.string) (x : String.string) : result Z :=
  match l with
  | [] => inl ValueError
  | y :: rest =>
      if String.eqb y x then inr 0
      else match index rest x with
           | inr i => inr (i + 1)
           | inl e => inl e
           end
  end.

(** [l[k]]: a negative [k] counts from the end. *)
Definition getitem (l : list String.string) (k : Z) : result String.string :=
  let n := Z.of_nat (length l) in
  let k' := if k <? 0 then k + n else k in
  if (k' <? 0) || (n <=? k') then inl IndexError
  else match nth_error l (Z.to_nat k') with
       | Some x => inr x
       | None => inl IndexError
       end.

(** [a % b] on ints: the remainder has the sign of [b]. *)
Definition modulo (a b : Z) : result Z :=
  if b =? 0 then inl ZeroDivisionError else inr (a mod b).

End PyList.

(** curve_animation.py: the new value of [props.curve_enum]. *)

Module CURVE_OT_PrevCurve.

Definition execute (items : list String.string) (curve_enum : String.string)
    : PyList.result String.string :=
  match PyList.index items curve_enum with
  | inl e => inl e
  | inr current =>
      match PyList.modulo (current - 1) (Z.of_nat (length items)) with
      | inl e => inl e
      | inr k => PyList.getitem items k
      end
  end.

End CURVE_OT_PrevCurve.

Module CURVE_OT_NextCurve.

Definition execute (items : list String.string) (curve_enum : String.string)
    : PyList.result String.string :=
  match PyList.index items curve_enum with
  | inl e => inl e
  | inr current =>
      match PyList.modulo (current + 1) (Z.of_nat (length items)) with
      | inl e => inl e
      | inr k => PyList.getitem items k
      end
  end.

End CURVE_OT_NextCurve.

(** animation_presets.py: the new value of [props.preset_enum]. *)

Module ANIM_OT_PrevPreset.

(** "Find current index": the loop over [enumerate(items)] from index
    [i] on, which leaves [current_index] alone when nothing matches. *)
Fixpoint find_current_index (items : list String.string) (preset_enum : String.string)
    (i current_index : Z) : Z :=
  match items with
  | [] => current_index
  | item :: rest =>
      if String.eqb item preset_enum then i
      else find_current_index rest preset_enum (i + 1) current_index
  end.

Definition execute (items : list String.string) (preset_enum : String.string)
    : PyList.result String.string :=
  let current_index := find_current_index items preset_enum 0 0 in
  let prev_index := current_index - 1 in
  let prev_index :=
    if prev_index <? 0 then Z.of_nat (length items) - 1 else prev_index in
  PyList.getitem items prev_index.

End ANIM_OT_PrevPreset.

Module ANIM_OT_NextPreset.

Definition execute (items : list String.string) (preset_enum : String.string)
    : PyList.result String.string :=
  let current_index := ANIM_OT_PrevPreset.find_current_index items preset_enum 0 0 in
  match PyList.modulo (current_index + 1) (Z.of_nat (length items)) with
  | inl e => inl e
  | inr next_index => PyList.getitem items next_index
  end.

End ANIM_OT_NextPreset.

(** [n] presses of a Prev or Next button, each on the value the press
    before has left. *)
Fixpoint presses (n : nat) (press : String.string -> PyList.result String.string)
    (x : String.string) : PyList.result String.string :=
  match n with
  | O => inr x
  | S n' =>
      match press x with
      | inl e => inl e
      | inr y => presses n' press y
      end
  end.

(** ** animate_along_curve.py: ANIM_OT_animate_along_curve *)

Module ANIM_OT_animate_along_curve.

Inductive error : Set :=
| No_active_object_selected
| Invalid_or_no_curve_selected
| End_frame_must_be_greater_than_start_frame
| Please_select_a_target_curve_first.

(** What a finished run leaves: [curve.data.path_duration] and the two
    [offset_factor] keys. *)
Record applied : Set :=
  { path_duration : Z;
    offset_factor_keys : list (Z * float) }.

(** [execute]: [active_object] says whether there is an active object,
    [curve_is_curve] whether the target is set and of type CURVE. *)
Definition execute (active_object curve_is_curve : bool) (start_frame end_frame : Z)
    : error + applied :=
  if negb active_object then inl No_active_object_selected
  else if negb curve_is_curve then inl Invalid_or_no_curve_selected
  else if end_frame <=? start_frame
  then inl End_frame_must_be_greater_than_start_frame
  else inr {| path_duration := end_frame - start_frame;
              offset_factor_keys :=
                [ (start_frame, 0.0%float); (end_frame, 1.0%float) ] |}.

(** [invoke]: [target_curve] says whether a target is set at all. *)
Definition invoke (target_curve active_object curve_is_curve : bool)
    (start_frame end_frame : Z) : error + applied :=
  if negb target_curve then inl Please_select_a_target_curve_first
  else execute active_object curve_is_curve start_frame end_frame.

End ANIM_OT_animate_along_curve.

(** ** Reference definitions, in the words of the specification *)

Module Spec.

(** [clamp01(x) = min(max(x, 0), 1)] *)
Definition clamp01 (x : float) : float := Py.min (Py.max x 0.0) 1.0.

(** [round(x)]: the integer nearest to [x], a tie going to the even
    neighbour (Python's [round]; errors as for [int]). *)
Definition round (x : float) : result Z :=
  match Prim2SF x with
  | S754_zero _ => Ok 0
  | S754_finite s m e =>
      if 0 <=? e then Ok (cond_Zopp s (Z.shiftl (Zpos m) e))
      else
        let q := Z.shiftr (Zpos m) (- e) in
        let r := Zpos m - Z.shiftl q (- e) in
        let up :=
          match 2 * r ?= Z.shiftl 1 (- e) with
          | Lt => false
          | Eq => Z.odd q
          | Gt => true
          end in
        Ok (cond_Zopp s (if up then q + 1 else q))
  | S754_infinity _ => Raise OverflowError
  | S754_nan => Raise ValueError
  end.

(** The staggered variant as specified: "shift every sample's
    time_fraction by [copy_index * delay_fraction_per_copy]; drop samples
    whose shifted fraction exceeds 1.0". *)
Definition shift_drop {V : Type} (delay_pct : float) (samples : list (float * V))
    : list (float * V) :=
  filter (fun kv => negb (1.0 <? fst kv)%float)
    (map (fun kv => ((fst kv + delay_pct)%float, snd kv)) samples).

(** Effective duration as specified: [round(duration_frames / speed_factor)]. *)
Definition effective_duration (duration_frames : Z) (speed_factor : float) : result Z :=
  q <- int_div_float duration_frames speed_factor ;; round q.

End Spec.

Import ANIM_OT_add_preset CURVE_OT_ApplyCurveAnimation.

(** The settings [st] with another speed factor. *)
Definition with_speed (speed : float) (st : CURVE_PG_AnimationProperties)
    : CURVE_PG_AnimationProperties :=
  {| speed_factor := speed; reverse_direction := reverse_direction st;
     loop_animation := loop_animation st; loop_type := loop_type st;
     loop_offset := loop_offset st |}.

(** Settings of the curve operator with looping switched on. *)
Definition looping (speed : float) (reverse : bool) (lt : loop_type_enum)
    (offset : float) : CURVE_PG_AnimationProperties :=
  {| speed_factor := speed; reverse_direction := reverse;
     loop_animation := true; loop_type := lt; loop_offset := offset |}.


(** The settings [st] with the direction reversed. *)
Definition reversed (st : CURVE_PG_AnimationProperties) : CURVE_PG_AnimationProperties :=
  {| speed_factor := speed_factor st;
     reverse_direction := negb (reverse_direction st);
     loop_animation := loop_animation st; loop_type := loop_type st;
     loop_offset := loop_offset st |}.

(** The same keys with every offset factor [f] turned into [1 - f]. *)
Definition mirrored (ks : list offset_key) : list offset_key :=
  map (fun k => (fst k, (1 - snd k)%float)) ks.
(** ** Binary64 rounding, on integers

    The definitions below restate the rounding of [SpecFloat], which
    shifts a mantissa one bit at a time, with divisions by powers of
    two; the facts about the primitive floats are proved on them. *)

(** [m / 2 ^ k] rounded to the nearest integer, a tie going to the even
    neighbour. *)
Definition rne (m k : Z) : Z :=
  let q := m / 2 ^ k in
  match 2 * (m mod 2 ^ k) ?= 2 ^ k with
  | Lt => q
  | Eq => if Z.even q then q else q + 1
  | Gt => q + 1
  end.

(** What [j] one-bit shifts of the mantissa [m] leave in a shift record:
    the quotient, the last bit shifted out, and whether any bit before
    it was set. *)
Definition shr_inv (m j : Z) (mrs : shr_record) : Prop :=
  shr_m mrs = m / 2 ^ j
  /\ (j = 0 /\ shr_r mrs = false /\ shr_s mrs = false
      \/ 0 < j /\ shr_r mrs = Z.testbit m (j - 1)
         /\ shr_s mrs = negb (m mod 2 ^ (j - 1) =? 0)).

(** [binary_round_aux] from an exact location: one rounding to the
    exponent the format assigns to [m * 2 ^ e], then a renormalisation. *)
Definition round_model (sx : bool) (m e : Z) : spec_float :=
  let k := Z.max 0 (fexp prec emax (Zdigits2 m + e) - e) in
  let m1 := rne m k in
  let e1 := e + k in
  let k1 := Z.max 0 (fexp prec emax (Zdigits2 m1 + e1) - e1) in
  match m1 / 2 ^ k1 with
  | Z0 => S754_zero sx
  | Zpos p =>
      if e1 + k1 <=? emax - prec then S754_finite sx p (e1 + k1)
      else S754_infinity sx
  | Zneg _ => S754_nan
  end.

(** The exponent binary64 assigns to a number of magnitude [2 ^ x]. *)
Definition fexp64 (x : Z) : Z := Z.max (x - 53) (-1074).

(** Rounding on integers scaled by [2 ^ c]: the grid step at [N] is
    [2 ^ K] with [K] the scaled exponent of [N]. *)
Definition round_grid (c N : Z) : Z :=
  let K := Z.max (Zdigits2 N - 53) (c - 1074) in
  rne N K * 2 ^ K.

(** [x * 2 ^ c] for a finite [x]. *)
Definition SFscaled (c : Z) (x : spec_float) : Z :=
  match x with
  | S754_finite s m e => cond_Zopp s (Zpos m * 2 ^ (e + c))
  | _ => 0
  end.

(** zero, or finite and positive *)
Definition SFnonneg (x : spec_float) : Prop :=
  match x with
  | S754_zero _ => True
  | S754_finite s _ _ => s = false
  | _ => False
  end.


(** ** Descriptors *)

(** A number of [[0, 1]]: a time fraction or an offset factor of the
    data model. *)
Definition in_unit_interval (t : float) : Prop :=
  (0 <=? t)%float = true /\ (t <=? 1)%float = true.

(** Non-decreasing time fractions, sample after sample. *)
Definition nondecreasing (ts : list float) : Prop :=
  Sorted (fun a b => (a <=? b)%float = true) ts.

(** The insertions made for the frames [fs] and the sample values [vs]. *)
Definition insert_all {K V : Type} (insert : Z -> V -> list K)
    (fs : list Z) (vs : list V) : list K :=
  flat_map (fun fv => insert (fst fv) (snd fv)) (combine fs vs).

(** ** Signed numbers *)

(** Zero, or finite of either sign. *)
Definition SFfinite (x : spec_float) : Prop :=
  match x with
  | S754_zero _ | S754_finite _ _ _ => True
  | _ => False
  end.

(** [round_grid], extended to negative integers by symmetry. *)
Definition sround (c N : Z) : Z :=
  if N <? 0 then - round_grid c (- N) else round_grid c N.

(** ** Windows *)

(** A frame from [start_frame] to [start_frame + d]. *)
Definition in_window (start_frame d frame : Z) : Prop :=
  start_frame <= frame <= start_frame + d.

(** ** Magnitudes *)

(** Zero, or finite, positive and below [2 ^ M]. *)
Definition SFbelow (M : Z) (x : spec_float) : Prop :=
  match x with
  | S754_zero _ => True
  | S754_finite s m e => s = false /\ Zpos (digits2_pos m) + e <= M
  | _ => False
  end.
(** * Facts about binary64 arithmetic *)

(** ** Digits of a mantissa *)
Lemma digits2_pos_bounds (m : positive) :
  2 ^ (Zpos (digits2_pos m) - 1) <= Zpos m < 2 ^ Zpos (digits2_pos m).
Proof.
  induction m as [m IH|m IH|]; cbn [digits2_pos].
  - rewrite Pos2Z.inj_succ. replace (Z.succ (Zpos (digits2_pos m)) - 1) with (Z.succ (Zpos (digits2_pos m) - 1)) by lia.
    rewrite !Z.pow_succ_r by lia. lia.
  - rewrite Pos2Z.inj_succ. replace (Z.succ (Zpos (digits2_pos m)) - 1) with (Z.succ (Zpos (digits2_pos m) - 1)) by lia.
    rewrite !Z.pow_succ_r by lia. lia.
  - cbn. lia.
Qed.

Lemma digits2_pos_unique (m : positive) (k : Z) :
  2 ^ (k - 1) <= Zpos m < 2 ^ k -> Zpos (digits2_pos m) = k.
Proof.
  intros [Hlo Hhi]. pose proof (digits2_pos_bounds m) as [Blo Bhi].
  set (d := Zpos (digits2_pos m)) in *.
  assert (0 < k).
  { destruct (Z_lt_le_dec 0 k); auto. exfalso.
    assert (2 ^ k <= 1).
    { destruct (Z.eq_dec k 0) as [->|]; [cbn; lia|]. rewrite Z.pow_neg_r by lia. lia. }
    lia. }
  destruct (Z_lt_le_dec d k).
  - assert (2 ^ d <= 2 ^ (k - 1)) by (apply Z.pow_le_mono_r; lia). lia.
  - destruct (Z_lt_le_dec k d); [|lia].
    assert (2 ^ k <= 2 ^ (d - 1)) by (apply Z.pow_le_mono_r; lia). lia.
Qed.

(** ** One-bit shifts and rounding to nearest even *)
Lemma iter_pos_nat {A} (f : A -> A) (p : positive) (x : A) :
  iter_pos f p x = Nat.iter (Pos.to_nat p) f x.
Proof.
  revert x. induction p as [p IH|p IH|]; intros x; cbn [iter_pos].
  - rewrite !IH. rewrite Pos2Nat.inj_xI.
    replace (S (2 * Pos.to_nat p))%nat with (S (Pos.to_nat p + Pos.to_nat p))%nat by lia.
    rewrite Nat.iter_succ_r. now rewrite Nat.iter_add.
  - rewrite !IH. rewrite Pos2Nat.inj_xO.
    replace (2 * Pos.to_nat p)%nat with (Pos.to_nat p + Pos.to_nat p)%nat by lia.
    now rewrite Nat.iter_add.
  - reflexivity.
Qed.

Lemma shr_1_nonneg (mrs : shr_record) :
  0 <= shr_m mrs ->
  shr_1 mrs = {| shr_m := shr_m mrs / 2; shr_r := Z.odd (shr_m mrs);
                 shr_s := shr_r mrs || shr_s mrs |}.
Proof.
  destruct mrs as [m r s]; cbn [shr_m shr_r shr_s]. intros Hm.
  rewrite <- Z.div2_div.
  destruct m as [|[p|p|]|p]; try reflexivity. lia.
Qed.

Lemma mod_pow2_succ (m j : Z) :
  0 <= j ->
  m mod 2 ^ (j + 1) = m mod 2 ^ j + 2 ^ j * Z.b2z (Z.testbit m j).
Proof.
  intros Hj. rewrite Z.pow_add_r, Z.pow_1_r by lia.
  rewrite Z.rem_mul_r by lia. now rewrite Z.testbit_spec' by lia.
Qed.

Lemma shr_inv_step (m j : Z) (mrs : shr_record) :
  0 <= m -> 0 <= j -> shr_inv m j mrs -> shr_inv m (j + 1) (shr_1 mrs).
Proof.
  intros Hm Hj [Hq Hrs].
  assert (0 < 2 ^ j) by (apply Z.pow_pos_nonneg; lia).
  assert (0 <= shr_m mrs) by (rewrite Hq; apply Z.div_pos; lia).
  rewrite shr_1_nonneg by assumption. split; cbn [shr_m shr_r shr_s].
  - rewrite Hq, Z.div_div by lia. now rewrite Z.pow_add_r, Z.pow_1_r by lia.
  - right. split; [lia|]. replace (j + 1 - 1) with j by lia. split.
    + rewrite Hq, Z.testbit_odd, Z.shiftr_div_pow2 by lia. reflexivity.
    + destruct Hrs as [(-> & -> & ->)|(Hj' & -> & ->)].
      * cbn. now rewrite Z.mod_1_r.
      * replace j with (j - 1 + 1) at 3 by lia. rewrite mod_pow2_succ by lia.
        assert (0 <= m mod 2 ^ (j - 1)) by (apply Z.mod_pos_bound, Z.pow_pos_nonneg; lia).
        assert (0 < 2 ^ (j - 1)) by (apply Z.pow_pos_nonneg; lia).
        destruct (Z.testbit m (j - 1)); cbn [Z.b2z orb].
        -- symmetry. apply negb_true_iff, Z.eqb_neq. lia.
        -- now rewrite Z.mul_0_r, Z.add_0_r.
Qed.

Lemma shr_inv_iter (m : Z) (n : nat) :
  0 <= m ->
  shr_inv m (Z.of_nat n)
    (Nat.iter n shr_1 {| shr_m := m; shr_r := false; shr_s := false |}).
Proof.
  intros Hm. induction n as [|n IH].
  - split; cbn; [now rewrite Z.div_1_r | now left].
  - rewrite Nat2Z.inj_succ. cbn [Nat.iter]. apply shr_inv_step; auto; lia.
Qed.

Lemma rne_of_inv (m k : Z) (mrs : shr_record) :
  0 <= m -> 0 <= k -> shr_inv m k mrs ->
  round_nearest_even (shr_m mrs) (loc_of_shr_record mrs) = rne m k.
Proof.
  intros Hm Hk [Hq Hrs]. unfold rne. rewrite <- Hq.
  destruct Hrs as [(-> & Hr & Hs)|(Hk' & Hr & Hs)].
  - rewrite Z.mod_1_r. cbn. destruct mrs as [q r s]; cbn in *; subst. reflexivity.
  - replace k with (k - 1 + 1) at 1 2 by lia.
    rewrite mod_pow2_succ by lia. rewrite Z.pow_add_r, Z.pow_1_r by lia.
    assert (0 <= m mod 2 ^ (k - 1) < 2 ^ (k - 1)) by (apply Z.mod_pos_bound, Z.pow_pos_nonneg; lia).
    destruct mrs as [q r s]; cbn [shr_m shr_r shr_s loc_of_shr_record] in *.
    rewrite <- Hr. destruct r; cbn [Z.b2z].
    + destruct (Z.eqb_spec (m mod 2 ^ (k - 1)) 0) as [E|E]; cbn in Hs; subst s.
      * rewrite E. replace (2 * (0 + 2 ^ (k - 1) * 1) ?= 2 ^ (k - 1) * 2) with Eq
          by (symmetry; apply Z.compare_eq_iff; lia). reflexivity.
      * replace (2 * (m mod 2 ^ (k - 1) + 2 ^ (k - 1) * 1) ?= 2 ^ (k - 1) * 2) with Gt
          by (symmetry; apply Z.compare_gt_iff; lia). reflexivity.
    + replace (2 * (m mod 2 ^ (k - 1) + 2 ^ (k - 1) * 0) ?= 2 ^ (k - 1) * 2) with Lt
        by (symmetry; apply Z.compare_lt_iff; lia).
      now destruct s.
Qed.

Lemma shr_exact (m e n : Z) :
  0 <= m ->
  exists mrs,
    shr {| shr_m := m; shr_r := false; shr_s := false |} e n = (mrs, e + Z.max 0 n)
    /\ shr_inv m (Z.max 0 n) mrs.
Proof.
  intros Hm. destruct n as [|p|p]; cbn [shr].
  - eexists; split; [now rewrite Z.add_0_r|]. apply (shr_inv_iter m 0 Hm).
  - eexists; split; [reflexivity|]. rewrite iter_pos_nat.
    replace (Z.max 0 (Zpos p)) with (Z.of_nat (Pos.to_nat p)) by lia.
    now apply shr_inv_iter.
  - eexists; split; [now rewrite Z.add_0_r|]. apply (shr_inv_iter m 0 Hm).
Qed.

Lemma rne_bounds (m k : Z) : m / 2 ^ k <= rne m k <= m / 2 ^ k + 1.
Proof.
  unfold rne. destruct (_ ?= _); [destruct (Z.even _)| |]; lia.
Qed.

Lemma rne_nonneg (m k : Z) : 0 <= m -> 0 <= k -> 0 <= rne m k.
Proof.
  intros Hm Hk. pose proof (rne_bounds m k).
  assert (0 <= m / 2 ^ k) by (apply Z.div_pos; [lia|apply Z.pow_pos_nonneg; lia]). lia.
Qed.

Lemma rne_multiple (q k : Z) : 0 <= k -> rne (q * 2 ^ k) k = q.
Proof.
  intros Hk. assert (0 < 2 ^ k) by (apply Z.pow_pos_nonneg; lia).
  unfold rne. rewrite Z.mod_mul, Z.div_mul by lia.
  replace (2 * 0 ?= 2 ^ k) with Lt by (symmetry; apply Z.compare_lt_iff; lia).
  reflexivity.
Qed.

(** the rounded value never passes a grid point *)
Lemma rne_le_grid (m k g : Z) :
  0 <= k -> m <= g * 2 ^ k -> rne m k <= g.
Proof.
  intros Hk Hle. assert (Hp : 0 < 2 ^ k) by (apply Z.pow_pos_nonneg; lia).
  pose proof (Z.div_mod m (2 ^ k) ltac:(lia)) as Hdm.
  pose proof (Z.mod_pos_bound m (2 ^ k) Hp) as Hr.
  unfold rne.
  assert (Hq : m / 2 ^ k <= g) by (apply Z.div_le_upper_bound; lia).
  destruct (Z.eq_dec (m mod 2 ^ k) 0) as [E|E].
  - rewrite E. replace (2 * 0 ?= 2 ^ k) with Lt by (symmetry; apply Z.compare_lt_iff; lia).
    exact Hq.
  - assert (m / 2 ^ k < g) by nia.
    destruct (_ ?= _); [destruct (Z.even _)| |]; lia.
Qed.

Lemma rne_ge_grid (m k g : Z) :
  0 <= k -> g * 2 ^ k <= m -> g <= rne m k.
Proof.
  intros Hk Hle. assert (Hp : 0 < 2 ^ k) by (apply Z.pow_pos_nonneg; lia).
  pose proof (rne_bounds m k).
  assert (g <= m / 2 ^ k) by (apply Z.div_le_lower_bound; lia). lia.
Qed.

Lemma rne_mono (m1 m2 k : Z) :
  0 <= k -> m1 <= m2 -> rne m1 k <= rne m2 k.
Proof.
  intros Hk Hle. assert (Hp : 0 < 2 ^ k) by (apply Z.pow_pos_nonneg; lia).
  assert (Hq : m1 / 2 ^ k <= m2 / 2 ^ k) by (apply Z.div_le_mono; lia).
  destruct (Z.eq_dec (m1 / 2 ^ k) (m2 / 2 ^ k)) as [E|E].
  - pose proof (Z.div_mod m1 (2 ^ k) ltac:(lia)).
    pose proof (Z.div_mod m2 (2 ^ k) ltac:(lia)).
    assert (Hr : m1 mod 2 ^ k <= m2 mod 2 ^ k) by nia.
    unfold rne. rewrite E.
    destruct (Z.compare_spec (2 * (m1 mod 2 ^ k)) (2 ^ k));
      destruct (Z.compare_spec (2 * (m2 mod 2 ^ k)) (2 ^ k));
      destruct (Z.even (m2 / 2 ^ k)); lia.
  - pose proof (rne_bounds m1 k). pose proof (rne_bounds m2 k). lia.
Qed.

Lemma binary_round_aux_model (sx : bool) (m e : Z) :
  0 <= m ->
  binary_round_aux prec emax sx m e loc_Exact = round_model sx m e.
Proof.
  intros Hm. unfold binary_round_aux, round_model, shr_fexp.
  cbn [shr_record_of_loc].
  destruct (shr_exact m e (fexp prec emax (Zdigits2 m + e) - e) Hm) as (mrs & -> & Hinv).
  set (k := Z.max 0 (fexp prec emax (Zdigits2 m + e) - e)) in *.
  rewrite (rne_of_inv m k mrs) by (auto; lia).
  assert (H1 : 0 <= rne m k) by (apply rne_nonneg; lia).
  destruct (shr_exact (rne m k) (e + k)
              (fexp prec emax (Zdigits2 (rne m k) + (e + k)) - (e + k)) H1)
    as (mrs' & -> & [Hq' _]).
  rewrite Hq'. reflexivity.
Qed.

Lemma Zdigits2_bounds (n : Z) :
  0 < n -> 2 ^ (Zdigits2 n - 1) <= n < 2 ^ Zdigits2 n.
Proof.
  destruct n as [|p|p]; try lia. intros _. apply digits2_pos_bounds.
Qed.

Lemma Zdigits2_unique (n k : Z) :
  0 < n -> 2 ^ (k - 1) <= n < 2 ^ k -> Zdigits2 n = k.
Proof.
  destruct n as [|p|p]; try lia. intros _. apply digits2_pos_unique.
Qed.

Lemma Zdigits2_pos (n : Z) : 0 < n -> 0 < Zdigits2 n.
Proof. destruct n; cbn; lia. Qed.

Lemma Zdigits2_le (n k : Z) : 0 < n -> n < 2 ^ k -> Zdigits2 n <= k.
Proof.
  intros Hn Hk. pose proof (Zdigits2_bounds n Hn) as [Hlo _].
  destruct (Z_lt_le_dec k (Zdigits2 n)); [|lia].
  assert (2 ^ k <= 2 ^ (Zdigits2 n - 1)).
  { apply Z.pow_le_mono_r; lia. }
  lia.
Qed.

Lemma Zdigits2_mul_pow2 (n j : Z) :
  0 < n -> 0 <= j -> Zdigits2 (n * 2 ^ j) = Zdigits2 n + j.
Proof.
  intros Hn Hj. pose proof (Zdigits2_bounds n Hn) as [Hlo Hhi].
  pose proof (Zdigits2_pos n Hn).
  assert (0 < 2 ^ j) by (apply Z.pow_pos_nonneg; lia).
  apply Zdigits2_unique; [nia|].
  replace (Zdigits2 n + j - 1) with (Zdigits2 n - 1 + j) by lia.
  rewrite !Z.pow_add_r by lia. nia.
Qed.

(** the second normalisation shifts by at most one place *)
Lemma round_model_cases (sx : bool) (m e : Z) :
  0 < m ->
  let k := Z.max 0 (fexp64 (Zdigits2 m + e) - e) in
  let m1 := rne m k in
  round_model sx m e =
    if m1 =? 0 then S754_zero sx
    else if m1 =? 2 ^ 53 then
      if e + k + 1 <=? 971 then S754_finite sx (Z.to_pos (2 ^ 52)) (e + k + 1)
      else S754_infinity sx
    else
      if e + k <=? 971 then S754_finite sx (Z.to_pos m1) (e + k)
      else S754_infinity sx.
Proof.
  intros Hm k m1. unfold round_model. cbv zeta.
  change (fexp prec emax) with fexp64. fold k. fold m1.
  pose proof (Zdigits2_bounds m Hm) as [Hlo Hhi].
  assert (Hk : 0 <= k) by (unfold k; lia).
  assert (Hp : 0 < 2 ^ k) by (apply Z.pow_pos_nonneg; lia).
  assert (Hdk : Zdigits2 m <= 53 + k) by (unfold k, fexp64; lia).
  assert (Hq : m / 2 ^ k < 2 ^ 53).
  { apply Z.div_lt_upper_bound; [lia|]. rewrite <- Z.pow_add_r by lia.
    eapply Z.lt_le_trans; [exact Hhi|]. apply Z.pow_le_mono_r; lia. }
  pose proof (rne_bounds m k) as Hb. fold m1 in Hb.
  assert (H0 : 0 <= m1) by (apply rne_nonneg; lia).
  assert (He1 : -1074 <= e + k) by (unfold k, fexp64; lia).
  destruct (Z.eqb_spec m1 0) as [E0|E0].
  - rewrite E0. cbn [Zdigits2]. rewrite Z.div_0_l; [reflexivity|].
    apply Z.pow_nonzero; lia.
  - destruct (Z.eqb_spec m1 (2 ^ 53)) as [E1|E1].
    + rewrite E1.
      replace (Zdigits2 (2 ^ 53)) with 54 by reflexivity.
      replace (Z.max 0 (fexp64 (54 + (e + k)) - (e + k))) with 1 by (unfold fexp64; lia).
      replace (2 ^ 53 / 2 ^ 1) with (2 ^ 52) by reflexivity.
      replace (e + k + 1 <=? emax - prec) with (e + k + 1 <=? 971) by reflexivity.
      reflexivity.
    + assert (Hd1 : Zdigits2 m1 <= 53) by (apply Zdigits2_le; lia).
      replace (Z.max 0 (fexp64 (Zdigits2 m1 + (e + k)) - (e + k))) with 0
        by (unfold fexp64; lia).
      rewrite Z.add_0_r. change (2 ^ 0) with 1. rewrite Z.div_1_r.
      replace (e + k <=? emax - prec) with (e + k <=? 971) by reflexivity.
      destruct m1 as [|p|p]; try lia. reflexivity.
Qed.

Lemma compare_scale (a b p : Z) : 0 < p -> (a * p ?= b * p) = (a ?= b).
Proof.
  intros Hp. destruct (Z.compare_spec a b);
    [apply Z.compare_eq_iff|apply Z.compare_lt_iff|apply Z.compare_gt_iff]; nia.
Qed.

Lemma rne_scale (m k j : Z) :
  0 <= k -> 0 <= j -> rne (m * 2 ^ j) (k + j) = rne m k.
Proof.
  intros Hk Hj.
  assert (0 < 2 ^ j) by (apply Z.pow_pos_nonneg; lia).
  assert (0 < 2 ^ k) by (apply Z.pow_pos_nonneg; lia).
  unfold rne. rewrite Z.pow_add_r by lia.
  rewrite Z.div_mul_cancel_r, Z.mul_mod_distr_r by lia.
  replace (2 * (m mod 2 ^ k * 2 ^ j) ?= 2 ^ k * 2 ^ j)
    with (2 * (m mod 2 ^ k) ?= 2 ^ k); [reflexivity|].
  rewrite Z.mul_assoc. symmetry. now apply compare_scale.
Qed.

Lemma round_grid_0 (c : Z) : 1074 <= c -> round_grid c 0 = 0.
Proof.
  intros Hc. unfold round_grid. cbn [Zdigits2].
  replace 0 with (0 * 2 ^ Z.max (0 - 53) (c - 1074)) at 1 by lia.
  rewrite rne_multiple by lia. lia.
Qed.

Lemma round_grid_nonneg (c N : Z) : 1074 <= c -> 0 <= N -> 0 <= round_grid c N.
Proof.
  intros Hc HN. unfold round_grid.
  apply Z.mul_nonneg_nonneg; [apply rne_nonneg; lia|apply Z.pow_nonneg; lia].
Qed.

Lemma round_grid_scaled (c m e : Z) :
  1074 <= c -> 0 < m -> 0 <= e + c ->
  let k := Z.max 0 (fexp64 (Zdigits2 m + e) - e) in
  round_grid c (m * 2 ^ (e + c)) = rne m k * 2 ^ (e + k + c).
Proof.
  intros Hc Hm He k. unfold round_grid.
  rewrite Zdigits2_mul_pow2 by lia.
  set (E := fexp64 (Zdigits2 m + e)) in *.
  replace (Z.max (Zdigits2 m + (e + c) - 53) (c - 1074)) with (E + c)
    by (unfold E, fexp64; lia).
  assert (-1074 <= E) by (unfold E, fexp64; lia).
  destruct (Z_le_gt_dec e E) as [HE|HE].
  - replace k with (E - e) by (unfold k; lia).
    replace (E + c) with (E - e + (e + c)) at 1 by lia.
    rewrite rne_scale by lia. f_equal. f_equal. lia.
  - replace k with 0 by (unfold k; lia).
    replace (m * 2 ^ (e + c)) with (m * 2 ^ (e - E) * 2 ^ (E + c)).
    + rewrite rne_multiple by lia.
      replace m with (m * 2 ^ 0) at 2 by (cbn; lia).
      rewrite rne_multiple by lia.
      rewrite <- Z.mul_assoc, <- Z.pow_add_r by lia. f_equal. f_equal. lia.
    + rewrite <- Z.mul_assoc, <- Z.pow_add_r by lia. f_equal. f_equal. lia.
Qed.

Lemma round_grid_exact (c m e : Z) :
  1074 <= c -> 0 < m -> 0 <= e + c -> fexp64 (Zdigits2 m + e) <= e ->
  round_grid c (m * 2 ^ (e + c)) = m * 2 ^ (e + c).
Proof.
  intros Hc Hm He Hcan. rewrite round_grid_scaled by assumption.
  replace (Z.max 0 (fexp64 (Zdigits2 m + e) - e)) with 0 by lia.
  replace m with (m * 2 ^ 0) at 1 by (cbn; lia).
  rewrite rne_multiple by lia. now rewrite Z.add_0_r.
Qed.

Lemma round_grid_mono (c N1 N2 : Z) :
  1074 <= c -> 0 <= N1 <= N2 -> round_grid c N1 <= round_grid c N2.
Proof.
  intros Hc [H1 H12].
  destruct (Z.eq_dec N1 0) as [->|Hnz].
  { rewrite round_grid_0 by lia. apply round_grid_nonneg; lia. }
  assert (Hp1 : 0 < N1) by lia. assert (Hp2 : 0 < N2) by lia.
  pose proof (Zdigits2_bounds N1 Hp1) as [L1 U1].
  pose proof (Zdigits2_bounds N2 Hp2) as [L2 U2].
  pose proof (Zdigits2_pos N1 Hp1). pose proof (Zdigits2_pos N2 Hp2).
  assert (Hd : Zdigits2 N1 <= Zdigits2 N2) by (apply Zdigits2_le; lia).
  unfold round_grid.
  set (K1 := Z.max (Zdigits2 N1 - 53) (c - 1074)).
  set (K2 := Z.max (Zdigits2 N2 - 53) (c - 1074)).
  assert (HK : K1 <= K2) by (unfold K1, K2; lia).
  assert (0 <= K1) by (unfold K1; lia).
  destruct (Z.eq_dec K1 K2) as [E|E].
  - rewrite <- E. apply Z.mul_le_mono_nonneg_r; [apply Z.pow_nonneg; lia|].
    apply rne_mono; lia.
  - (* the power of two between the two binades *)
    assert (HK2 : K2 = Zdigits2 N2 - 53) by (unfold K1, K2 in *; lia).
    assert (Hlt : Zdigits2 N1 < Zdigits2 N2) by (unfold K1, K2 in *; lia).
    set (P := 2 ^ (Zdigits2 N2 - 1)).
    assert (HP1 : N1 <= P).
    { unfold P. assert (2 ^ Zdigits2 N1 <= 2 ^ (Zdigits2 N2 - 1))
        by (apply Z.pow_le_mono_r; lia). lia. }
    assert (G1 : P = 2 ^ (Zdigits2 N2 - 1 - K1) * 2 ^ K1).
    { unfold P. rewrite <- Z.pow_add_r by (unfold K1 in *; lia). f_equal. lia. }
    assert (G2 : P = 2 ^ (Zdigits2 N2 - 1 - K2) * 2 ^ K2).
    { unfold P. rewrite <- Z.pow_add_r by lia. f_equal. lia. }
    apply Z.le_trans with P.
    + rewrite G1 at 1. apply Z.mul_le_mono_nonneg_r; [apply Z.pow_nonneg; lia|].
      apply rne_le_grid; lia.
    + rewrite G2 at 1. apply Z.mul_le_mono_nonneg_r; [apply Z.pow_nonneg; lia|].
      apply rne_ge_grid; [lia|]. rewrite <- G2. exact L2.
Qed.

Lemma round_model_value (sx : bool) (m e c : Z) :
  1074 <= c -> 0 < m -> 0 <= e + c ->
  match round_model sx m e with
  | S754_zero s => s = sx /\ round_grid c (m * 2 ^ (e + c)) = 0
  | S754_finite s p e2 =>
      s = sx /\ 0 <= e2 + c /\ e2 <= 971
      /\ Zpos p * 2 ^ (e2 + c) = round_grid c (m * 2 ^ (e + c))
  | S754_infinity s => s = sx
  | S754_nan => False
  end.
Proof.
  intros Hc Hm He. rewrite round_model_cases by assumption.
  rewrite (round_grid_scaled c m e) by assumption.
  set (k := Z.max 0 (fexp64 (Zdigits2 m + e) - e)).
  assert (Hk : 0 <= k) by (unfold k; lia).
  pose proof (rne_nonneg m k ltac:(lia) Hk) as H0.
  destruct (Z.eqb_spec (rne m k) 0) as [E0|E0].
  - rewrite E0. split; [reflexivity|lia].
  - destruct (Z.eqb_spec (rne m k) (2 ^ 53)) as [E1|E1].
    + destruct (Z.leb_spec (e + k + 1) 971); [|reflexivity].
      split; [reflexivity|]. split; [lia|]. split; [lia|].
      rewrite E1. change (Zpos (Z.to_pos (2 ^ 52))) with (2 ^ 52).
      rewrite <- !Z.pow_add_r by lia. f_equal. lia.
    + destruct (Z.leb_spec (e + k) 971); [|reflexivity].
      split; [reflexivity|]. split; [lia|]. split; [lia|].
      rewrite Z2Pos.id by lia. reflexivity.
Qed.

Lemma Zdigits2_ge (n k : Z) : 0 < n -> 2 ^ (k - 1) <= n -> k <= Zdigits2 n.
Proof.
  intros Hn Hk. pose proof (Zdigits2_bounds n Hn) as [_ Hhi].
  destruct (Z_lt_le_dec (Zdigits2 n) k); [|lia].
  assert (2 ^ Zdigits2 n <= 2 ^ (k - 1)) by (apply Z.pow_le_mono_r; lia). lia.
Qed.

Lemma bounded_spec (m : positive) (e : Z) :
  bounded prec emax m e = true <->
  fexp64 (Zpos (digits2_pos m) + e) = e /\ e <= 971.
Proof.
  unfold bounded, canonical_mantissa. change (fexp prec emax) with fexp64.
  change (emax - prec) with 971.
  rewrite andb_true_iff, Z.eqb_eq, Z.leb_le. reflexivity.
Qed.

(** a result of rounding is a valid binary64 number as soon as the
    mantissa has enough digits for its exponent *)
Lemma round_model_valid (sx : bool) (m e : Z) :
  0 < m -> e <= fexp64 (Zdigits2 m + e) ->
  valid_binary (round_model sx m e) = true.
Proof.
  intros Hm Hpre. rewrite round_model_cases by assumption.
  set (E := fexp64 (Zdigits2 m + e)) in *.
  replace (Z.max 0 (E - e)) with (E - e) by lia.
  replace (e + (E - e)) with E by lia.
  set (k := E - e). assert (Hk : 0 <= k) by (unfold k; lia).
  pose proof (rne_bounds m k) as Hb. pose proof (rne_nonneg m k ltac:(lia) Hk) as H0.
  pose proof (Zdigits2_bounds m Hm) as [Hlo Hhi].
  assert (Hp : 0 < 2 ^ k) by (apply Z.pow_pos_nonneg; lia).
  assert (HE : -1074 <= E) by (unfold E, fexp64; lia).
  assert (Hdk : Zdigits2 m <= 53 + k) by (unfold k, E, fexp64; lia).
  assert (Hq : m / 2 ^ k < 2 ^ 53).
  { apply Z.div_lt_upper_bound; [lia|]. rewrite <- Z.pow_add_r by lia.
    eapply Z.lt_le_trans; [exact Hhi|]. apply Z.pow_le_mono_r; lia. }
  destruct (Z.eqb_spec (rne m k) 0) as [E0|E0]; [reflexivity|].
  destruct (Z.eqb_spec (rne m k) (2 ^ 53)) as [E1|E1].
  - destruct (Z.leb_spec (E + 1) 971); [|reflexivity].
    cbn [valid_binary]. apply bounded_spec. split; [|lia].
    change (Zpos (digits2_pos (Z.to_pos (2 ^ 52)))) with 53. unfold fexp64. lia.
  - destruct (Z.leb_spec E 971); [|reflexivity].
    cbn [valid_binary]. apply bounded_spec. split; [|lia].
    change (Zpos (digits2_pos (Z.to_pos (rne m k)))) with (Zdigits2 (Zpos (Z.to_pos (rne m k)))).
    rewrite Z2Pos.id by lia.
    assert (Hd1 : Zdigits2 (rne m k) <= 53) by (apply Zdigits2_le; lia).
    destruct (Z.eq_dec E (-1074)) as [Em|Em]; [unfold fexp64; lia|].
    assert (Hkd : k = Zdigits2 m - 53) by (unfold k, E, fexp64 in *; lia).
    assert (53 <= Zdigits2 (rne m k)); [|unfold fexp64; lia].
    apply Zdigits2_ge; [lia|]. apply Z.le_trans with (m / 2 ^ k); [|lia].
    apply Z.div_le_lower_bound; [lia|]. rewrite Z.mul_comm, <- Z.pow_add_r by lia.
    replace (53 - 1 + k) with (Zdigits2 m - 1) by lia. exact Hlo.
Qed.

(** no overflow below [2 ^ 1024] *)
Lemma round_model_no_overflow (sx : bool) (m e c : Z) :
  1074 <= c -> 0 < m -> 0 <= e + c -> e <= fexp64 (Zdigits2 m + e) ->
  round_grid c (m * 2 ^ (e + c)) < 2 ^ (1024 + c) ->
  forall s, round_model sx m e <> S754_infinity s.
Proof.
  intros Hc Hm He Hpre Hlt s. rewrite round_model_cases by assumption.
  rewrite round_grid_scaled in Hlt by assumption.
  set (E := fexp64 (Zdigits2 m + e)) in *.
  replace (Z.max 0 (E - e)) with (E - e) in * by lia.
  replace (e + (E - e)) with E by lia.
  replace (e + (E - e) + c) with (E + c) in Hlt by lia.
  set (k := E - e) in *. assert (Hk : 0 <= k) by (unfold k; lia).
  pose proof (rne_bounds m k) as Hb. pose proof (rne_nonneg m k ltac:(lia) Hk) as H0.
  pose proof (Zdigits2_bounds m Hm) as [Hlo Hhi].
  assert (Hp : 0 < 2 ^ k) by (apply Z.pow_pos_nonneg; lia).
  assert (HE : -1074 <= E) by (unfold E, fexp64; lia).
  assert (Hpc : 0 < 2 ^ (E + c)) by (apply Z.pow_pos_nonneg; lia).
  destruct (Z.eqb_spec (rne m k) 0) as [E0|E0]; [discriminate|].
  destruct (Z.eqb_spec (rne m k) (2 ^ 53)) as [E1|E1].
  - destruct (Z.leb_spec (E + 1) 971); [discriminate|]. exfalso.
    rewrite E1, <- Z.pow_add_r in Hlt by lia.
    apply Z.pow_lt_mono_r_iff in Hlt; lia.
  - destruct (Z.leb_spec E 971); [discriminate|]. exfalso.
    assert (Hkd : k = Zdigits2 m - 53) by (unfold k, E, fexp64 in *; lia).
    assert (2 ^ 52 <= rne m k).
    { apply Z.le_trans with (m / 2 ^ k); [|lia].
      apply Z.div_le_lower_bound; [lia|]. rewrite Z.mul_comm, <- Z.pow_add_r by lia.
      replace (52 + k) with (Zdigits2 m - 1) by lia. exact Hlo. }
    assert (Hpow : 2 ^ (52 + (E + c)) < 2 ^ (1024 + c)).
    { rewrite Z.pow_add_r by lia. nia. }
    apply Z.pow_lt_mono_r_iff in Hpow; lia.
Qed.

(** ** Comparison *)

Lemma SFcompare_antisym (x y : spec_float) :
  SFcompare y x = option_map CompOpp (SFcompare x y).
Proof.
  destruct x as [sx|sx| |sx mx ex], y as [sy|sy| |sy my ey]; cbn;
    try reflexivity;
    try (destruct sx; reflexivity); try (destruct sy; reflexivity);
    try (destruct sx, sy; reflexivity).
  pose proof (Pos.compare_cont_antisym mx my Eq) as Hm. cbn in Hm.
  destruct sx, sy; try reflexivity; f_equal;
    rewrite (Z.compare_antisym ex ey);
    destruct (ex ?= ey); cbn; try reflexivity;
    rewrite <- Hm; now rewrite ?CompOpp_involutive.
Qed.

Lemma SFcompare_refl (x : spec_float) :
  x <> S754_nan -> SFcompare x x = Some Eq.
Proof.
  destruct x as [s|s| |s m e]; cbn; intros H; try congruence.
  - now destruct s.
  - rewrite Z.compare_refl.
    change (Pos.compare_cont Eq m m) with (Pos.compare m m).
    rewrite Pos.compare_refl. now destruct s.
Qed.

Lemma is_nan_spec (x : float) : is_nan x = true <-> Prim2SF x = S754_nan.
Proof.
  unfold is_nan. rewrite eqb_spec. unfold SFeqb.
  destruct (Prim2SF x) as [s|s| |s m e] eqn:E.
  - cbn. split; discriminate.
  - cbn. destruct s; split; discriminate.
  - cbn. split; reflexivity.
  - rewrite SFcompare_refl by discriminate. cbn. split; discriminate.
Qed.

Lemma is_nan_false (x : float) : is_nan x = false <-> Prim2SF x <> S754_nan.
Proof.
  rewrite <- is_nan_spec. destruct (is_nan x); split; congruence.
Qed.

Lemma SFcompare_nan (x y : spec_float) :
  x <> S754_nan -> y <> S754_nan -> SFcompare x y <> None.
Proof.
  destruct x as [sx|sx| |sx mx ex], y as [sy|sy| |sy my ey]; cbn; congruence.
Qed.

(** a total order away from NaN: [x <= y] fails exactly when [y < x] *)
Lemma leb_ltb (x y : float) :
  is_nan x = false -> is_nan y = false ->
  (x <=? y)%float = negb (y <? x)%float.
Proof.
  rewrite !is_nan_false. intros Hx Hy.
  rewrite leb_spec, ltb_spec. unfold SFleb, SFltb.
  rewrite (SFcompare_antisym (Prim2SF x) (Prim2SF y)).
  pose proof (SFcompare_nan _ _ Hx Hy) as Hc.
  destruct (SFcompare (Prim2SF x) (Prim2SF y)) as [[| |]|]; cbn; congruence.
Qed.

Lemma leb_not_nan (x y : float) :
  (x <=? y)%float = true -> is_nan x = false /\ is_nan y = false.
Proof.
  rewrite leb_spec, !is_nan_false. unfold SFleb.
  destruct (Prim2SF x) as [sx|sx| |sx mx ex], (Prim2SF y) as [sy|sy| |sy my ey];
    cbn; split; congruence.
Qed.

(** ** Non-negative finite numbers and their scaled values *)

Lemma valid_finite (x : float) (s : bool) (m : positive) (e : Z) :
  Prim2SF x = S754_finite s m e ->
  fexp64 (Zpos (digits2_pos m) + e) = e /\ e <= 971.
Proof.
  intros E. pose proof (Prim2SF_valid x) as Hv. rewrite E in Hv.
  now apply bounded_spec.
Qed.

Lemma canonical_bounds (m : positive) (e : Z) :
  fexp64 (Zpos (digits2_pos m) + e) = e ->
  -1074 <= e /\ Zpos m < 2 ^ 53 /\ (-1074 < e -> 2 ^ 52 <= Zpos m).
Proof.
  intros Hc. pose proof (digits2_pos_bounds m) as [Hlo Hhi].
  unfold fexp64 in Hc. split; [lia|]. split.
  - eapply Z.lt_le_trans; [exact Hhi|]. apply Z.pow_le_mono_r; lia.
  - intros He. replace (Zpos (digits2_pos m)) with 53 in Hlo by lia. exact Hlo.
Qed.

Lemma leb_0_nonneg (x : float) :
  (0 <=? x)%float = true ->
  SFnonneg (Prim2SF x) \/ Prim2SF x = S754_infinity false.
Proof.
  rewrite leb_spec. change (Prim2SF 0) with (S754_zero false). unfold SFleb.
  destruct (Prim2SF x) as [s|s| |s m e]; cbn; try discriminate.
  - now left.
  - destruct s; [discriminate|]. now right.
  - destruct s; [discriminate|]. now left.
Qed.

Lemma SFleb_scaled (x y : spec_float) :
  valid_binary x = true -> valid_binary y = true ->
  SFnonneg x -> SFnonneg y -> SFleb x y = true ->
  SFscaled 1074 x <= SFscaled 1074 y.
Proof.
  intros Vx Vy Nx Ny. unfold SFleb.
  destruct x as [sx|sx| |sx mx ex], y as [sy|sy| |sy my ey]; cbn in Nx, Ny;
    try contradiction; subst; cbn [SFscaled cond_Zopp SFcompare].
  - lia.
  - intros _. apply Z.mul_nonneg_nonneg; [lia|]. apply Z.pow_nonneg; lia.
  - discriminate.
  - apply bounded_spec in Vx, Vy. destruct Vx as [Cx _], Vy as [Cy _].
    pose proof (canonical_bounds _ _ Cx) as (Ex & Ux & Lx).
    pose proof (canonical_bounds _ _ Cy) as (Ey & Uy & Ly).
    destruct (Z.compare_spec ex ey) as [->|Hlt|Hgt].
    + change (Pos.compare_cont Eq mx my) with (Pos.compare mx my).
      destruct (Pos.compare_spec mx my) as [->|Hm|Hm]; try discriminate; intros _.
      * lia.
      * apply Z.mul_le_mono_nonneg_r; [apply Z.pow_nonneg; lia|lia].
    + intros _. specialize (Ly ltac:(lia)).
      apply Z.le_trans with (2 ^ 53 * 2 ^ (ex + 1074)).
      * apply Z.mul_le_mono_nonneg_r; [apply Z.pow_nonneg; lia|lia].
      * apply Z.le_trans with (2 ^ 52 * 2 ^ (ey + 1074)).
        -- rewrite <- !Z.pow_add_r by lia. apply Z.pow_le_mono_r; lia.
        -- apply Z.mul_le_mono_nonneg_r; [apply Z.pow_nonneg; lia|lia].
    + discriminate.
Qed.

Lemma SFscaled_nonneg (c : Z) (x : spec_float) :
  SFnonneg x -> 0 <= SFscaled c x.
Proof.
  destruct x as [s|s| |s m e]; cbn [SFnonneg SFscaled]; try lia. intros ->.
  cbn [cond_Zopp]. apply Z.mul_nonneg_nonneg; [lia|apply Z.pow_nonneg; lia].
Qed.

(** truncation of a finite number, on its scaled value *)
Lemma shiftl_scaled (m e c : Z) :
  0 <= c -> 0 <= e + c -> Z.shiftl m e = m * 2 ^ (e + c) / 2 ^ c.
Proof.
  intros Hc He. assert (0 < 2 ^ c) by (apply Z.pow_pos_nonneg; lia).
  destruct (Z_le_gt_dec 0 e) as [H0|H0].
  - rewrite Z.shiftl_mul_pow2 by lia. rewrite Z.pow_add_r by lia.
    rewrite Z.mul_assoc, Z.div_mul by lia. reflexivity.
  - rewrite Z.shiftl_div_pow2 by lia.
    replace (2 ^ c) with (2 ^ (- e) * 2 ^ (e + c))
      by (rewrite <- Z.pow_add_r by lia; f_equal; lia).
    rewrite Z.div_mul_cancel_r; [reflexivity| |]; apply Z.pow_nonzero; lia.
Qed.

(** ** Multiplication of non-negative numbers *)

Lemma product_has_digits (mx my : positive) (ex ey : Z) :
  fexp64 (Zpos (digits2_pos mx) + ex) = ex ->
  fexp64 (Zpos (digits2_pos my) + ey) = ey ->
  ex + ey <= fexp64 (Zdigits2 (Zpos (mx * my)) + (ex + ey)).
Proof.
  intros Cx Cy.
  pose proof (digits2_pos_bounds mx) as [Lx _].
  pose proof (digits2_pos_bounds my) as [Ly _].
  set (dx := Zpos (digits2_pos mx)) in *. set (dy := Zpos (digits2_pos my)) in *.
  assert (Hd : dx + dy - 1 <= Zdigits2 (Zpos (mx * my))).
  { apply Zdigits2_ge; [lia|]. rewrite Pos2Z.inj_mul.
    replace (dx + dy - 1 - 1) with ((dx - 1) + (dy - 1)) by lia.
    rewrite Z.pow_add_r by (unfold dx, dy; lia).
    apply Z.mul_le_mono_nonneg; try lia; apply Z.pow_nonneg; lia. }
  assert (0 < dx /\ 0 < dy) by (unfold dx, dy; lia).
  unfold fexp64 in *. lia.
Qed.

Lemma mul_finite_model (x y : float) (sx sy : bool) (mx my : positive) (ex ey : Z) :
  Prim2SF x = S754_finite sx mx ex -> Prim2SF y = S754_finite sy my ey ->
  Prim2SF (x * y) = round_model (xorb sx sy) (Zpos (mx * my)) (ex + ey).
Proof.
  intros Ex Ey. rewrite mul_spec, Ex, Ey. unfold SF64mul. cbn [SFmul].
  apply binary_round_aux_model. lia.
Qed.

(** The product of two non-negative finite numbers, the second at most
    one, is again non-negative and finite, and its value is the rounded
    exact product. *)
Lemma mul_nonneg_value (x y : float) :
  SFnonneg (Prim2SF x) -> SFnonneg (Prim2SF y) ->
  SFscaled 1074 (Prim2SF y) <= 2 ^ 1074 ->
  SFnonneg (Prim2SF (x * y))
  /\ SFscaled 2148 (Prim2SF (x * y))
     = round_grid 2148 (SFscaled 1074 (Prim2SF x) * SFscaled 1074 (Prim2SF y)).
Proof.
  intros Nx Ny Hy1.
  destruct (Prim2SF x) as [sx|sx| |sx mx ex] eqn:Ex; cbn in Nx; try contradiction;
    destruct (Prim2SF y) as [sy|sy| |sy my ey] eqn:Ey; cbn in Ny; try contradiction.
  1-3: rewrite mul_spec, Ex, Ey; cbn [SF64mul SFmul SFnonneg SFscaled];
       rewrite ?Z.mul_0_l, ?Z.mul_0_r, round_grid_0 by lia; auto.
  subst sx sy. rewrite (mul_finite_model x y _ _ _ _ _ _ Ex Ey).
  destruct (valid_finite x _ _ _ Ex) as [Cx Bx].
  destruct (valid_finite y _ _ _ Ey) as [Cy By].
  pose proof (canonical_bounds _ _ Cx) as (Lx & Ux & _).
  pose proof (canonical_bounds _ _ Cy) as (Ly & Uy & _).
  cbn [SFscaled cond_Zopp xorb] in *.
  set (N := Zpos mx * 2 ^ (ex + 1074) * (Zpos my * 2 ^ (ey + 1074))).
  assert (HN : N = Zpos (mx * my) * 2 ^ (ex + ey + 2148)).
  { unfold N. rewrite Pos2Z.inj_mul.
    replace (ex + ey + 2148) with ((ex + 1074) + (ey + 1074)) by lia.
    rewrite (Z.pow_add_r 2 (ex + 1074) (ey + 1074)) by lia. ring. }
  pose proof (product_has_digits _ _ _ _ Cx Cy) as Hpre.
  assert (Hbound : round_grid 2148 N < 2 ^ (1024 + 2148)).
  { apply Z.le_lt_trans with (Zpos mx * 2 ^ (ex + 2148)).
    - rewrite <- (round_grid_exact 2148 (Zpos mx) ex) by (unfold Zdigits2; lia).
      apply round_grid_mono; [lia|]. split.
      + unfold N. apply Z.mul_nonneg_nonneg;
          (apply Z.mul_nonneg_nonneg; [lia|apply Z.pow_nonneg; lia]).
      + unfold N.
        replace (Zpos mx * 2 ^ (ex + 2148)) with (Zpos mx * 2 ^ (ex + 1074) * 2 ^ 1074)
          by (rewrite <- Z.mul_assoc, <- Z.pow_add_r by lia; do 2 f_equal; lia).
        apply Z.mul_le_mono_nonneg_l; [|exact Hy1].
        apply Z.mul_nonneg_nonneg; [lia|apply Z.pow_nonneg; lia].
    - apply Z.lt_le_trans with (2 ^ 53 * 2 ^ (ex + 2148)).
      + apply Z.mul_lt_mono_pos_r; [apply Z.pow_pos_nonneg; lia|lia].
      + rewrite <- Z.pow_add_r by lia. apply Z.pow_le_mono_r; lia. }
  rewrite HN in Hbound |- *.
  pose proof (round_model_value false (Zpos (mx * my)) (ex + ey) 2148
                ltac:(lia) ltac:(lia) ltac:(lia)) as Hv.
  pose proof (round_model_no_overflow false (Zpos (mx * my)) (ex + ey) 2148
                ltac:(lia) ltac:(lia) ltac:(lia) Hpre Hbound) as Hno.
  destruct (round_model false (Zpos (mx * my)) (ex + ey)) as [s|s| |s p e2].
  - destruct Hv as [-> Hv]. cbn [SFnonneg SFscaled]. split; [exact I|]. now rewrite Hv.
  - now elim (Hno s).
  - contradiction.
  - destruct Hv as (-> & _ & _ & Hv). cbn [SFnonneg SFscaled cond_Zopp].
    split; [reflexivity|exact Hv].
Qed.

(** [int] of a non-negative number is its scaled value, divided. *)
Lemma int_nonneg (c : Z) (z : float) :
  1074 <= c -> SFnonneg (Prim2SF z) ->
  Py.int z = Ok (SFscaled c (Prim2SF z) / 2 ^ c).
Proof.
  intros Hc Nz. unfold Py.int.
  destruct (Prim2SF z) as [s|s| |s m e] eqn:Ez; cbn in Nz; try contradiction.
  - cbn [SFscaled]. now rewrite Z.div_0_l by (apply Z.pow_nonzero; lia).
  - subst s. destruct (valid_finite z _ _ _ Ez) as [Cz _].
    pose proof (canonical_bounds _ _ Cz) as (Lz & _).
    cbn [SFscaled cond_Zopp]. now rewrite (shiftl_scaled _ _ c) by lia.
Qed.

(** ** Conversion from int *)

Lemma shl_align_spec (mx : positive) (ex ex' : Z) :
  snd (shl_align mx ex ex') = Z.min ex ex'
  /\ Zpos (fst (shl_align mx ex ex')) = Zpos mx * 2 ^ (ex - Z.min ex ex').
Proof.
  unfold shl_align. destruct (ex' - ex) as [|d|d] eqn:E; cbn [fst snd].
  - replace (Z.min ex ex') with ex by lia. rewrite Z.sub_diag. cbn. lia.
  - replace (Z.min ex ex') with ex by lia. rewrite Z.sub_diag. cbn. lia.
  - replace (Z.min ex ex') with ex' by lia. split; [reflexivity|].
    replace (ex - ex') with (Zpos d) by lia.
    change (Pos.iter xO mx d) with (shift_pos d mx).
    rewrite shift_pos_correct. change (Zpower_pos 2 d) with (2 ^ Zpos d). lia.
Qed.

Lemma float_of_int_cases (d : Z) :
  0 <= d ->
  (float_of_int d = Raise OverflowError /\ 2 ^ 1023 <= d)
  \/ (exists fd, float_of_int d = Ok fd /\ SFnonneg (Prim2SF fd)
        /\ SFscaled 1074 (Prim2SF fd) = round_grid 1074 (d * 2 ^ 1074)).
Proof.
  intros H0. destruct d as [|p|p]; [| |lia].
  { right. exists 0%float. split; [reflexivity|]. split; [exact I|].
    rewrite Z.mul_0_l, round_grid_0 by lia. reflexivity. }
  unfold float_of_int. cbn [binary_normalize]. unfold binary_round.
  pose proof (shl_align_spec p 0 (fexp prec emax (Zpos (digits2_pos p) + 0))) as [Hez Hmz].
  destruct (shl_align p 0 (fexp prec emax (Zpos (digits2_pos p) + 0))) as [mz ez].
  cbn [fst snd] in Hez, Hmz. change (fexp prec emax) with fexp64 in Hez, Hmz.
  rewrite Z.add_0_r in Hez, Hmz. rewrite <- Hez in Hmz.
  rewrite binary_round_aux_model by lia.
  pose proof (digits2_pos_bounds p) as [Lp Up].
  assert (Hez' : -1074 <= ez <= 0) by (unfold fexp64 in Hez; lia).
  assert (Hdz : Zdigits2 (Zpos mz) + ez = Zpos (digits2_pos p)).
  { rewrite Hmz, Zdigits2_mul_pow2 by lia. cbn [Zdigits2]. lia. }
  assert (Hpre : ez <= fexp64 (Zdigits2 (Zpos mz) + ez)) by (rewrite Hdz; lia).
  assert (HN : Zpos mz * 2 ^ (ez + 1074) = Zpos p * 2 ^ 1074).
  { rewrite Hmz, <- Z.mul_assoc, <- Z.pow_add_r by lia. do 2 f_equal. lia. }
  pose proof (round_model_valid false (Zpos mz) ez ltac:(lia) Hpre) as Hvalid.
  pose proof (round_model_value false (Zpos mz) ez 1074
                ltac:(lia) ltac:(lia) ltac:(lia)) as Hv.
  rewrite HN in Hv.
  destruct (round_model false (Zpos mz) ez) as [s|s| |s q e2] eqn:Er.
  - right. eexists; split; [reflexivity|]. rewrite Prim2SF_SF2Prim by exact Hvalid.
    destruct Hv as [_ Hv]. cbn [SFnonneg SFscaled]. rewrite Hv.
    split; [exact I|reflexivity].
  - left. split; [reflexivity|].
    destruct (Z_lt_le_dec (Zpos p) (2 ^ 1023)) as [Hlt|Hge]; [exfalso|exact Hge].
    assert (Hbound : round_grid 1074 (Zpos mz * 2 ^ (ez + 1074)) < 2 ^ (1024 + 1074)).
    { apply Z.le_lt_trans with (1 * 2 ^ (1023 + 1074)); [|cbn; lia].
      rewrite <- (round_grid_exact 1074 1 1023) by (cbn; lia).
      apply round_grid_mono; [lia|]. rewrite HN. split; [lia|].
      rewrite Z.mul_1_l, Z.pow_add_r by lia.
      apply Z.mul_le_mono_nonneg_r; [apply Z.pow_nonneg|]; lia. }
    apply (round_model_no_overflow false (Zpos mz) ez 1074
             ltac:(lia) ltac:(lia) ltac:(lia) Hpre Hbound s). exact Er.
  - contradiction.
  - right. eexists; split; [reflexivity|]. rewrite Prim2SF_SF2Prim by exact Hvalid.
    destruct Hv as (-> & _ & _ & Hv). cbn [SFnonneg SFscaled cond_Zopp].
    split; [reflexivity|exact Hv].
Qed.

Lemma float_of_int_nonneg (d : Z) :
  0 <= d < 2 ^ 1023 ->
  exists fd, float_of_int d = Ok fd /\ SFnonneg (Prim2SF fd)
    /\ SFscaled 1074 (Prim2SF fd) = round_grid 1074 (d * 2 ^ 1074).
Proof.
  intros [H0 Hlt]. destruct (float_of_int_cases d H0) as [[_ Hge]|H]; [lia|exact H].
Qed.

(** ** Frames of time fractions in the unit interval *)

Lemma unit_interval_scaled (t : float) :
  (0 <=? t)%float = true -> (t <=? 1)%float = true ->
  SFnonneg (Prim2SF t) /\ SFscaled 1074 (Prim2SF t) <= 2 ^ 1074.
Proof.
  intros H0 H1. destruct (leb_0_nonneg t H0) as [Hn|Hinf].
  - split; [exact Hn|].
    replace (2 ^ 1074) with (SFscaled 1074 (Prim2SF 1)) by (vm_compute; reflexivity).
    apply SFleb_scaled; try apply Prim2SF_valid; auto.
    + vm_compute. reflexivity.
    + now rewrite <- leb_spec.
  - rewrite leb_spec, Hinf in H1. discriminate H1.
Qed.

(** The frame of a time fraction, in closed form. *)
Lemma frame_at_value (start_frame d : Z) (t : float) :
  0 <= d < 2 ^ 1023 ->
  (0 <=? t)%float = true -> (t <=? 1)%float = true ->
  exists fd, float_of_int d = Ok fd /\ SFnonneg (Prim2SF fd)
    /\ frame_at start_frame d t
       = Ok (start_frame
             + round_grid 2148 (SFscaled 1074 (Prim2SF fd) * SFscaled 1074 (Prim2SF t))
               / 2 ^ 2148).
Proof.
  intros Hd H0 H1. destruct (float_of_int_nonneg d Hd) as (fd & Hfd & Nd & _).
  destruct (unit_interval_scaled t H0 H1) as [Nt Ht].
  exists fd. split; [exact Hfd|]. split; [exact Nd|].
  destruct (mul_nonneg_value fd t Nd Nt Ht) as [Np Hp].
  unfold frame_at, int_mul_float. rewrite Hfd. cbn [Py.bind].
  rewrite (int_nonneg 2148) by (auto; lia). cbn [Py.bind]. now rewrite Hp.
Qed.

(** ** The keyframe loop *)

Section KeyframeLoop.

Context {V : Type} (insert : Z -> V -> list keyframe) (start_frame d : Z).

Lemma for_keyframes_frames (kfs : list (float * V)) (fs : list Z) :
  Forall2 (fun kv f => frame_at start_frame d (fst kv) = Ok f) kfs fs ->
  for_keyframes insert start_frame d kfs = Ok (insert_all insert fs (map snd kfs)).
Proof.
  induction 1 as [|[t v] f kfs fs Hf _ IH]; [reflexivity|].
  cbn [for_keyframes fst] in *. rewrite Hf. cbn [Py.bind]. rewrite IH. reflexivity.
Qed.

Lemma frames_exist (kfs : list (float * V)) :
  0 <= d < 2 ^ 1023 ->
  Forall (fun kv => in_unit_interval (fst kv)) kfs ->
  exists fs, Forall2 (fun kv f => frame_at start_frame d (fst kv) = Ok f) kfs fs.
Proof.
  intros Hd. induction 1 as [|[t v] kfs [H0 H1] _ [fs IH]].
  - exists []. constructor.
  - destruct (frame_at_value start_frame d t Hd H0 H1) as (fd & _ & _ & E).
    eexists (_ :: fs). constructor; [exact E|exact IH].
Qed.

Lemma block_lower (lo f : Z) (ks : list keyframe) :
  lo <= f -> Forall (fun k => kf_frame k = f) ks ->
  Forall (Z.le lo) (map kf_frame ks).
Proof.
  intros Hlo. induction 1 as [|k ks Hk _ IH]; constructor; [lia|exact IH].
Qed.

Lemma block_sorted (f : Z) (ks : list keyframe) (rest : list Z) :
  Forall (fun k => kf_frame k = f) ks ->
  StronglySorted Z.le rest -> Forall (Z.le f) rest ->
  StronglySorted Z.le (map kf_frame ks ++ rest).
Proof.
  intros Hks Hs Hlo. induction Hks as [|k ks Hk Hks IH]; [exact Hs|].
  cbn [map app]. constructor; [exact IH|].
  rewrite Hk. apply Forall_app. split; [|exact Hlo].
  apply (block_lower f f ks); [lia|exact Hks].
Qed.

Lemma insert_all_sorted (fs : list Z) (vs : list V) :
  (forall frame v, Forall (fun k => kf_frame k = frame) (insert frame v)) ->
  StronglySorted Z.le fs ->
  StronglySorted Z.le (map kf_frame (insert_all insert fs vs))
  /\ forall lo, Forall (Z.le lo) fs ->
       Forall (Z.le lo) (map kf_frame (insert_all insert fs vs)).
Proof.
  intros Hins Hs. revert vs.
  induction Hs as [|f fs Hs IH Hall]; intros vs.
  - split; [constructor|]. intros lo _. constructor.
  - destruct vs as [|v vs]; [split; [constructor|intros; constructor]|].
    unfold insert_all. cbn [combine flat_map fst snd].
    fold (insert_all insert fs vs). rewrite map_app.
    destruct (IH vs) as [IHs IHlo].
    split.
    + apply (block_sorted f); [apply Hins|exact IHs|exact (IHlo f Hall)].
    + intros lo Hlo. inversion Hlo as [|? ? Hlof Hlofs]; subst.
      apply Forall_app. split.
      * apply (block_lower lo f); [exact Hlof|apply Hins].
      * apply IHlo, Hlofs.
Qed.

End KeyframeLoop.

(** ** NaN is never produced from numbers *)

Lemma round_model_not_nan (sx : bool) (m e : Z) :
  0 < m -> round_model sx m e <> S754_nan.
Proof.
  intros Hm. rewrite round_model_cases by assumption.
  repeat match goal with |- context [if ?b then _ else _] => destruct b end;
    discriminate.
Qed.

Lemma binary_normalize_not_nan (m e : Z) (szero : bool) :
  binary_normalize prec emax m e szero <> S754_nan.
Proof.
  destruct m as [|p|p]; cbn [binary_normalize]; [discriminate| |];
    unfold binary_round;
    destruct (shl_align p e (fexp prec emax (Zpos (digits2_pos p) + e))) as [mz ez];
    rewrite binary_round_aux_model by lia; apply round_model_not_nan; lia.
Qed.

Lemma mul_not_nan (a x : float) (sa : bool) (ma : positive) (ea : Z) :
  Prim2SF a = S754_finite sa ma ea -> is_nan x = false ->
  is_nan (a * x) = false.
Proof.
  rewrite !is_nan_false. intros Ea Hx. rewrite mul_spec, Ea. unfold SF64mul.
  destruct (Prim2SF x) as [s|s| |s m e]; cbn [SFmul]; try discriminate;
    [congruence|].
  rewrite binary_round_aux_model by lia. apply round_model_not_nan. lia.
Qed.

Lemma add_not_nan (x y : float) :
  SFnonneg (Prim2SF x) -> is_nan y = false -> is_nan (x + y) = false.
Proof.
  rewrite !is_nan_false. intros Nx Hy. rewrite add_spec. unfold SF64add.
  destruct (Prim2SF x) as [sx|sx| |sx mx ex]; cbn in Nx; try contradiction;
    destruct (Prim2SF y) as [sy|sy| |sy my ey]; cbn [SFadd]; try discriminate;
    try congruence.
  - destruct sx, sy; discriminate.
  - apply binary_normalize_not_nan.
Qed.

(** ** Clamping *)

Lemma clamp01_in_unit_interval (x : float) :
  is_nan x = false -> in_unit_interval (Spec.clamp01 x).
Proof.
  intros Hx. unfold Spec.clamp01, Py.max, Py.min, in_unit_interval.
  destruct (x <? 0)%float eqn:E0.
  - change (1 <? 0)%float with false. cbn iota. split; reflexivity.
  - destruct (1 <? x)%float eqn:E1.
    + split; reflexivity.
    + rewrite !leb_ltb, E0, E1 by (auto; reflexivity). split; reflexivity.
Qed.

(** ** Sums of non-negative numbers *)

Lemma round_model_sign (sx : bool) (m e : Z) :
  0 < m ->
  match round_model sx m e with
  | S754_zero s | S754_infinity s | S754_finite s _ _ => s = sx
  | S754_nan => False
  end.
Proof.
  intros Hm. rewrite round_model_cases by assumption.
  repeat match goal with |- context [if ?b then _ else _] => destruct b end;
    reflexivity.
Qed.

Lemma add_nonneg (x y : float) :
  SFnonneg (Prim2SF x) -> SFnonneg (Prim2SF y) -> (0 <=? x + y)%float = true.
Proof.
  intros Nx Ny. rewrite leb_spec, add_spec. unfold SF64add.
  change (Prim2SF 0) with (S754_zero false).
  destruct (Prim2SF x) as [sx|sx| |sx mx ex]; cbn in Nx; try contradiction;
    destruct (Prim2SF y) as [sy|sy| |sy my ey]; cbn in Ny; try contradiction;
    subst; cbn [SFadd].
  - destruct sx, sy; reflexivity.
  - reflexivity.
  - reflexivity.
  - cbn [cond_Zopp]. rewrite <- Pos2Z.inj_add. cbn [binary_normalize].
    unfold binary_round.
    destruct (shl_align _ _ _) as [mz ez].
    rewrite binary_round_aux_model by lia.
    pose proof (round_model_sign false (Zpos mz) ez ltac:(lia)) as Hs.
    destruct (round_model false (Zpos mz) ez); try contradiction; subst; reflexivity.
Qed.

(** ** The staggered loop *)

Section StaggerLoop.

Context {V : Type} (insert : Z -> V -> list keyframe) (start_frame d : Z).

(** The guard [adjusted_time <= 1.0] read as a filter. *)
Lemma stagger_keyframes_filter (delay_pct : float) (kfs : list (float * V)) :
  stagger_keyframes insert start_frame d delay_pct kfs
  = for_keyframes insert start_frame d
      (filter (fun kv => (fst kv <=? 1.0)%float)
         (map (fun kv => ((fst kv + delay_pct)%float, snd kv)) kfs)).
Proof.
  induction kfs as [|[t v] kfs IH]; [reflexivity|].
  cbn [stagger_keyframes map filter fst snd].
  destruct (t + delay_pct <=? 1.0)%float.
  - cbn [for_keyframes]. now rewrite IH.
  - exact IH.
Qed.

(** Away from NaN, failing the guard is exceeding 1.0. *)
Lemma guard_is_shift_drop (delay_pct : float) (kfs : list (float * V)) :
  Forall (fun kv => is_nan (fst kv + delay_pct) = false) kfs ->
  filter (fun kv => (fst kv <=? 1.0)%float)
    (map (fun kv => ((fst kv + delay_pct)%float, snd kv)) kfs)
  = Spec.shift_drop delay_pct kfs.
Proof.
  unfold Spec.shift_drop. induction 1 as [|[t v] kfs Hn _ IH]; [reflexivity|].
  cbn [map filter fst snd] in *. rewrite leb_ltb by (auto; reflexivity).
  now rewrite IH.
Qed.

Lemma shift_drop_in_unit_interval (delay_pct : float) (kfs : list (float * V)) :
  SFnonneg (Prim2SF delay_pct) ->
  Forall (fun kv => in_unit_interval (fst kv)) kfs ->
  Forall (fun kv => is_nan (fst kv + delay_pct) = false) kfs
  /\ Forall (fun kv => in_unit_interval (fst kv)) (Spec.shift_drop delay_pct kfs).
Proof.
  intros Nd. unfold Spec.shift_drop.
  induction 1 as [|[t v] kfs [H0 H1] _ [IHn IHu]]; [split; constructor|].
  cbn [map filter fst snd] in *.
  destruct (unit_interval_scaled t H0 H1) as [Nt _].
  pose proof (add_nonneg t delay_pct Nt Nd) as Hsum.
  destruct (leb_not_nan _ _ Hsum) as [_ Hnn].
  split; [constructor; assumption|].
  destruct (1.0 <? t + delay_pct)%float eqn:E; cbn [negb]; [exact IHu|].
  constructor; [|exact IHu]. cbn [fst]. split; [exact Hsum|].
  rewrite leb_ltb by (auto; reflexivity). now rewrite E.
Qed.

(** One copy: shift by the delay, drop what exceeds 1.0, compile the rest. *)
Lemma stagger_keyframes_ok (delay_pct : float) (kfs : list (float * V)) :
  0 <= d < 2 ^ 1023 ->
  SFnonneg (Prim2SF delay_pct) ->
  Forall (fun kv => in_unit_interval (fst kv)) kfs ->
  exists ks,
    stagger_keyframes insert start_frame d delay_pct kfs = Ok ks
    /\ for_keyframes insert start_frame d (Spec.shift_drop delay_pct kfs) = Ok ks.
Proof.
  intros Hd Nd Hu.
  destruct (shift_drop_in_unit_interval delay_pct kfs Nd Hu) as [Hn Hk].
  rewrite stagger_keyframes_filter, guard_is_shift_drop by exact Hn.
  destruct (frames_exist start_frame d _ Hd Hk) as [fs Hfs].
  rewrite (for_keyframes_frames insert start_frame d _ fs Hfs).
  eexists; split; reflexivity.
Qed.

End StaggerLoop.

Lemma delay_pct_nonneg (i : Z) (delay : float) :
  0 <= i < 2 ^ 1023 -> in_unit_interval delay ->
  exists delay_pct,
    int_mul_float i delay = Ok delay_pct /\ SFnonneg (Prim2SF delay_pct).
Proof.
  intros Hi [H0 H1]. destruct (float_of_int_nonneg i Hi) as (fi & Hfi & Ni & _).
  destruct (unit_interval_scaled delay H0 H1) as [Nd Hd1].
  unfold int_mul_float. rewrite Hfi. cbn [Py.bind]. eexists; split; [reflexivity|].
  now apply mul_nonneg_value.
Qed.

(** ** A zero delay *)

(** [x * n] and [n * x] are the same float. *)
Lemma mul_comm_float (x y : float) : (x * y = y * x)%float.
Proof.
  apply Prim2SF_inj. rewrite !mul_spec. unfold SF64mul.
  destruct (Prim2SF x) as [sx|sx| |sx mx ex], (Prim2SF y) as [sy|sy| |sy my ey];
    cbn [SFmul]; rewrite ?(xorb_comm sx sy); try reflexivity.
  now rewrite (Pos.mul_comm mx my), (Z.add_comm ex ey).
Qed.

Lemma add_zero (t z : float) (sz : bool) :
  Prim2SF z = S754_zero sz ->
  (exists s, Prim2SF t = S754_zero s /\ exists s', Prim2SF (t + z) = S754_zero s')
  \/ (t + z)%float = t.
Proof.
  intros Ez. destruct (Prim2SF t) as [st|st| |st mt et] eqn:Et.
  - left. exists st. split; [reflexivity|]. rewrite add_spec, Et, Ez.
    unfold SF64add. cbn [SFadd]. destruct st, sz; eexists; reflexivity.
  - right. apply Prim2SF_inj. rewrite add_spec, Et, Ez. reflexivity.
  - right. apply Prim2SF_inj. rewrite add_spec, Et, Ez. reflexivity.
  - right. apply Prim2SF_inj. rewrite add_spec, Et, Ez. reflexivity.
Qed.

Lemma leb_zero_one (t : float) (s : bool) :
  Prim2SF t = S754_zero s -> (t <=? 1)%float = true.
Proof. intros Et. rewrite leb_spec, Et. reflexivity. Qed.

Lemma int_mul_zero (x t1 t2 : float) (s1 s2 : bool) :
  Prim2SF t1 = S754_zero s1 -> Prim2SF t2 = S754_zero s2 ->
  Py.int (x * t1) = Py.int (x * t2).
Proof.
  intros E1 E2. unfold Py.int. rewrite !mul_spec, E1, E2. unfold SF64mul.
  destruct (Prim2SF x) as [sx|sx| |sx mx ex]; reflexivity.
Qed.

Lemma frame_at_zero (start_frame d : Z) (t1 t2 : float) (s1 s2 : bool) :
  Prim2SF t1 = S754_zero s1 -> Prim2SF t2 = S754_zero s2 ->
  frame_at start_frame d t1 = frame_at start_frame d t2.
Proof.
  intros E1 E2. unfold frame_at, int_mul_float.
  destruct (float_of_int d) as [fd|err]; [|reflexivity]. cbn [Py.bind].
  now rewrite (int_mul_zero fd t1 t2 s1 s2).
Qed.

Lemma stagger_keyframes_zero_delay {V : Type} (insert : Z -> V -> list keyframe)
    (start_frame d : Z) (z : float) (sz : bool) (kfs : list (float * V)) :
  Prim2SF z = S754_zero sz ->
  Forall (fun kv => (fst kv <=? 1)%float = true) kfs ->
  stagger_keyframes insert start_frame d z kfs
  = for_keyframes insert start_frame d kfs.
Proof.
  intros Ez. induction 1 as [|[t v] kfs H1 _ IH]; [reflexivity|].
  cbn [stagger_keyframes for_keyframes fst] in *.
  destruct (add_zero t z sz Ez) as [(s & Et & s' & Es)|Eq].
  - rewrite (leb_zero_one _ _ Es), (frame_at_zero start_frame d _ t _ _ Es Et).
    now rewrite IH.
  - rewrite Eq, H1. now rewrite IH.
Qed.

Lemma zero_delay_pct (delay : float) :
  in_unit_interval delay ->
  exists z sz, int_mul_float 0 delay = Ok z /\ Prim2SF z = S754_zero sz.
Proof.
  intros [H0 H1]. destruct (unit_interval_scaled delay H0 H1) as [Nd _].
  exists (0 * delay)%float. unfold int_mul_float.
  change (float_of_int 0) with (Ok 0%float). cbn [Py.bind].
  rewrite mul_spec. change (Prim2SF 0) with (S754_zero false). unfold SF64mul.
  destruct (Prim2SF delay) as [s|s| |s m e]; cbn in Nd; try contradiction;
    eexists; split; reflexivity.
Qed.

(** ** Rounding from any location: sign and size of the result *)

Lemma shr_m_iter (mrs : shr_record) (n : nat) :
  0 <= shr_m mrs ->
  shr_m (Nat.iter n shr_1 mrs) = shr_m mrs / 2 ^ Z.of_nat n.
Proof.
  intros Hm. induction n as [|n IH].
  - cbn. now rewrite Z.div_1_r.
  - rewrite Nat.iter_succ.
    assert (Hp : 0 < 2 ^ Z.of_nat n) by (apply Z.pow_pos_nonneg; lia).
    rewrite shr_1_nonneg by (rewrite IH; apply Z.div_pos; lia).
    cbn [shr_m]. rewrite IH, Z.div_div by lia.
    rewrite Nat2Z.inj_succ, Z.pow_succ_r by lia. f_equal. lia.
Qed.

Lemma shr_any (mrs : shr_record) (e n : Z) :
  0 <= shr_m mrs ->
  snd (shr mrs e n) = e + Z.max 0 n
  /\ shr_m (fst (shr mrs e n)) = shr_m mrs / 2 ^ Z.max 0 n.
Proof.
  intros Hm. destruct n as [|p|p]; cbn [shr fst snd].
  - rewrite Z.add_0_r. cbn. now rewrite Z.div_1_r.
  - rewrite iter_pos_nat, shr_m_iter by assumption.
    replace (Z.max 0 (Zpos p)) with (Zpos p) by lia.
    now rewrite positive_nat_Z.
  - rewrite Z.add_0_r. cbn. now rewrite Z.div_1_r.
Qed.

Lemma shr_record_of_loc_m (m : Z) (l : SpecFloat.location) :
  shr_m (shr_record_of_loc m l) = m.
Proof. destruct l as [|[| |]]; reflexivity. Qed.

Lemma round_nearest_even_bounds (m : Z) (l : SpecFloat.location) :
  m <= round_nearest_even m l <= m + 1.
Proof.
  destruct l as [|[| |]]; cbn [round_nearest_even]; try lia.
  destruct (Z.even m); lia.
Qed.

(** Whatever the location, rounding a non-negative mantissa gives a zero,
    an infinity or a finite number of the requested sign, whose exponent
    is at most one above the exponent the format assigns to the input. *)
Lemma binary_round_aux_bound (sx : bool) (m e : Z) (l : SpecFloat.location) :
  0 <= m ->
  match binary_round_aux prec emax sx m e l with
  | S754_zero s => s = sx
  | S754_finite s p e2 =>
      s = sx /\ e2 <= Z.max e (fexp64 (Zdigits2 m + e)) + 1 /\ Zpos p <= 2 ^ 53
  | S754_infinity s => s = sx /\ 971 < Z.max e (fexp64 (Zdigits2 m + e)) + 1
  | S754_nan => False
  end.
Proof.
  intros Hm. unfold binary_round_aux, shr_fexp. change (fexp prec emax) with fexp64.
  set (n := fexp64 (Zdigits2 m + e) - e).
  pose proof (shr_any (shr_record_of_loc m l) e n
                ltac:(rewrite shr_record_of_loc_m; exact Hm)) as [He1 Hq].
  rewrite shr_record_of_loc_m in Hq.
  destruct (shr (shr_record_of_loc m l) e n) as [mrs' e1]. cbn [fst snd] in He1, Hq.
  set (m1 := round_nearest_even (shr_m mrs') (loc_of_shr_record mrs')).
  pose proof (round_nearest_even_bounds (shr_m mrs') (loc_of_shr_record mrs')) as Hb.
  fold m1 in Hb. rewrite Hq in Hb.
  assert (Hn : 0 <= Z.max 0 n) by lia.
  assert (Hp : 0 < 2 ^ Z.max 0 n) by (apply Z.pow_pos_nonneg; lia).
  assert (Hq0 : 0 <= m / 2 ^ Z.max 0 n) by (apply Z.div_pos; lia).
  assert (Hq53 : m / 2 ^ Z.max 0 n < 2 ^ 53).
  { destruct (Z.eq_dec m 0) as [->|Hnz]; [rewrite Z.div_0_l by lia; lia|].
    pose proof (Zdigits2_bounds m ltac:(lia)) as [_ Hhi].
    apply Z.div_lt_upper_bound; [lia|]. rewrite <- Z.pow_add_r by lia.
    eapply Z.lt_le_trans; [exact Hhi|]. apply Z.pow_le_mono_r; [lia|].
    unfold n, fexp64. lia. }
  assert (HE : e1 = Z.max e (fexp64 (Zdigits2 m + e))) by (unfold n in *; lia).
  assert (HE' : -1074 <= e1) by (rewrite HE; unfold fexp64; lia).
  set (n1 := fexp64 (Zdigits2 m1 + e1) - e1).
  pose proof (shr_any (shr_record_of_loc m1 loc_Exact) e1 n1
                ltac:(rewrite shr_record_of_loc_m; lia)) as [He2 Hq2].
  rewrite shr_record_of_loc_m in Hq2.
  destruct (shr (shr_record_of_loc m1 loc_Exact) e1 n1) as [mrs'' e2].
  cbn [fst snd] in He2, Hq2. rewrite Hq2.
  assert (Hn1 : Z.max 0 n1 <= 1).
  { destruct (Z.eq_dec m1 0) as [E0|E0].
    - unfold n1. rewrite E0. cbn [Zdigits2]. unfold fexp64. lia.
    - assert (Zdigits2 m1 <= 54) by (apply Zdigits2_le; [lia|]; change (2 ^ 54) with (2 * 2 ^ 53); lia).
      unfold n1, fexp64. lia. }
  assert (Hm2 : 0 <= m1 / 2 ^ Z.max 0 n1 <= 2 ^ 53).
  { assert (0 < 2 ^ Z.max 0 n1) by (apply Z.pow_pos_nonneg; lia). split.
    - apply Z.div_pos; lia.
    - apply Z.le_trans with (m1 / 1); [|rewrite Z.div_1_r; lia].
      apply Z.div_le_compat_l; lia. }
  destruct (m1 / 2 ^ Z.max 0 n1) as [|p|p]; [reflexivity| |lia].
  change (emax - prec) with 971.
  destruct (Z.leb_spec e2 971); (split; [reflexivity|]); [split|]; lia.
Qed.

(** ** Division of non-negative numbers *)

Lemma fexp64_mono (a b : Z) : a <= b -> fexp64 a <= fexp64 b.
Proof. unfold fexp64. lia. Qed.

Lemma div_core_bound (mx my : positive) (ex ey : Z) :
  let X := Zpos (digits2_pos mx) + ex - (Zpos (digits2_pos my) + ey) in
  let r := SFdiv_core_binary prec emax (Zpos mx) ex (Zpos my) ey in
  0 <= fst (fst r)
  /\ Z.max (snd (fst r)) (fexp64 (Zdigits2 (fst (fst r)) + snd (fst r))) <= fexp64 (X + 1).
Proof.
  intros X r. unfold r, SFdiv_core_binary. change (fexp prec emax) with fexp64.
  cbn [Zdigits2]. fold X.
  set (e' := Z.min (fexp64 X) (ex - ey)).
  set (s := ex - ey - e').
  assert (Hs : 0 <= s) by (unfold s, e'; lia).
  set (m' := match s with Zpos _ => Z.shiftl (Zpos mx) s | 0 => Zpos mx | Zneg _ => 0 end).
  assert (Hm' : m' = Zpos mx * 2 ^ s).
  { unfold m'. destruct s as [|p|p]; [cbn; lia| |lia].
    now rewrite Z.shiftl_mul_pow2 by lia. }
  pose proof (Z_div_mod m' (Zpos my) ltac:(lia)) as Hdm.
  destruct (Z.div_eucl m' (Zpos my)) as [q rem]. destruct Hdm as [Hdm Hrem].
  cbn [fst snd].
  pose proof (digits2_pos_bounds mx) as [Lx Ux].
  pose proof (digits2_pos_bounds my) as [Ly Uy].
  set (d1 := Zpos (digits2_pos mx)) in *. set (d2 := Zpos (digits2_pos my)) in *.
  assert (Hd : 0 < d1 /\ 0 < d2) by (unfold d1, d2; lia).
  assert (Hps : 0 < 2 ^ s) by (apply Z.pow_pos_nonneg; lia).
  assert (Hq0 : 0 <= q) by nia.
  split; [exact Hq0|].
  assert (He' : e' <= fexp64 (X + 1)).
  { apply Z.le_trans with (fexp64 X); [unfold e'; lia|apply fexp64_mono; lia]. }
  apply Z.max_lub; [exact He'|].
  destruct (Z.eq_dec q 0) as [->|Hq].
  - cbn [Zdigits2]. unfold fexp64 in *. lia.
  - apply fexp64_mono.
    assert (Hm's : m' < 2 ^ (d1 + s)) by (rewrite Hm', Z.pow_add_r by lia; nia).
    assert (Hk : 0 < d1 + s - d2 + 1).
    { destruct (Z_lt_le_dec 0 (d1 + s - d2 + 1)); [assumption|exfalso].
      assert (2 ^ (d1 + s) <= 2 ^ (d2 - 1)) by (apply Z.pow_le_mono_r; lia). nia. }
    assert (Hqk : q < 2 ^ (d1 + s - d2 + 1)).
    { assert (E : 2 ^ (d1 + s) = 2 ^ (d1 + s - d2 + 1) * 2 ^ (d2 - 1))
        by (rewrite <- Z.pow_add_r by lia; f_equal; lia).
      assert (0 < 2 ^ (d2 - 1)) by (apply Z.pow_pos_nonneg; lia). nia. }
    pose proof (Zdigits2_le q _ ltac:(lia) Hqk). unfold X, s. lia.
Qed.

Lemma div_finite_bound (x y : float) (mx my : positive) (ex ey : Z) :
  Prim2SF x = S754_finite false mx ex -> Prim2SF y = S754_finite false my ey ->
  let X := Zpos (digits2_pos mx) + ex - (Zpos (digits2_pos my) + ey) in
  match Prim2SF (x / y) with
  | S754_zero s => s = false
  | S754_finite s p e2 => s = false /\ e2 <= fexp64 (X + 1) + 1 /\ Zpos p <= 2 ^ 53
  | S754_infinity s => s = false /\ 971 < fexp64 (X + 1) + 1
  | S754_nan => False
  end.
Proof.
  intros Ex Ey X. rewrite div_spec, Ex, Ey. unfold SF64div. cbn [SFdiv xorb].
  pose proof (div_core_bound mx my ex ey) as [Hm HE]. fold X in HE.
  destruct (SFdiv_core_binary prec emax (Zpos mx) ex (Zpos my) ey) as [[mz ez] lz].
  cbn [fst snd] in Hm, HE.
  pose proof (binary_round_aux_bound false mz ez lz Hm) as Hb.
  destruct (binary_round_aux prec emax false mz ez lz) as [s|s| |s p e2].
  - exact Hb.
  - destruct Hb as [-> Hb]. split; [reflexivity|lia].
  - exact Hb.
  - destruct Hb as (-> & He2 & Hp). split; [reflexivity|]. split; [lia|exact Hp].
Qed.

Lemma int_finite_bound (q : float) (p : positive) (e2 : Z) :
  Prim2SF q = S754_finite false p e2 -> e2 <= 953 -> Zpos p <= 2 ^ 53 ->
  exists n, Py.int q = Ok n /\ 0 <= n < 2 ^ 1023.
Proof.
  intros Eq He Hp. unfold Py.int. rewrite Eq. cbn [cond_Zopp].
  eexists; split; [reflexivity|]. split; [apply Z.shiftl_nonneg; lia|].
  destruct (Z_le_gt_dec 0 e2) as [H0|H0].
  - rewrite Z.shiftl_mul_pow2 by lia.
    apply Z.le_lt_trans with (2 ^ 53 * 2 ^ 953); [|reflexivity].
    apply Z.mul_le_mono_nonneg; try lia; try (apply Z.pow_nonneg; lia).
    apply Z.pow_le_mono_r; lia.
  - rewrite Z.shiftl_div_pow2 by lia.
    apply Z.le_lt_trans with (Zpos p); [|apply Z.le_lt_trans with (2 ^ 53); [lia|reflexivity]].
    apply Z.div_le_upper_bound; [apply Z.pow_pos_nonneg; lia|].
    assert (1 <= 2 ^ (- e2)) by (apply (Z.pow_le_mono_r 2 0); lia). nia.
Qed.

Lemma speed_at_least (y : float) :
  (0.1 <=? y)%float = true ->
  (y =? 0)%float = false
  /\ (Prim2SF y = S754_infinity false
      \/ exists my ey, Prim2SF y = S754_finite false my ey /\ -56 <= ey).
Proof.
  rewrite leb_spec, eqb_spec.
  change (Prim2SF 0.1) with (S754_finite false 7205759403792794 (-56)).
  change (Prim2SF 0) with (S754_zero false). unfold SFleb, SFeqb.
  destruct (Prim2SF y) as [s|s| |s my ey]; cbn [SFcompare]; try discriminate.
  - destruct s; [discriminate|]. intros _. split; [reflexivity|now left].
  - destruct s; [discriminate|]. intros H. split; [reflexivity|].
    right. exists my, ey. split; [reflexivity|].
    destruct (Z.compare_spec (-56) ey); try discriminate; lia.
Qed.

(** The quotient of a duration by a speed of at least 0.1 truncates to
    an integer without error. *)
Lemma int_div_ok (d : Z) (y : float) :
  0 <= d < 2 ^ 1000 -> (0.1 <=? y)%float = true ->
  exists q n, int_div_float d y = Ok q /\ Py.int q = Ok n /\ 0 <= n < 2 ^ 1023.
Proof.
  intros Hd Hy.
  destruct (float_of_int_nonneg d) as (fd & Hfd & Nd & Vd).
  { split; [lia|]. apply Z.lt_trans with (2 ^ 1000); [lia|reflexivity]. }
  destruct (speed_at_least y Hy) as [Hnz Hcase].
  unfold int_div_float. rewrite Hfd. cbn [Py.bind]. rewrite Hnz.
  exists (fd / y)%float. 
  assert (Hzero : forall s, Prim2SF (fd / y) = S754_zero s ->
            exists n, Py.int (fd / y) = Ok n /\ 0 <= n < 2 ^ 1023).
  { intros s E. exists 0. unfold Py.int. rewrite E. split; [reflexivity|].
    split; [lia|reflexivity]. }
  destruct (Prim2SF fd) as [sd|sd| |sd md ed] eqn:Ed; cbn in Nd; try contradiction.
  - (* zero duration *)
    destruct Hcase as [Ey|(my & ey & Ey & _)];
      destruct (Hzero (xorb sd false)) as (n & Hn & Hb);
      try (rewrite div_spec, Ed, Ey; reflexivity);
      exists n; auto.
  - subst sd. destruct Hcase as [Ey|(my & ey & Ey & Hey)].
    + destruct (Hzero false) as (n & Hn & Hb);
        [rewrite div_spec, Ed, Ey; reflexivity|]. exists n; auto.
    + pose proof (div_finite_bound fd y md my ed ey Ed Ey) as Hb.
      cbn zeta in Hb.
      destruct (valid_finite y _ _ _ Ey) as [Cy _].
      pose proof (canonical_bounds _ _ Cy) as (_ & _ & Ly).
      assert (Hdy : Zpos (digits2_pos my) = 53) by (unfold fexp64 in Cy; lia).
      (* the size of the duration *)
      cbn [SFscaled cond_Zopp] in Vd.
      destruct (valid_finite fd _ _ _ Ed) as [Cd _].
      pose proof (canonical_bounds _ _ Cd) as (Ld & _ & _).
      pose proof (digits2_pos_bounds md) as [Lmd _].
      assert (Hsize : Zpos (digits2_pos md) + ed <= 1001).
      { assert (Hle : Zpos md * 2 ^ (ed + 1074) <= 1 * 2 ^ (1000 + 1074)).
        { rewrite Vd, <- (round_grid_exact 1074 1 1000) by (cbn; lia).
          apply round_grid_mono; [lia|]. split; [lia|].
          rewrite Z.mul_1_l, Z.pow_add_r by lia.
          apply Z.mul_le_mono_nonneg_r; [apply Z.pow_nonneg|]; lia. }
        assert (Hlow : 2 ^ (Zpos (digits2_pos md) - 1 + (ed + 1074))
                       <= Zpos md * 2 ^ (ed + 1074)).
        { rewrite Z.pow_add_r by lia.
          apply Z.mul_le_mono_nonneg_r; [apply Z.pow_nonneg; lia|exact Lmd]. }
        assert (Hpow : 2 ^ (Zpos (digits2_pos md) - 1 + (ed + 1074)) <= 2 ^ (1000 + 1074)) by lia.
        apply Z.pow_le_mono_r_iff in Hpow; lia. }
      assert (HX : fexp64 (Zpos (digits2_pos md) + ed - (Zpos (digits2_pos my) + ey) + 1) + 1
                   <= 953) by (unfold fexp64; lia).
      destruct (Prim2SF (fd / y)) as [s|s| |s p e2] eqn:Eq.
      * destruct (Hzero s eq_refl) as (n & Hn & Hbn). exists n; auto.
      * lia.
      * contradiction.
      * destruct Hb as (-> & He2 & Hp).
        destruct (int_finite_bound (fd / y) p e2 Eq ltac:(lia) Hp) as (n & Hn & Hbn).
        exists n; auto.
Qed.

(** ** Truncation *)

(** [int] is the quotient, truncated toward zero, of the scaled value. *)
Lemma int_quot (q : float) (n : Z) :
  Py.int q = Ok n -> n = Z.quot (SFscaled 1074 (Prim2SF q)) (2 ^ 1074).
Proof.
  unfold Py.int. destruct (Prim2SF q) as [s|s| |s m e] eqn:Eq; try discriminate.
  - intros [= <-]. reflexivity.
  - intros [= <-]. destruct (valid_finite q _ _ _ Eq) as [Cq _].
    pose proof (canonical_bounds _ _ Cq) as (Lq & _).
    cbn [SFscaled]. rewrite (shiftl_scaled _ _ 1074) by lia.
    assert (0 <= Zpos m * 2 ^ (e + 1074))
      by (apply Z.mul_nonneg_nonneg; [lia|apply Z.pow_nonneg; lia]).
    assert (0 < 2 ^ 1074) by (apply Z.pow_pos_nonneg; lia).
    destruct s; cbn [cond_Zopp].
    + rewrite Z.quot_opp_l by lia. now rewrite Z.quot_div_nonneg by lia.
    + now rewrite Z.quot_div_nonneg by lia.
Qed.

(** ** Errors *)

Lemma float_of_int_small :
  float_of_int 0 = Ok 0%float /\ float_of_int 1 = Ok 1%float
  /\ float_of_int 2 = Ok 2%float /\ float_of_int 3 = Ok 3%float.
Proof. repeat split; vm_compute; reflexivity. Qed.

Lemma actual_duration_ok (speed : float) :
  (0.1 <=? speed)%float = true ->
  exists n, actual_duration speed = Ok n /\ 0 <= n < 2 ^ 1023.
Proof.
  intros Hs.
  destruct (int_div_ok base_duration speed) as (q & n & Hq & Hn & Hb);
    [split; reflexivity || discriminate|exact Hs|].
  exists n. unfold actual_duration. rewrite Hq. cbn [Py.bind]. auto.
Qed.

Lemma offset_factor_keyframes_ok (start_frame d : Z) (s e : float)
    (st : CURVE_PG_AnimationProperties) :
  exists ks, offset_factor_keyframes start_frame d s e st = Ok ks.
Proof.
  unfold offset_factor_keyframes.
  destruct (loop_animation st); [destruct (loop_type st)|]; cbn [Py.bind];
    eexists; reflexivity.
Qed.

Lemma zero_speed (speed : float) :
  (speed =? 0)%float = true -> actual_duration speed = Raise ZeroDivisionError.
Proof.
  intros Hz. unfold actual_duration, int_div_float.
  change (float_of_int base_duration) with (Ok 30%float). cbn [Py.bind].
  now rewrite Hz.
Qed.

(** ** Multiplication by a number of either sign *)

Lemma sround_mono (c N1 N2 : Z) :
  1074 <= c -> N1 <= N2 -> sround c N1 <= sround c N2.
Proof.
  intros Hc Hle. unfold sround.
  destruct (Z.ltb_spec N1 0), (Z.ltb_spec N2 0); try lia.
  - apply Z.opp_le_mono. rewrite !Z.opp_involutive. apply round_grid_mono; lia.
  - pose proof (round_grid_nonneg c (- N1) Hc ltac:(lia)).
    pose proof (round_grid_nonneg c N2 Hc ltac:(lia)). lia.
  - apply round_grid_mono; lia.
Qed.

Lemma magnitude_le (m1 m2 : positive) (e1 e2 : Z) :
  fexp64 (Zpos (digits2_pos m1) + e1) = e1 ->
  fexp64 (Zpos (digits2_pos m2) + e2) = e2 ->
  e1 < e2 \/ (e1 = e2 /\ (m1 <= m2)%positive) ->
  Zpos m1 * 2 ^ (e1 + 1074) <= Zpos m2 * 2 ^ (e2 + 1074).
Proof.
  intros C1 C2 H.
  pose proof (canonical_bounds _ _ C1) as (E1 & U1 & L1).
  pose proof (canonical_bounds _ _ C2) as (E2 & U2 & L2).
  destruct H as [Hlt|[-> Hm]].
  - specialize (L2 ltac:(lia)).
    apply Z.le_trans with (2 ^ 53 * 2 ^ (e1 + 1074)).
    + apply Z.mul_le_mono_nonneg_r; [apply Z.pow_nonneg; lia|lia].
    + apply Z.le_trans with (2 ^ 52 * 2 ^ (e2 + 1074)).
      * rewrite <- !Z.pow_add_r by lia. apply Z.pow_le_mono_r; lia.
      * apply Z.mul_le_mono_nonneg_r; [apply Z.pow_nonneg; lia|lia].
  - apply Z.mul_le_mono_nonneg_r; [apply Z.pow_nonneg; lia|lia].
Qed.

Lemma SFleb_scaled_signed (x y : spec_float) :
  valid_binary x = true -> valid_binary y = true ->
  SFfinite x -> SFfinite y -> SFleb x y = true ->
  SFscaled 1074 x <= SFscaled 1074 y.
Proof.
  intros Vx Vy Fx Fy. unfold SFleb.
  destruct x as [sx|sx| |sx mx ex], y as [sy|sy| |sy my ey]; cbn in Fx, Fy;
    try contradiction; cbn [SFscaled SFcompare].
  - lia.
  - destruct sy; [discriminate|]. intros _. cbn [cond_Zopp].
    apply Z.mul_nonneg_nonneg; [lia|apply Z.pow_nonneg; lia].
  - destruct sx; [|discriminate]. intros _. cbn [cond_Zopp].
    assert (0 <= Zpos mx * 2 ^ (ex + 1074))
      by (apply Z.mul_nonneg_nonneg; [lia|apply Z.pow_nonneg; lia]). lia.
  - apply bounded_spec in Vx, Vy. destruct Vx as [Cx _], Vy as [Cy _].
    assert (Hpx : 0 <= Zpos mx * 2 ^ (ex + 1074))
      by (apply Z.mul_nonneg_nonneg; [lia|apply Z.pow_nonneg; lia]).
    assert (Hpy : 0 <= Zpos my * 2 ^ (ey + 1074))
      by (apply Z.mul_nonneg_nonneg; [lia|apply Z.pow_nonneg; lia]).
    change (Pos.compare_cont Eq mx my) with (Pos.compare mx my).
    destruct sx, sy; cbn [cond_Zopp]; try discriminate.
    + (* both negative *)
      intros H. apply Z.opp_le_mono. rewrite !Z.opp_involutive.
      apply magnitude_le; auto.
      destruct (Z.compare_spec ex ey) as [->|Hlt|Hgt]; try discriminate; [|lia].
      right. split; [reflexivity|].
      destruct (Pos.compare_spec mx my); cbn in H; try discriminate; lia.
    + intros _. lia.
    + intros H. apply magnitude_le; auto.
      destruct (Z.compare_spec ex ey) as [->|Hlt|Hgt]; try discriminate; [|lia].
      right. split; [reflexivity|].
      destruct (Pos.compare_spec mx my); try discriminate; lia.
Qed.

Lemma mul_value_signed (x y : float) :
  SFnonneg (Prim2SF x) -> SFfinite (Prim2SF y) -> SFfinite (Prim2SF (x * y)) ->
  SFscaled 2148 (Prim2SF (x * y))
  = sround 2148 (SFscaled 1074 (Prim2SF x) * SFscaled 1074 (Prim2SF y)).
Proof.
  intros Nx Fy.
  destruct (Prim2SF x) as [sx|sx| |sx mx ex] eqn:Ex; cbn in Nx; try contradiction;
    destruct (Prim2SF y) as [sy|sy| |sy my ey] eqn:Ey; cbn in Fy; try contradiction.
  1-3: intros _; rewrite mul_spec, Ex, Ey; cbn [SF64mul SFmul SFscaled];
       rewrite ?Z.mul_0_l, ?Z.mul_0_r; unfold sround; cbn [Z.ltb Z.compare];
       now rewrite round_grid_0 by lia.
  subst sx. rewrite (mul_finite_model x y _ _ _ _ _ _ Ex Ey). cbn [xorb].
  destruct (valid_finite x _ _ _ Ex) as [Cx _].
  destruct (valid_finite y _ _ _ Ey) as [Cy _].
  pose proof (canonical_bounds _ _ Cx) as (Lx & _).
  pose proof (canonical_bounds _ _ Cy) as (Ly & _).
  cbn [SFscaled cond_Zopp].
  set (N := Zpos (mx * my) * 2 ^ (ex + ey + 2148)).
  assert (HN : Zpos mx * 2 ^ (ex + 1074) * (Zpos my * 2 ^ (ey + 1074)) = N).
  { unfold N. rewrite Pos2Z.inj_mul.
    replace (ex + ey + 2148) with ((ex + 1074) + (ey + 1074)) by lia.
    rewrite (Z.pow_add_r 2 (ex + 1074) (ey + 1074)) by lia. ring. }
  assert (HNpos : 0 < N).
  { unfold N. apply Z.mul_pos_pos; [lia|apply Z.pow_pos_nonneg; lia]. }
  assert (Hrhs : sround 2148 (Zpos mx * 2 ^ (ex + 1074)
                              * cond_Zopp sy (Zpos my * 2 ^ (ey + 1074)))
                 = cond_Zopp sy (round_grid 2148 N)).
  { unfold sround. destruct sy; cbn [cond_Zopp].
    - rewrite Z.mul_opp_r, HN.
      destruct (Z.ltb_spec (- N) 0); [|lia]. now rewrite Z.opp_involutive.
    - rewrite HN. destruct (Z.ltb_spec N 0); [lia|reflexivity]. }
  rewrite Hrhs.
  pose proof (round_model_value sy (Zpos (mx * my)) (ex + ey) 2148
                ltac:(lia) ltac:(lia) ltac:(lia)) as Hv. fold N in Hv.
  destruct (round_model sy (Zpos (mx * my)) (ex + ey)) as [s|s| |s p e2];
    cbn [SFfinite SFscaled]; try contradiction.
  - intros _. destruct Hv as [_ ->]. now destruct sy.
  - intros _. destruct Hv as (-> & _ & _ & ->). reflexivity.
Qed.

Lemma int_finite (z : float) (n : Z) :
  Py.int z = Ok n ->
  SFfinite (Prim2SF z) /\ n = Z.quot (SFscaled 2148 (Prim2SF z)) (2 ^ 2148).
Proof.
  intros Hn. pose proof (int_quot z n Hn) as Hq. revert Hn Hq. unfold Py.int.
  destruct (Prim2SF z) as [s|s| |s m e] eqn:Ez; try discriminate; intros _ ->;
    (split; [exact I|]); [reflexivity|].
  destruct (valid_finite z _ _ _ Ez) as [Cz _].
  pose proof (canonical_bounds _ _ Cz) as (Lz & _).
  cbn [SFscaled].
  replace (cond_Zopp s (Zpos m * 2 ^ (e + 2148)))
    with (cond_Zopp s (Zpos m * 2 ^ (e + 1074)) * 2 ^ 1074).
  - change (2 ^ 2148) with (2 ^ 1074 * 2 ^ 1074).
    rewrite Z.quot_mul_cancel_r; [reflexivity| |]; apply Z.pow_nonzero; lia.
  - replace (e + 2148) with ((e + 1074) + 1074) by lia.
    rewrite (Z.pow_add_r 2 (e + 1074) 1074) by lia.
    destruct s; cbn [cond_Zopp]; ring.
Qed.

Lemma mul_finite_arg (x y : float) :
  SFnonneg (Prim2SF x) -> SFfinite (Prim2SF (x * y)) -> SFfinite (Prim2SF y).
Proof.
  intros Nx. rewrite mul_spec. unfold SF64mul.
  destruct (Prim2SF x) as [sx|sx| |sx mx ex]; cbn in Nx; try contradiction;
    destruct (Prim2SF y) as [sy|sy| |sy my ey]; cbn [SFmul SFfinite]; auto.
Qed.

(** [int (fd * t)] never decreases when [t] grows, for a non-negative
    finite [fd]. *)
Lemma int_mul_mono (fd t1 t2 : float) (n1 n2 : Z) :
  SFnonneg (Prim2SF fd) -> (t1 <=? t2)%float = true ->
  Py.int (fd * t1) = Ok n1 -> Py.int (fd * t2) = Ok n2 -> n1 <= n2.
Proof.
  intros Nd Hle H1 H2.
  destruct (int_finite _ _ H1) as [F1 ->]. destruct (int_finite _ _ H2) as [F2 ->].
  pose proof (mul_finite_arg fd t1 Nd F1) as Ft1.
  pose proof (mul_finite_arg fd t2 Nd F2) as Ft2.
  rewrite !mul_value_signed by assumption.
  apply Z.quot_le_mono; [apply Z.pow_pos_nonneg; lia|].
  apply sround_mono; [lia|].
  apply Z.mul_le_mono_nonneg_l; [now apply SFscaled_nonneg|].
  apply SFleb_scaled_signed; try apply Prim2SF_valid; auto.
  now rewrite <- leb_spec.
Qed.

Lemma frame_at_mono_any (start_frame d : Z) (t1 t2 : float) (f1 f2 : Z) :
  0 <= d -> (t1 <=? t2)%float = true ->
  frame_at start_frame d t1 = Ok f1 -> frame_at start_frame d t2 = Ok f2 ->
  f1 <= f2.
Proof.
  intros Hd Hle. unfold frame_at, int_mul_float.
  destruct (float_of_int_cases d Hd) as [[-> _]|(fd & -> & Nd & _)];
    cbn [Py.bind]; [discriminate|].
  destruct (Py.int (fd * t1)) as [n1|] eqn:E1; cbn [Py.bind]; [|discriminate].
  destruct (Py.int (fd * t2)) as [n2|] eqn:E2; cbn [Py.bind]; [|discriminate].
  intros [= <-] [= <-].
  pose proof (int_mul_mono fd t1 t2 n1 n2 Nd Hle E1 E2). lia.
Qed.

(** ** Frames in insertion order *)

Section SortedFrames.

Context {V : Type} (insert : Z -> V -> list keyframe) (start_frame d : Z).

Lemma for_keyframes_inv (kfs : list (float * V)) (ks : list keyframe) :
  for_keyframes insert start_frame d kfs = Ok ks ->
  exists fs,
    Forall2 (fun kv f => frame_at start_frame d (fst kv) = Ok f) kfs fs
    /\ ks = insert_all insert fs (map snd kfs).
Proof.
  revert ks. induction kfs as [|[t v] kfs IH]; intros ks.
  - intros [= <-]. exists []. split; [constructor|reflexivity].
  - cbn [for_keyframes].
    destruct (frame_at start_frame d t) as [f|] eqn:Ef; cbn [Py.bind]; [|discriminate].
    destruct (for_keyframes insert start_frame d kfs) as [ks'|]; cbn [Py.bind];
      [|discriminate].
    intros [= <-]. destruct (IH ks' eq_refl) as (fs & Hfs & ->).
    exists (f :: fs). split; [constructor; assumption|reflexivity].
Qed.

Lemma frames_sorted (kfs : list (float * V)) (fs : list Z) :
  0 <= d ->
  nondecreasing (map fst kfs) ->
  Forall2 (fun kv f => frame_at start_frame d (fst kv) = Ok f) kfs fs ->
  Sorted Z.le fs.
Proof.
  intros Hd Hs H2. revert Hs.
  induction H2 as [|[t v] f kfs fs Hf H2 IH]; intros Hs; [constructor|].
  cbn [map fst] in Hs. inversion Hs as [|? ? Hs' Hhd]; subst.
  constructor; [now apply IH|].
  destruct H2 as [|[t' v'] f' kfs' fs' Hf' _]; constructor.
  cbn [map fst] in Hhd. inversion Hhd as [|? ? Hle]; subst.
  exact (frame_at_mono_any start_frame d t t' f f' Hd Hle Hf Hf').
Qed.

Lemma for_keyframes_sorted (kfs : list (float * V)) (ks : list keyframe) :
  (forall frame v, Forall (fun k => kf_frame k = frame) (insert frame v)) ->
  0 <= d -> nondecreasing (map fst kfs) ->
  for_keyframes insert start_frame d kfs = Ok ks ->
  Sorted Z.le (map kf_frame ks).
Proof.
  intros Hins Hd Hs Hok. destruct (for_keyframes_inv kfs ks Hok) as (fs & Hfs & ->).
  apply StronglySorted_Sorted, insert_all_sorted; [exact Hins|].
  apply Sorted_StronglySorted; [exact Z.le_trans|].
  now apply (frames_sorted kfs).
Qed.

End SortedFrames.

(** The effective duration is not negative when the speed is positive. *)
Lemma int_div_nonneg (d : Z) (y q : float) (n : Z) :
  0 <= d -> (0 <? y)%float = true ->
  int_div_float d y = Ok q -> Py.int q = Ok n -> 0 <= n.
Proof.
  intros Hd Hy. unfold int_div_float.
  destruct (float_of_int_cases d Hd) as [[-> _]|(fd & -> & Nd & _)];
    cbn [Py.bind]; [discriminate|].
  destruct (y =? 0)%float; [discriminate|]. intros [= <-].
  rewrite ltb_spec in Hy. change (Prim2SF 0) with (S754_zero false) in Hy.
  unfold SFltb in Hy. unfold Py.int.
  destruct (Prim2SF fd) as [sd|sd| |sd md ed] eqn:Ed; cbn in Nd; try contradiction;
    destruct (Prim2SF y) as [sy|sy| |sy my ey] eqn:Ey; cbn in Hy; try discriminate;
    try (destruct sy; [discriminate|]).
  1-3: rewrite div_spec, Ed, Ey; cbn [SF64div SFdiv]; intros [= <-]; lia.
  subst sd. pose proof (div_finite_bound fd y md my ed ey Ed Ey) as Hb.
  cbn zeta in Hb. destruct (Prim2SF (fd / y)) as [s|s| |s p e2]; try discriminate.
  - intros [= <-]. lia.
  - destruct Hb as (-> & _). intros [= <-]. cbn [cond_Zopp].
    apply Z.shiftl_nonneg. lia.
Qed.

(** ** Division by a power of two *)

Lemma new_location_0 (nb_steps : Z) : new_location nb_steps 0 = loc_Exact.
Proof.
  unfold new_location, new_location_even, new_location_odd.
  now destruct (Z.even nb_steps).
Qed.

(** Dividing a normal number by a power of two only lowers its exponent. *)
Lemma div_pow2_exact (x y : float) (mx : positive) (ex ey : Z) :
  Prim2SF x = S754_finite false mx ex ->
  Prim2SF y = S754_finite false 4503599627370496 ey ->
  2 ^ 52 <= Zpos mx -> -1073 <= ex - ey - 52 <= 971 ->
  Prim2SF (x / y) = S754_finite false mx (ex - ey - 52).
Proof.
  intros Ex Ey Hnorm Hrange.
  destruct (valid_finite x _ _ _ Ex) as [Cx _].
  pose proof (canonical_bounds _ _ Cx) as (_ & Ux & _).
  assert (Hdx : Zpos (digits2_pos mx) = 53) by (apply digits2_pos_unique; cbn; lia).
  rewrite div_spec, Ex, Ey. unfold SF64div. cbn [SFdiv xorb].
  unfold SFdiv_core_binary. cbn [Zdigits2]. rewrite Hdx.
  change (Zpos (digits2_pos 4503599627370496)) with 53.
  change (fexp prec emax) with fexp64.
  replace (Z.min (fexp64 (53 + ex - (53 + ey))) (ex - ey)) with (ex - ey - 53)
    by (unfold fexp64; lia).
  replace (ex - ey - (ex - ey - 53)) with 53 by lia.
  rewrite Z.shiftl_mul_pow2 by lia.
  change (2 ^ 53) with (2 * 4503599627370496).
  pose proof (Z_div_mod (Zpos mx * (2 * 4503599627370496)) 4503599627370496
                ltac:(lia)) as Hdm.
  destruct (Z.div_eucl (Zpos mx * (2 * 4503599627370496)) 4503599627370496)
    as [q r].
  destruct Hdm as [Hdm Hr].
  assert (Hq : q = 2 * Zpos mx) by lia. assert (Hr0 : r = 0) by lia. subst q r.
  rewrite new_location_0, binary_round_aux_model by lia.
  rewrite round_model_cases by lia.
  assert (Hd2 : Zdigits2 (2 * Zpos mx) = 54).
  { apply Zdigits2_unique; [lia|]. change (2 ^ (54 - 1)) with (2 * 2 ^ 52).
    change (2 ^ 54) with (2 * 2 ^ 53). lia. }
  rewrite Hd2.
  replace (Z.max 0 (fexp64 (54 + (ex - ey - 53)) - (ex - ey - 53))) with 1
    by (unfold fexp64; lia).
  replace (2 * Zpos mx) with (Zpos mx * 2 ^ 1) by (cbn; lia).
  rewrite rne_multiple by lia.
  destruct (Z.eqb_spec (Zpos mx) 0); [lia|].
  destruct (Z.eqb_spec (Zpos mx) (2 ^ 53)); [lia|].
  replace (ex - ey - 53 + 1) with (ex - ey - 52) by lia.
  destruct (Z.leb_spec (ex - ey - 52) 971); [|lia].
  reflexivity.
Qed.

(** The float of an integer below [2 ^ 53] is that integer. *)
Lemma float_of_int_exact (d : Z) :
  0 < d < 2 ^ 53 ->
  exists fd mx ex,
    float_of_int d = Ok fd /\ Prim2SF fd = S754_finite false mx ex
    /\ 2 ^ 52 <= Zpos mx /\ -52 <= ex <= 0
    /\ Zpos mx * 2 ^ (ex + 1074) = d * 2 ^ 1074.
Proof.
  intros [H0 Hlt].
  destruct (float_of_int_nonneg d) as (fd & Hfd & Nd & Vd).
  { split; [lia|]. apply Z.lt_trans with (2 ^ 53); [lia|reflexivity]. }
  assert (Hdig : Zdigits2 d <= 53) by (apply Zdigits2_le; lia).
  replace (d * 2 ^ 1074) with (d * 2 ^ (0 + 1074)) in Vd by reflexivity.
  rewrite round_grid_exact in Vd by (unfold fexp64; lia).
  rewrite Z.add_0_l in Vd.
  assert (Hp : 0 < 2 ^ 1074) by (apply Z.pow_pos_nonneg; lia).
  destruct (Prim2SF fd) as [s|s| |s mx ex] eqn:Ed; cbn in Nd; try contradiction.
  { cbn [SFscaled] in Vd. nia. }
  subst s. cbn [SFscaled cond_Zopp] in Vd.
  destruct (valid_finite fd _ _ _ Ed) as [Cd _].
  pose proof (canonical_bounds _ _ Cd) as (Ld & Ud & Nd').
  assert (Hex : -1074 < ex).
  { destruct (Z.eq_dec ex (-1074)) as [->|]; [|lia]. exfalso.
    change (2 ^ (-1074 + 1074)) with 1 in Vd. nia. }
  specialize (Nd' Hex).
  assert (Hex0 : ex <= 0).
  { destruct (Z_le_gt_dec ex 0); [assumption|exfalso].
    assert (2 ^ (1 + 1074) <= 2 ^ (ex + 1074)) by (apply Z.pow_le_mono_r; lia).
    change (2 ^ (1 + 1074)) with (2 * 2 ^ 1074) in *. nia. }
  assert (Hex52 : -52 <= ex).
  { destruct (Z_le_gt_dec (-52) ex); [assumption|exfalso].
    assert (2 ^ (ex + 1074) * 2 ^ 53 <= 2 ^ 1074).
    { rewrite <- Z.pow_add_r by lia. apply Z.pow_le_mono_r; lia. }
    assert (0 < 2 ^ (ex + 1074)) by (apply Z.pow_pos_nonneg; lia). nia. }
  exists fd, mx, ex. repeat split; auto; lia.
Qed.

Lemma adjusted_duration_pow2 (d : Z) (st : CURVE_PG_AnimationProperties) (j : Z) :
  0 <= d < 2 ^ 53 -> 0 <= j <= 1 ->
  Prim2SF (speed_factor st) = S754_finite false 4503599627370496 (j - 52) ->
  (speed_factor st =? 0)%float = false ->
  adjusted_duration d st = Ok (d / 2 ^ j).
Proof.
  intros [H0 Hlt] Hj Es Hnz. unfold adjusted_duration, int_div_float.
  destruct (Z.eq_dec d 0) as [->|Hd0].
  { change (float_of_int 0) with (Ok 0%float). cbn [Py.bind]. rewrite Hnz.
    cbn [Py.bind]. unfold Py.int. rewrite div_spec, Es.
    change (Prim2SF 0) with (S754_zero false). cbn [SF64div SFdiv].
    now rewrite Z.div_0_l by (apply Z.pow_nonzero; lia). }
  destruct (float_of_int_exact d ltac:(lia)) as (fd & mx & ex & -> & Ed & Hn & Hex & Hv).
  cbn [Py.bind]. rewrite Hnz. cbn [Py.bind]. unfold Py.int.
  rewrite (div_pow2_exact fd (speed_factor st) mx ex (j - 52) Ed Es Hn) by lia.
  cbn [cond_Zopp]. f_equal.
  replace (ex - (j - 52) - 52) with (ex - j) by lia.
  rewrite (shiftl_scaled _ _ (1074 + j)) by lia.
  replace (ex - j + (1074 + j)) with (ex + 1074) by lia.
  rewrite Hv, Z.pow_add_r, (Z.mul_comm (2 ^ 1074) (2 ^ j)) by lia.
  rewrite Z.div_mul_cancel_r; [reflexivity| |]; apply Z.pow_nonzero; lia.
Qed.

Lemma halves_at_double_speed (st : CURVE_PG_AnimationProperties) (d : Z) :
  0 <= d < 2 ^ 53 ->
  adjusted_duration d (with_speed 1.0 st) = Ok d
  /\ adjusted_duration d (with_speed 2.0 st) = Ok (d / 2).
Proof.
  intros Hd. split.
  - rewrite (adjusted_duration_pow2 d (with_speed 1.0 st) 0 Hd); try reflexivity; [|lia].
    now rewrite Z.div_1_r.
  - now rewrite (adjusted_duration_pow2 d (with_speed 2.0 st) 1 Hd); try reflexivity; try lia.
Qed.
(** * Properties *)

(** ** Effective duration *)

(** C1, as the code has it.  Whenever the effective duration is
    computed it is [int(duration_frames / speed_factor)]: the binary64
    quotient [q], truncated toward zero, not rounded to the nearest
    integer.  In the statement [SFscaled 1074 (Prim2SF q)] is the integer
    [q * 2 ^ 1074] and [Z.quot] the division that truncates toward zero.
    The result is not negative for a duration that is not negative and a
    positive speed factor, and it is computed without error for a
    duration in [[0, 2 ^ 1000)] and a speed factor of at least 0.1, the
    minimum of the property.  For a duration [d] in [[0, 2 ^ 53)], where
    the conversion to float is exact, speed 1.0 gives [d] itself and speed
    2.0 gives [d / 2] rounded down; with the fixed base duration of the
    presets these are 30 and 15. *)
Theorem effective_duration_truncates (d : Z) (st : CURVE_PG_AnimationProperties) :
  (forall n,
     adjusted_duration d st = Ok n ->
     exists q,
       int_div_float d (speed_factor st) = Ok q
       /\ n = Z.quot (SFscaled 1074 (Prim2SF q)) (2 ^ 1074))
  /\ (forall n,
        0 <= d -> (0 <? speed_factor st)%float = true ->
        adjusted_duration d st = Ok n -> 0 <= n)
  /\ (0 <= d < 2 ^ 1000 -> (0.1 <=? speed_factor st)%float = true ->
      exists n, adjusted_duration d st = Ok n)
  /\ (0 <= d < 2 ^ 53 ->
      adjusted_duration d (with_speed 1.0 st) = Ok d
      /\ adjusted_duration d (with_speed 2.0 st) = Ok (d / 2))
  /\ actual_duration 1.0 = Ok 30
  /\ actual_duration 2.0 = Ok 15.
Proof.
  split; [|split; [|split; [|split; [apply halves_at_double_speed|split; reflexivity]]]].
  - intros n. unfold adjusted_duration.
    destruct (int_div_float d (speed_factor st)) as [q|]; cbn [Py.bind]; [|discriminate].
    intros Hn. exists q. split; [reflexivity|now apply int_quot].
  - intros n Hd Hs. unfold adjusted_duration.
    destruct (int_div_float d (speed_factor st)) as [q|] eqn:Eq; cbn [Py.bind];
      [|discriminate].
    intros Hn. exact (int_div_nonneg d (speed_factor st) q n Hd Hs Eq Hn).
  - intros Hd Hs.
    destruct (int_div_ok d (speed_factor st) Hd Hs) as (q & n & Hq & Hn & Hb).
    exists n. unfold adjusted_duration. now rewrite Hq.
Qed.

Lemma effective_duration_truncates_witness :
  (exists n,
     adjusted_duration 31 (looping 2.0 false REPEAT 0.1) = Ok n
     /\ 0 <= n
     /\ exists q,
          int_div_float 31 2.0 = Ok q
          /\ n = Z.quot (SFscaled 1074 (Prim2SF q)) (2 ^ 1074))
  /\ adjusted_duration 31 (with_speed 1.0 (looping 2.0 false REPEAT 0.1)) = Ok 31
  /\ adjusted_duration 31 (with_speed 2.0 (looping 2.0 false REPEAT 0.1)) = Ok (31 / 2).
Proof.
  destruct (effective_duration_truncates 31 (looping 2.0 false REPEAT 0.1))
    as (Htrunc & Hsign & Hok & Hhalf & _).
  split.
  - destruct Hok as [n Hn].
    + split; reflexivity || discriminate.
    + reflexivity.
    + exists n. split; [exact Hn|]. split.
      * apply Hsign; [discriminate|reflexivity|exact Hn].
      * apply Htrunc. exact Hn.
  - apply Hhalf. split; reflexivity || discriminate.
Defined.

(** C1, as stated, fails: the quotient is truncated, not rounded.  At
    duration 30 and speed 8.0 the quotient 3.75 gives 3, not 4; with the
    presets' base duration 30 and speed 4.0 the quotient 7.5 gives 7, not
    8; at duration 31, speed 2.0 gives 15 and not 16, the rounded half of
    the 31 obtained with speed 1.0. *)
Lemma effective_duration_round_counterexample :
  adjusted_duration 30 (looping 8.0 false REPEAT 0.1) = Ok 3
  /\ Spec.effective_duration 30 8.0 = Ok 4
  /\ adjusted_duration 30 (looping 8.0 false REPEAT 0.1)
     <> Spec.effective_duration 30 8.0
  /\ actual_duration 4.0 = Ok 7
  /\ Spec.effective_duration base_duration 4.0 = Ok 8
  /\ adjusted_duration 31 (looping 1.0 false REPEAT 0.1) = Ok 31
  /\ adjusted_duration 31 (looping 2.0 false REPEAT 0.1) = Ok 15
  /\ Spec.effective_duration 31 2.0 = Ok 16.
Proof. repeat split; try reflexivity. vm_compute. discriminate. Qed.

(** ** Scenario A: the pop-up scale preset *)

(** C2. With [start_frame = 1], base duration 30 and speed 1.0 the pop-up
    scale descriptor yields exactly four scale keyframes, at frames
    1, 13, 22 and 31, with the four values in descriptor order; the same
    frames come out of [start_frame + int(duration * time_fraction)]
    applied to each sample of the descriptor. *)
Theorem popup_scale_scenario :
  execute apply_popup_scale 1 1.0
  = Ok [ insert_keyframe scale 1 (0, 0, 0)%float;
         insert_keyframe scale 13 (1.2, 1.2, 1.2)%float;
         insert_keyframe scale 22 (0.9, 0.9, 0.9)%float;
         insert_keyframe scale 31 (1, 1, 1)%float ]
  /\ execute
       (fun start_frame end_frame =>
          for_keyframes (fun frame s => [insert_keyframe scale frame s])
            start_frame (end_frame - start_frame)
            [ (0.0, (0, 0, 0)); (0.4, (1.2, 1.2, 1.2));
              (0.7, (0.9, 0.9, 0.9)); (1.0, (1, 1, 1)) ]%float)
       1 1.0
     = execute apply_popup_scale 1 1.0
  /\ actual_duration 1.0 = Ok 30
  /\ frame_at 1 30 0.0 = Ok (1 + 0)
  /\ frame_at 1 30 0.4 = Ok (1 + 12)
  /\ frame_at 1 30 0.7 = Ok (1 + 21)
  /\ frame_at 1 30 1.0 = Ok (1 + 30).
Proof. repeat split; vm_compute; reflexivity. Qed.

(** ** Loop totals *)

(** C3. The previewed total is the base duration for a repeat loop, twice
    it for ping-pong and four times it for an offset loop. *)
Theorem total_duration_loop (d : Z) (speed offset : float) (reverse : bool) :
  total_duration d (looping speed reverse REPEAT offset) = d
  /\ total_duration d (looping speed reverse PING_PONG offset) = 2 * d
  /\ total_duration d (looping speed reverse OFFSET offset) = 4 * d
  /\ total_duration 30 (looping speed reverse REPEAT offset) = 30
  /\ total_duration 30 (looping speed reverse PING_PONG offset) = 60
  /\ total_duration 30 (looping speed reverse OFFSET offset) = 120.
Proof. unfold total_duration, looping; cbn [loop_animation loop_type]; lia. Qed.

(** ** Ping-pong expansion *)

(** C4. A ping-pong loop inserts exactly three [offset_factor] keys: the
    start factor at the start frame, the end factor one duration later
    and the start factor again two durations later. *)
Theorem ping_pong_keyframes (start_frame d : Z) (s e speed offset : float)
    (reverse : bool) :
  offset_factor_keyframes start_frame d s e (looping speed reverse PING_PONG offset)
  = Ok [ (start_frame + 0, s); (start_frame + d, e); (start_frame + 2 * d, s) ]
  /\ offset_factor_keyframes 0 30 0.0 1.0 (looping speed reverse PING_PONG offset)
     = Ok [ (0, 0.0%float); (30, 1.0%float); (60, 0.0%float) ].
Proof.
  split; [|reflexivity].
  unfold offset_factor_keyframes, _create_ping_pong_animation, looping.
  cbn [loop_animation loop_type Py.bind].
  now rewrite Z.add_0_r, (Z.mul_comm 2 d).
Qed.

(** ** Offset expansion *)

Lemma offset_cycle_eq (start_frame d : Z) (s e : float)
    (st : CURVE_PG_AnimationProperties) (i : Z) (fi : float) :
  float_of_int i = Ok fi ->
  offset_cycle start_frame d s e st i
  = Ok (start_frame + d * i,
        Spec.clamp01 ((if reverse_direction st then s else e) + fi * loop_offset st)).
Proof.
  intros Hi. unfold offset_cycle, int_mul_float. rewrite Hi. cbn [Py.bind].
  unfold Spec.clamp01. now destruct (reverse_direction st).
Qed.

(** C5, as the code has it. An offset loop inserts the start factor at the
    start frame and then, for each cycle [i] of 1..3, the clamped factor
    [clamp01(base + i * offset)] at [start_frame + i * duration], where
    [base] is the end factor when the direction is not reversed and the
    start factor when it is. *)
Theorem offset_keyframes (start_frame d : Z) (s e speed o : float) (reverse : bool) :
  offset_factor_keyframes start_frame d s e (looping speed reverse OFFSET o)
  = Ok [ (start_frame, s);
         (start_frame + d * 1, Spec.clamp01 ((if reverse then s else e) + 1 * o));
         (start_frame + d * 2, Spec.clamp01 ((if reverse then s else e) + 2 * o));
         (start_frame + d * 3, Spec.clamp01 ((if reverse then s else e) + 3 * o)) ].
Proof.
  destruct float_of_int_small as (_ & H1 & H2 & H3).
  unfold offset_factor_keyframes, _create_offset_animation, looping.
  cbn [loop_animation loop_type].
  rewrite (offset_cycle_eq _ _ _ _ _ 1 _ H1), (offset_cycle_eq _ _ _ _ _ 2 _ H2),
    (offset_cycle_eq _ _ _ _ _ 3 _ H3).
  reflexivity.
Qed.

(** C5, as stated, fails when the direction is reversed: with start
    factor 1.0, end factor 0.0 and offset 0.25 the three cycle factors are
    derived from the start factor (all clamp to 1.0), not from the end
    factor (0.25, 0.5, 0.75). *)
Lemma offset_keyframes_reverse_counterexample :
  apply_animation 30 None (looping 1.0 true OFFSET 0.25)
  = Ok [ (1, 1.0%float); (31, 1.0%float); (61, 1.0%float); (91, 1.0%float) ]
  /\ offset_factor_keyframes 1 30 1.0 0.0 (looping 1.0 true OFFSET 0.25)
     <> Ok [ (1, 1.0%float);
             (1 + 30 * 1, Spec.clamp01 (0.0 + 1 * 0.25));
             (1 + 30 * 2, Spec.clamp01 (0.0 + 2 * 0.25));
             (1 + 30 * 3, Spec.clamp01 (0.0 + 3 * 0.25)) ].
Proof.
  split; [vm_compute; reflexivity|].
  intros H.
  apply (f_equal (fun r => match r with
                           | Ok (_ :: (_, f) :: _) => Prim2SF f
                           | _ => S754_nan
                           end)) in H.
  vm_compute in H. discriminate H.
Qed.

(** ** Monotonic frames *)

(** C9. For a descriptor whose time fractions never decrease from one
    sample to the next, the frames of the keyframes inserted by the
    keyframe loop, in insertion order, never decrease: for every duration
    that is not negative, and so for every positive speed factor of
    [execute], whose effective duration is then not negative.  The loop
    raises nothing when the fractions lie in [[0, 1]] and the duration is
    below [2 ^ 1023] (beyond, its conversion to float overflows), nor does
    [execute] for a speed factor of at least 0.1.  The handlers insert
    every keyframe of a sample at the frame of that sample, which is the
    hypothesis on [insert]; no handler has a reverse flag. *)
Theorem frames_nondecreasing {V : Type} (insert : Z -> V -> list keyframe)
    (keyframes : list (float * V)) :
  (forall frame v, Forall (fun k => kf_frame k = frame) (insert frame v)) ->
  nondecreasing (map fst keyframes) ->
  (forall start_frame duration ks,
     0 <= duration ->
     for_keyframes insert start_frame duration keyframes = Ok ks ->
     Sorted Z.le (map kf_frame ks))
  /\ (forall start_frame duration,
        0 <= duration < 2 ^ 1023 ->
        Forall (fun kv => in_unit_interval (fst kv)) keyframes ->
        exists ks, for_keyframes insert start_frame duration keyframes = Ok ks)
  /\ (forall frame_current speed ks,
        (0 <? speed)%float = true ->
        execute
          (fun start_frame end_frame =>
             for_keyframes insert start_frame (end_frame - start_frame) keyframes)
          frame_current speed = Ok ks ->
        Sorted Z.le (map kf_frame ks))
  /\ (forall frame_current speed,
        (0.1 <=? speed)%float = true ->
        Forall (fun kv => in_unit_interval (fst kv)) keyframes ->
        exists ks,
          execute
            (fun start_frame end_frame =>
               for_keyframes insert start_frame (end_frame - start_frame) keyframes)
            frame_current speed = Ok ks).
Proof.
  intros Hins Hs. split; [|split; [|split]].
  - intros start_frame duration ks Hd Hok.
    now apply (for_keyframes_sorted insert start_frame duration keyframes).
  - intros start_frame duration Hd Hu.
    destruct (frames_exist start_frame duration keyframes Hd Hu) as [fs Hfs].
    rewrite (for_keyframes_frames insert start_frame duration _ fs Hfs).
    eexists; reflexivity.
  - intros frame_current speed ks Hpos. unfold execute, actual_duration.
    destruct (int_div_float base_duration speed) as [q|] eqn:Eq; cbn [Py.bind];
      [|discriminate].
    destruct (Py.int q) as [n|] eqn:En; cbn [Py.bind]; [|discriminate].
    replace (frame_current + n - frame_current) with n by lia.
    apply (for_keyframes_sorted insert frame_current n keyframes); auto.
    apply (int_div_nonneg base_duration speed q n); auto. discriminate.
  - intros frame_current speed Hsp Hu.
    destruct (actual_duration_ok speed Hsp) as (n & Hn & Hb).
    unfold execute. rewrite Hn. cbn [Py.bind].
    replace (frame_current + n - frame_current) with n by lia.
    destruct (frames_exist frame_current n keyframes Hb Hu) as [fs Hfs].
    rewrite (for_keyframes_frames insert frame_current n _ fs Hfs).
    eexists; reflexivity.
Qed.

Lemma frames_nondecreasing_witness :
  exists ks,
    execute apply_elastic 1 1.0 = Ok ks /\ Sorted Z.le (map kf_frame ks).
Proof.
  destruct (frames_nondecreasing (fun frame s => [insert_keyframe scale frame s])
              elastic_timings) as (_ & _ & Hsorted & Hok).
  - intros frame v. repeat constructor.
  - repeat constructor.
  - destruct (Hok 1 1.0%float) as [ks Hks].
    + reflexivity.
    + repeat constructor.
    + exists ks. split; [exact Hks|]. apply (Hsorted 1 1.0%float ks); [reflexivity|].
      exact Hks.
Defined.

(** ** Clamping of offset factors *)

Lemma offset_cycle_in_range (start_frame d : Z) (s e : float)
    (st : CURVE_PG_AnimationProperties) (i : Z) (fi : float)
    (sa : bool) (ma : positive) (ea : Z) :
  float_of_int i = Ok fi -> Prim2SF fi = S754_finite sa ma ea ->
  in_unit_interval s -> in_unit_interval e -> is_nan (loop_offset st) = false ->
  exists k, offset_cycle start_frame d s e st i = Ok k /\ in_unit_interval (snd k).
Proof.
  intros Hi Hfi [Hs0 Hs1] [He0 He1] Ho.
  rewrite (offset_cycle_eq _ _ _ _ _ _ _ Hi). eexists; split; [reflexivity|].
  cbn [snd]. apply clamp01_in_unit_interval, add_not_nan.
  - destruct (reverse_direction st); now apply unit_interval_scaled.
  - now apply (mul_not_nan _ _ _ _ _ Hfi).
Qed.

(** C8. Whatever the loop settings, if the start and end factors lie in
    [[0, 1]] and the offset per cycle is a number (finite or infinite, but
    not NaN), the expansion raises nothing and every factor it inserts
    lies in [[0, 1]].  With start 0.0, end 1.0, duration 30 and an offset of
    0.5 per cycle the factors of the cycles are clamped to exactly 1.0. *)
Theorem offset_factors_clamped (start_frame d : Z) (s e : float)
    (st : CURVE_PG_AnimationProperties) :
  in_unit_interval s -> in_unit_interval e -> is_nan (loop_offset st) = false ->
  (exists ks,
     offset_factor_keyframes start_frame d s e st = Ok ks
     /\ Forall (fun k => in_unit_interval (snd k)) ks)
  /\ offset_factor_keyframes 0 30 0.0 1.0 (looping 1.0 false OFFSET 0.5)
     = Ok [ (0, 0.0%float); (30, 1.0%float); (60, 1.0%float); (90, 1.0%float) ].
Proof.
  intros Hs He Ho. split; [|vm_compute; reflexivity].
  unfold offset_factor_keyframes.
  destruct (loop_animation st); [destruct (loop_type st)|]; cbn [Py.bind].
  - eexists; split; [reflexivity|]. repeat apply Forall_cons; try apply Forall_nil; assumption.
  - eexists; split; [reflexivity|]. repeat apply Forall_cons; try apply Forall_nil; assumption.
  - destruct float_of_int_small as (_ & H1 & H2 & H3).
    unfold _create_offset_animation.
    destruct (offset_cycle_in_range start_frame d s e st 1 1 false 4503599627370496 (-52)
                H1 eq_refl Hs He Ho) as (k1 & -> & R1).
    destruct (offset_cycle_in_range start_frame d s e st 2 2 false 4503599627370496 (-51)
                H2 eq_refl Hs He Ho) as (k2 & -> & R2).
    destruct (offset_cycle_in_range start_frame d s e st 3 3 false 6755399441055744 (-51)
                H3 eq_refl Hs He Ho) as (k3 & -> & R3).
    cbn [Py.bind]. eexists; split; [reflexivity|].
    repeat apply Forall_cons; try apply Forall_nil; assumption.
  - eexists; split; [reflexivity|]. repeat apply Forall_cons; try apply Forall_nil; assumption.
Qed.

Lemma offset_factors_clamped_witness :
  (exists ks,
     offset_factor_keyframes 1 30 0.0 1.0 (looping 1.0 false OFFSET 0.5) = Ok ks
     /\ Forall (fun k => in_unit_interval (snd k)) ks)
  /\ offset_factor_keyframes 0 30 0.0 1.0 (looping 1.0 false OFFSET 0.5)
     = Ok [ (0, 0.0%float); (30, 1.0%float); (60, 1.0%float); (90, 1.0%float) ].
Proof.
  apply (offset_factors_clamped 1 30 0.0 1.0 (looping 1.0 false OFFSET 0.5)).
  - split; reflexivity.
  - split; reflexivity.
  - reflexivity.
Defined.

(** ** The staggered variant *)

Lemma stagger_copies_ok {V : Type} (insert : Z -> V -> list keyframe)
    (start_frame d : Z) (delay : float) (kfs : list (float * V))
    (copy_indices : list nat) :
  0 <= d < 2 ^ 1023 -> in_unit_interval delay ->
  Forall (fun kv => in_unit_interval (fst kv)) kfs ->
  Forall (fun i => Z.of_nat i < 2 ^ 1023) copy_indices ->
  exists kss,
    stagger_copies insert start_frame d delay kfs copy_indices = Ok kss
    /\ Forall2
         (fun i ks =>
            exists delay_pct,
              int_mul_float (Z.of_nat i) delay = Ok delay_pct
              /\ for_keyframes insert start_frame d (Spec.shift_drop delay_pct kfs)
                 = Ok ks)
         copy_indices kss.
Proof.
  intros Hd Hdelay Hu. induction 1 as [|i more Hi _ (kss & IH & IH2)].
  - exists []. split; [reflexivity|constructor].
  - destruct (delay_pct_nonneg (Z.of_nat i) delay ltac:(lia) Hdelay) as (dp & Hdp & Ndp).
    destruct (stagger_keyframes_ok insert start_frame d dp kfs Hd Ndp Hu)
      as (ks & Hks & Hspec).
    exists (ks :: kss). cbn [stagger_copies]. rewrite Hdp. cbn [Py.bind].
    rewrite Hks. cbn [Py.bind]. rewrite IH. split; [reflexivity|].
    constructor; [|exact IH2]. exists dp. split; assumption.
Qed.

(** C6. For a descriptor with fractions in [[0, 1]], a delay fraction in
    [[0, 1]] and a duration that is not negative, the keyframes of copy
    [i] are those compiled from the descriptor with every time fraction
    shifted by [i * delay], the samples whose shifted fraction exceeds
    1.0 dropped, and a sample shifted to exactly 1.0 kept.  With three
    copies and a delay of 0.2, the sample at 0.9 is kept for copy 0 and
    dropped for copy 1, and the sample at 0.8 is kept for copy 1, where
    it is shifted to exactly 1.0. *)
Theorem stagger_drop_rule {V : Type} (insert : Z -> V -> list keyframe)
    (start_frame duration : Z) (delay : float) (samples : list (float * V))
    (copies : nat) :
  0 <= duration < 2 ^ 1023 -> in_unit_interval delay ->
  Forall (fun kv => in_unit_interval (fst kv)) samples ->
  Z.of_nat copies <= 2 ^ 1023 ->
  (exists kss,
     stagger_copies insert start_frame duration delay samples (seq 0 copies) = Ok kss
     /\ Forall2
          (fun i ks =>
             exists delay_pct,
               int_mul_float (Z.of_nat i) delay = Ok delay_pct
               /\ for_keyframes insert start_frame duration
                    (Spec.shift_drop delay_pct samples) = Ok ks)
          (seq 0 copies) kss)
  /\ stagger_copies (fun frame s => [insert_keyframe scale frame s]) 1 30 0.2
       [ (0.8, (1, 1, 1)); (0.9, (2, 2, 2)) ]%float (seq 0 3)
     = Ok [ [ insert_keyframe scale 25 (1, 1, 1)%float;
              insert_keyframe scale 28 (2, 2, 2)%float ];
            [ insert_keyframe scale 31 (1, 1, 1)%float ];
            [] ]
  /\ (0.8 + 0.2 = 1.0)%float.
Proof.
  intros Hd Hdelay Hu Hn. split; [|split; vm_compute; reflexivity].
  apply stagger_copies_ok; auto.
  apply Forall_forall. intros i Hi. apply in_seq in Hi. lia.
Qed.

Lemma stagger_drop_rule_witness :
  (exists kss,
     apply_stagger true (0, 0, 0)%float (0, 0, 0)%float 1 31 = Ok kss
     /\ Forall2
          (fun i ks =>
             exists delay_pct,
               int_mul_float (Z.of_nat i) 0.2 = Ok delay_pct
               /\ for_keyframes (stagger_insert (0, 0, 0)%float (0, 0, 0)%float) 1 30
                    (Spec.shift_drop delay_pct base_keyframes) = Ok ks)
          (seq 0 3) kss)
  /\ stagger_copies (fun frame s => [insert_keyframe scale frame s]) 1 30 0.2
       [ (0.8, (1, 1, 1)); (0.9, (2, 2, 2)) ]%float (seq 0 3)
     = Ok [ [ insert_keyframe scale 25 (1, 1, 1)%float;
              insert_keyframe scale 28 (2, 2, 2)%float ];
            [ insert_keyframe scale 31 (1, 1, 1)%float ];
            [] ]
  /\ (0.8 + 0.2 = 1.0)%float.
Proof.
  apply (stagger_drop_rule (stagger_insert (0, 0, 0)%float (0, 0, 0)%float)
           1 (31 - 1) 0.2 base_keyframes 3).
  - split; reflexivity || discriminate.
  - split; reflexivity.
  - repeat constructor.
  - discriminate.
Defined.

(** C10. The first copy of a staggered expansion is the plain expansion:
    for a delay fraction in [[0, 1]] and a descriptor none of whose time
    fractions exceeds 1.0, copy 0 is shifted by a zero delay, drops no
    sample and gets, sample for sample, the frames and values of the
    unstaggered loop (and fails where that loop fails). *)
Theorem stagger_copy_zero {V : Type} (insert : Z -> V -> list keyframe)
    (start_frame duration : Z) (delay : float) (samples : list (float * V))
    (more_copies : nat) :
  in_unit_interval delay ->
  Forall (fun kv => (fst kv <=? 1)%float = true) samples ->
  (exists delay_pct,
     int_mul_float 0 delay = Ok delay_pct
     /\ stagger_keyframes insert start_frame duration delay_pct samples
        = for_keyframes insert start_frame duration samples)
  /\ stagger_copies insert start_frame duration delay samples (seq 0 (S more_copies))
     = (ks <- for_keyframes insert start_frame duration samples ;;
        kss <- stagger_copies insert start_frame duration delay samples
                 (seq 1 more_copies) ;;
        Ok (ks :: kss)).
Proof.
  intros Hdelay Hle. destruct (zero_delay_pct delay Hdelay) as (z & sz & Hz & Ez).
  pose proof (stagger_keyframes_zero_delay insert start_frame duration z sz samples
                Ez Hle) as Heq.
  split; [exists z; split; assumption|].
  cbn [seq stagger_copies Z.of_nat]. rewrite Hz. cbn [Py.bind]. now rewrite Heq.
Qed.

Lemma stagger_copy_zero_witness :
  (exists delay_pct,
     int_mul_float 0 0.2 = Ok delay_pct
     /\ stagger_keyframes (stagger_insert (0, 0, 0)%float (0, 0, 0)%float) 1 30
          delay_pct base_keyframes
        = for_keyframes (stagger_insert (0, 0, 0)%float (0, 0, 0)%float) 1 30
            base_keyframes)
  /\ stagger_copies (stagger_insert (0, 0, 0)%float (0, 0, 0)%float) 1 30 0.2
       base_keyframes (seq 0 3)
     = (ks <- for_keyframes (stagger_insert (0, 0, 0)%float (0, 0, 0)%float) 1 30
                base_keyframes ;;
        kss <- stagger_copies (stagger_insert (0, 0, 0)%float (0, 0, 0)%float) 1 30 0.2
                 base_keyframes (seq 1 2) ;;
        Ok (ks :: kss)).
Proof.
  apply (stagger_copy_zero (stagger_insert (0, 0, 0)%float (0, 0, 0)%float)
           1 30 0.2 base_keyframes 2).
  - split; reflexivity.
  - repeat constructor.
Defined.

(** * Further properties of the code *)

(** ** The window of a handler *)

(** A duration below [2 ^ 53] converts to a float without rounding. *)
Lemma float_of_int_53 (d : Z) :
  0 <= d < 2 ^ 53 ->
  exists fd, float_of_int d = Ok fd /\ SFnonneg (Prim2SF fd)
    /\ SFscaled 1074 (Prim2SF fd) = d * 2 ^ 1074.
Proof.
  intros [H0 Hlt].
  destruct (float_of_int_nonneg d) as (fd & Hfd & Nd & Vd).
  { split; [lia|]. apply Z.lt_trans with (2 ^ 53); [lia|reflexivity]. }
  exists fd. split; [exact Hfd|]. split; [exact Nd|]. rewrite Vd.
  destruct (Z.eq_dec d 0) as [->|Hnz].
  - rewrite Z.mul_0_l. apply round_grid_0; lia.
  - replace (d * 2 ^ 1074) with (d * 2 ^ (0 + 1074)) by reflexivity.
    pose proof (Zdigits2_le d 53 ltac:(lia) Hlt).
    apply round_grid_exact; unfold fexp64; lia.
Qed.

Lemma round_grid_53 (d : Z) :
  0 <= d < 2 ^ 53 -> round_grid 2148 (d * 2 ^ 2148) = d * 2 ^ 2148.
Proof.
  intros [H0 Hlt]. destruct (Z.eq_dec d 0) as [->|Hnz].
  - rewrite Z.mul_0_l. apply round_grid_0; lia.
  - replace (d * 2 ^ 2148) with (d * 2 ^ (0 + 2148)) by reflexivity.
    pose proof (Zdigits2_le d 53 ltac:(lia) Hlt).
    apply round_grid_exact; unfold fexp64; lia.
Qed.

(** The frame of a fraction of [[0, 1]] lies between the start frame and
    the end frame. *)
Lemma frame_at_window (start_frame d : Z) (t : float) :
  0 <= d < 2 ^ 53 -> in_unit_interval t ->
  exists f, frame_at start_frame d t = Ok f /\ start_frame <= f <= start_frame + d.
Proof.
  intros Hd [H0 H1].
  destruct (float_of_int_53 d Hd) as (fd & Hfd & Nd & Vd).
  destruct (frame_at_value start_frame d t) as (fd' & Hfd' & _ & E); auto.
  { split; [lia|]. apply Z.lt_trans with (2 ^ 53); [lia|reflexivity]. }
  assert (fd' = fd) by congruence. subst fd'. rewrite Vd in E.
  destruct (unit_interval_scaled t H0 H1) as [Nt Ht].
  pose proof (SFscaled_nonneg 1074 _ Nt) as Ht0.
  set (vt := SFscaled 1074 (Prim2SF t)) in *.
  assert (Hp : 0 < 2 ^ 1074) by (apply Z.pow_pos_nonneg; lia).
  assert (Hp2 : 0 < 2 ^ 2148) by (apply Z.pow_pos_nonneg; lia).
  assert (Hpp : 2 ^ 2148 = 2 ^ 1074 * 2 ^ 1074) by reflexivity.
  eexists. split; [exact E|].
  assert (HN : 0 <= d * 2 ^ 1074 * vt <= d * 2 ^ 2148).
  { split; [apply Z.mul_nonneg_nonneg; lia|]. rewrite Hpp, Z.mul_assoc.
    apply Z.mul_le_mono_nonneg_l; lia. }
  pose proof (round_grid_nonneg 2148 _ ltac:(lia) (proj1 HN)) as Hlo.
  pose proof (round_grid_mono 2148 _ _ ltac:(lia) HN) as Hhi.
  rewrite round_grid_53 in Hhi by exact Hd.
  split.
  - pose proof (Z.div_pos _ _ Hlo Hp2). lia.
  - enough (round_grid 2148 (d * 2 ^ 1074 * vt) / 2 ^ 2148 <= d) by lia.
    apply Z.div_le_upper_bound; lia.
Qed.

(** X1. For a duration of 0 to [2 ^ 53 - 1] frames, the time fraction
    0.0 is placed on the start frame and the time fraction 1.0 exactly
    on [start_frame + duration], the end frame: the product
    [duration * 1.0] is not rounded. *)
Theorem frame_at_ends (start_frame duration : Z) :
  0 <= duration < 2 ^ 53 ->
  frame_at start_frame duration 0.0 = Ok start_frame
  /\ frame_at start_frame duration 1.0 = Ok (start_frame + duration).
Proof.
  intros Hd.
  destruct (float_of_int_53 duration Hd) as (fd & Hfd & Nd & Vd).
  assert (Hd' : 0 <= duration < 2 ^ 1023).
  { split; [lia|]. apply Z.lt_trans with (2 ^ 53); [lia|reflexivity]. }
  assert (Hp2 : 0 < 2 ^ 2148) by (apply Z.pow_pos_nonneg; lia).
  split.
  - destruct (frame_at_value start_frame duration 0.0 Hd') as (fd' & Hfd' & _ & E);
      [reflexivity|reflexivity|].
    rewrite E. change (SFscaled 1074 (Prim2SF 0.0)) with 0.
    rewrite Z.mul_0_r, round_grid_0 by lia.
    rewrite Z.div_0_l by lia. now rewrite Z.add_0_r.
  - destruct (frame_at_value start_frame duration 1.0 Hd') as (fd' & Hfd' & _ & E);
      [reflexivity|reflexivity|].
    assert (fd' = fd) by congruence. subst fd'.
    rewrite E, Vd.
    replace (SFscaled 1074 (Prim2SF 1.0)) with (2 ^ 1074) by (vm_compute; reflexivity).
    rewrite <- Z.mul_assoc.
    change (2 ^ 1074 * 2 ^ 1074) with (2 ^ 2148).
    rewrite round_grid_53 by exact Hd.
    now rewrite Z.div_mul by lia.
Qed.

Lemma frame_at_ends_witness :
  frame_at 1 30 0.0 = Ok 1 /\ frame_at 1 30 1.0 = Ok (1 + 30).
Proof. apply (frame_at_ends 1 30). split; [lia|reflexivity]. Defined.

Section Window.

Context {V : Type} (start_frame d : Z).

Lemma frames_window (kfs : list (float * V)) :
  0 <= d < 2 ^ 53 ->
  Forall (fun kv => in_unit_interval (fst kv)) kfs ->
  exists fs,
    Forall2 (fun kv f => frame_at start_frame d (fst kv) = Ok f) kfs fs
    /\ Forall (fun f => start_frame <= f <= start_frame + d) fs.
Proof.
  intros Hd. induction 1 as [|[t v] kfs Ht _ (fs & IH & IHw)].
  - exists []. split; constructor.
  - destruct (frame_at_window start_frame d t Hd Ht) as (f & Hf & Hw).
    exists (f :: fs). split; constructor; assumption.
Qed.

Lemma insert_all_window {K : Type} (frame_of : K -> Z) (insert : Z -> V -> list K)
    (P : Z -> Prop) (fs : list Z) (vs : list V) :
  (forall frame v, Forall (fun k => frame_of k = frame) (insert frame v)) ->
  Forall P fs ->
  Forall (fun k => P (frame_of k)) (insert_all insert fs vs).
Proof.
  intros Hins Hfs. revert vs. unfold insert_all.
  induction Hfs as [|f fs Hf _ IH]; intros [|v vs]; cbn [combine flat_map fst snd];
    try constructor.
  apply Forall_app. split; [|apply IH].
  eapply Forall_impl; [|apply Hins]. cbn beta. intros k ->. exact Hf.
Qed.

Lemma for_insertions_frames (insert : Z -> V -> list insertion)
    (kfs : list (float * V)) (fs : list Z) :
  Forall2 (fun kv f => frame_at start_frame d (fst kv) = Ok f) kfs fs ->
  for_insertions insert start_frame d kfs = Ok (insert_all insert fs (map snd kfs)).
Proof.
  induction 1 as [|[t v] f kfs fs Hf _ IH]; [reflexivity|].
  cbn [for_insertions fst] in *. rewrite Hf. cbn [Py.bind]. rewrite IH. reflexivity.
Qed.

End Window.

(** X2. A table-driven handler never leaves its window: for a duration
    of 0 to [2 ^ 53 - 1] frames and time fractions in [[0, 1]], the loop
    raises nothing and every keyframe it inserts lies on a frame from
    [start_frame] to [start_frame + duration]. *)
Theorem for_keyframes_window {V : Type} (insert : Z -> V -> list keyframe)
    (start_frame duration : Z) (keyframes : list (float * V)) :
  (forall frame v, Forall (fun k => kf_frame k = frame) (insert frame v)) ->
  0 <= duration < 2 ^ 53 ->
  Forall (fun kv => in_unit_interval (fst kv)) keyframes ->
  exists ks,
    for_keyframes insert start_frame duration keyframes = Ok ks
    /\ Forall (fun k => start_frame <= kf_frame k <= start_frame + duration) ks.
Proof.
  intros Hins Hd Hu.
  destruct (frames_window start_frame duration keyframes Hd Hu) as (fs & Hfs & Hw).
  exists (insert_all insert fs (map snd keyframes)). split.
  - exact (for_keyframes_frames insert start_frame duration keyframes fs Hfs).
  - exact (insert_all_window kf_frame insert
             (fun f => start_frame <= f <= start_frame + duration) fs _ Hins Hw).
Qed.

Lemma for_keyframes_window_witness :
  exists ks,
    for_keyframes (fun frame s => [insert_keyframe scale frame s]) 5 12 elastic_timings
    = Ok ks
    /\ Forall (fun k => 5 <= kf_frame k <= 5 + 12) ks.
Proof.
  apply (for_keyframes_window (fun frame s => [insert_keyframe scale frame s]) 5 12
           elastic_timings).
  - intros frame v. repeat constructor.
  - split; [lia|reflexivity].
  - repeat apply Forall_cons; try apply Forall_nil; split; reflexivity.
Defined.

(** ** Durations that stay small *)

(** A duration below [2 ^ 40], divided by a speed of at least 0.1,
    truncates to a duration below [2 ^ 53]. *)
Lemma int_div_small (d : Z) (y : float) :
  0 <= d < 2 ^ 40 -> (0.1 <=? y)%float = true ->
  exists q n, int_div_float d y = Ok q /\ Py.int q = Ok n /\ 0 <= n < 2 ^ 53.
Proof.
  intros Hd Hy.
  destruct (float_of_int_53 d) as (fd & Hfd & Nd & Vd).
  { split; [lia|]. apply Z.lt_trans with (2 ^ 40); [lia|reflexivity]. }
  destruct (speed_at_least y Hy) as [Hnz Hcase].
  unfold int_div_float. rewrite Hfd. cbn [Py.bind]. rewrite Hnz.
  exists (fd / y)%float.
  assert (Hzero : forall s, Prim2SF (fd / y) = S754_zero s ->
            exists n, Py.int (fd / y) = Ok n /\ 0 <= n < 2 ^ 53).
  { intros s E. exists 0. unfold Py.int. rewrite E. split; [reflexivity|].
    split; [lia|reflexivity]. }
  destruct (Prim2SF fd) as [sd|sd| |sd md ed] eqn:Ed; cbn in Nd; try contradiction.
  - destruct Hcase as [Ey|(my & ey & Ey & _)];
      destruct (Hzero (xorb sd false)) as (n & Hn & Hb);
      try (rewrite div_spec, Ed, Ey; reflexivity);
      exists n; auto.
  - subst sd. destruct Hcase as [Ey|(my & ey & Ey & Hey)].
    + destruct (Hzero false) as (n & Hn & Hb);
        [rewrite div_spec, Ed, Ey; reflexivity|]. exists n; auto.
    + pose proof (div_finite_bound fd y md my ed ey Ed Ey) as Hb.
      cbn zeta in Hb.
      destruct (valid_finite y _ _ _ Ey) as [Cy _].
      pose proof (canonical_bounds _ _ Cy) as (_ & _ & Ly).
      assert (Hdy : Zpos (digits2_pos my) = 53) by (unfold fexp64 in Cy; lia).
      cbn [SFscaled cond_Zopp] in Vd.
      destruct (valid_finite fd _ _ _ Ed) as [Cd _].
      pose proof (canonical_bounds _ _ Cd) as (Ld & _ & _).
      pose proof (digits2_pos_bounds md) as [Lmd _].
      assert (Hsize : Zpos (digits2_pos md) + ed <= 40).
      { assert (Hlt : Zpos md * 2 ^ (ed + 1074) < 2 ^ (40 + 1074)).
        { rewrite Vd, (Z.pow_add_r 2 40 1074) by lia.
          apply Z.mul_lt_mono_pos_r; [apply Z.pow_pos_nonneg|]; lia. }
        assert (Hlow : 2 ^ (Zpos (digits2_pos md) - 1 + (ed + 1074))
                       <= Zpos md * 2 ^ (ed + 1074)).
        { rewrite Z.pow_add_r by lia.
          apply Z.mul_le_mono_nonneg_r; [apply Z.pow_nonneg; lia|exact Lmd]. }
        assert (Hpow : 2 ^ (Zpos (digits2_pos md) - 1 + (ed + 1074)) < 2 ^ (40 + 1074))
          by lia.
        apply Z.pow_lt_mono_r_iff in Hpow; lia. }
      assert (HX : fexp64 (Zpos (digits2_pos md) + ed - (Zpos (digits2_pos my) + ey) + 1) + 1
                   <= -8) by (unfold fexp64; lia).
      destruct (Prim2SF (fd / y)) as [s|s| |s p e2] eqn:Eq.
      * destruct (Hzero s eq_refl) as (n & Hn & Hbn). exists n; auto.
      * lia.
      * contradiction.
      * destruct Hb as (-> & He2 & Hp).
        unfold Py.int. rewrite Eq. cbn [cond_Zopp].
        eexists; split; [reflexivity|]. split; [reflexivity|].
        split; [apply Z.shiftl_nonneg; lia|].
        rewrite Z.shiftl_div_pow2 by lia.
        assert (H2 : 2 ^ 1 <= 2 ^ (- e2)) by (apply Z.pow_le_mono_r; lia).
        change (2 ^ 1) with 2 in H2.
        assert (H53 : 2 ^ 53 = 2 * 2 ^ 52) by reflexivity.
        assert (0 < 2 ^ 52) by (apply Z.pow_pos_nonneg; lia).
        apply Z.div_lt_upper_bound; [lia|]. nia.
Qed.

(** At a speed of at least 0.1, the duration of a preset is computed
    without error and stays below [2 ^ 53]. *)
Lemma actual_duration_small (speed : float) :
  (0.1 <=? speed)%float = true ->
  exists n, actual_duration speed = Ok n /\ 0 <= n < 2 ^ 53.
Proof.
  intros Hs.
  destruct (int_div_small base_duration speed) as (q & n & Hq & Hn & Hb);
    [split; reflexivity || discriminate|exact Hs|].
  exists n. unfold actual_duration. rewrite Hq. cbn [Py.bind]. auto.
Qed.

(** ** Every preset, every selected object *)

Lemma keyframes_in_window {V : Type} (insert : Z -> V -> list keyframe)
    (start_frame d : Z) (kfs : list (float * V)) :
  (forall frame v, Forall (fun k => kf_frame k = frame) (insert frame v)) ->
  0 <= d < 2 ^ 53 ->
  Forall (fun kv => in_unit_interval (fst kv)) kfs ->
  exists ks,
    for_keyframes insert start_frame d kfs = Ok ks
    /\ Forall (fun k => in_window start_frame d (kf_frame k)) ks.
Proof.
  intros Hins Hd Hu.
  destruct (frames_window start_frame d kfs Hd Hu) as (fs & Hfs & Hw).
  exists (insert_all insert fs (map snd kfs)). split.
  - exact (for_keyframes_frames insert start_frame d kfs fs Hfs).
  - exact (insert_all_window kf_frame insert (in_window start_frame d) fs _ Hins Hw).
Qed.

(** A handler that hands a table to [for_keyframes], as [execute] calls
    it. *)
Lemma handler_window {V : Type} (insert : Z -> V -> list keyframe)
    (wrap : keyframe -> insertion) (start_frame d : Z) (kfs : list (float * V)) :
  (forall k, insertion_frame (wrap k) = kf_frame k) ->
  (forall frame v, Forall (fun k => kf_frame k = frame) (insert frame v)) ->
  Forall (fun kv => in_unit_interval (fst kv)) kfs ->
  0 <= d < 2 ^ 53 ->
  exists xs,
    (ks <- for_keyframes insert start_frame (start_frame + d - start_frame) kfs ;;
     Ok (map wrap ks)) = Ok xs
    /\ Forall (fun x => in_window start_frame d (insertion_frame x)) xs.
Proof.
  intros Hwrap Hins Hu Hd. replace (start_frame + d - start_frame) with d by lia.
  destruct (keyframes_in_window insert start_frame d kfs Hins Hd Hu) as (ks & -> & Hw).
  cbn [Py.bind]. eexists; split; [reflexivity|].
  apply Forall_map. eapply Forall_impl; [|exact Hw].
  cbn beta. intros k Hk. now rewrite Hwrap.
Qed.

Lemma stagger_keyframes_window {V : Type} (insert : Z -> V -> list keyframe)
    (start_frame d : Z) (delay_pct : float) (kfs : list (float * V)) :
  (forall frame v, Forall (fun k => kf_frame k = frame) (insert frame v)) ->
  0 <= d < 2 ^ 53 ->
  SFnonneg (Prim2SF delay_pct) ->
  Forall (fun kv => in_unit_interval (fst kv)) kfs ->
  exists ks,
    stagger_keyframes insert start_frame d delay_pct kfs = Ok ks
    /\ Forall (fun k => in_window start_frame d (kf_frame k)) ks.
Proof.
  intros Hins Hd Nd Hu.
  destruct (shift_drop_in_unit_interval delay_pct kfs Nd Hu) as [Hn Hk].
  rewrite stagger_keyframes_filter, guard_is_shift_drop by exact Hn.
  now apply keyframes_in_window.
Qed.

Lemma stagger_copies_in_window {V : Type} (insert : Z -> V -> list keyframe)
    (start_frame d : Z) (delay : float) (kfs : list (float * V))
    (copy_indices : list nat) :
  (forall frame v, Forall (fun k => kf_frame k = frame) (insert frame v)) ->
  0 <= d < 2 ^ 53 -> in_unit_interval delay ->
  Forall (fun kv => in_unit_interval (fst kv)) kfs ->
  Forall (fun i => Z.of_nat i < 2 ^ 1023) copy_indices ->
  exists kss,
    stagger_copies insert start_frame d delay kfs copy_indices = Ok kss
    /\ length kss = length copy_indices
    /\ Forall (Forall (fun k => in_window start_frame d (kf_frame k))) kss.
Proof.
  intros Hins Hd Hdelay Hu. induction 1 as [|i more Hi _ (kss & IH & IHl & IHw)].
  - exists []. repeat split; constructor.
  - destruct (delay_pct_nonneg (Z.of_nat i) delay ltac:(lia) Hdelay) as (dp & Hdp & Ndp).
    destruct (stagger_keyframes_window insert start_frame d dp kfs Hins Hd Ndp Hu)
      as (ks & Hks & Hw).
    exists (ks :: kss). cbn [stagger_copies]. rewrite Hdp. cbn [Py.bind].
    rewrite Hks. cbn [Py.bind]. rewrite IH. split; [reflexivity|].
    split; [cbn [length]; now rewrite IHl|]. constructor; assumption.
Qed.

Lemma on_copies_window (P : Z -> Prop) (kss : list (list keyframe)) :
  Forall (Forall (fun k => P (kf_frame k))) kss ->
  Forall (fun x => P (insertion_frame x)) (on_copies kss).
Proof.
  unfold on_copies. generalize (seq 0 (length kss)). intros idx H. revert idx.
  induction H as [|ks kss Hks _ IH]; intros [|i idx]; cbn [combine map concat];
    try constructor.
  apply Forall_app. split; [|apply IH].
  cbn [fst snd]. apply Forall_map. exact Hks.
Qed.

Lemma stagger_insert_placed (obj_location copy_rot : vec3) (frame : Z)
    (v : stagger_sample) :
  Forall (fun k => kf_frame k = frame) (stagger_insert obj_location copy_rot frame v).
Proof.
  destruct v as [[s x] r], obj_location as [[lx ly] lz], copy_rot as [[rx ry] rz].
  repeat constructor.
Qed.

Lemma height_insert_placed (loc : vec3) (frame : Z) (v : float * vec3) :
  Forall (fun k => kf_frame k = frame) (height_insert loc frame v).
Proof. destruct v as [h s], loc as [[lx ly] lz]. repeat constructor. Qed.

Ltac unit_fractions :=
  repeat apply Forall_cons; try apply Forall_nil; split; reflexivity.

(** Every handler keeps to the window [execute] gives it. *)
Lemma apply_preset_window (preset : preset_enum) (obj : selected_object)
    (start_frame d : Z) :
  0 <= d < 2 ^ 53 ->
  exists xs,
    apply_preset preset obj start_frame (start_frame + d) = Ok xs
    /\ Forall (fun x => in_window start_frame d (insertion_frame x)) xs.
Proof.
  intros Hd. destruct obj as [mesh [[lx ly] lz] [[rx ry] rz] nodes].
  destruct preset; cbn [apply_preset ob_is_mesh ob_location ob_rotation_euler
                        ob_principled_nodes].
  - (* PRESET_A *)
    unfold apply_popup_scale. cbv zeta.
    replace (start_frame + d - start_frame) with d by lia.
    destruct (frame_at_window start_frame d 0.4 Hd) as (f2 & -> & H2);
      [split; reflexivity|].
    destruct (frame_at_window start_frame d 0.7 Hd) as (f3 & -> & H3);
      [split; reflexivity|].
    cbn [Py.bind map]. eexists; split; [reflexivity|].
    unfold in_window. repeat constructor; cbn [insertion_frame kf_frame]; lia.
  - (* PRESET_B *)
    unfold apply_fade_slide. cbv zeta.
    replace (start_frame + d - start_frame) with d by lia.
    destruct (frames_window start_frame d fade_slide_keyframes Hd) as (fs & Hfs & Hw);
      [unit_fractions|].
    rewrite (for_insertions_frames start_frame d _ _ fs Hfs).
    eexists; split; [reflexivity|].
    apply (insert_all_window insertion_frame _ (in_window start_frame d)); [|exact Hw].
    intros frame [[x a] s]. repeat constructor.
    apply Forall_map, Forall_forall. reflexivity.
  - (* PRESET_C *)
    apply handler_window; [reflexivity| |unit_fractions|exact Hd].
    intros frame [s [[r1 r2] r3]]. repeat constructor.
  - (* PRESET_ROTATE_POP *)
    apply handler_window; [reflexivity| |unit_fractions|exact Hd].
    intros frame [a s]. repeat constructor.
  - (* PRESET_BOUNCE_IN *)
    apply handler_window; [reflexivity| |unit_fractions|exact Hd].
    intros frame v. apply height_insert_placed.
  - (* PRESET_SLIDE_FROM_SIDE *)
    apply handler_window; [reflexivity| |unit_fractions|exact Hd].
    intros frame [[x r] s]. repeat constructor.
  - (* PRESET_FALL_FROM_SKY *)
    apply handler_window; [reflexivity| |unit_fractions|exact Hd].
    intros frame v. apply height_insert_placed.
  - (* PRESET_FLIP_REVEAL *)
    apply handler_window; [reflexivity| |unit_fractions|exact Hd].
    intros frame [[a s] y]. repeat constructor.
  - (* PRESET_TYPEWRITER *)
    unfold apply_typewriter. destruct mesh.
    + apply handler_window; [reflexivity| |unit_fractions|exact Hd].
      intros frame v. apply stagger_insert_placed.
    + cbn [Py.bind map]. eexists; split; [reflexivity|constructor].
  - (* PRESET_PULSE *)
    apply handler_window; [reflexivity| |unit_fractions|exact Hd].
    intros frame [s [[r1 r2] r3]]. repeat constructor.
  - (* PRESET_ELASTIC *)
    apply handler_window; [reflexivity| |unit_fractions|exact Hd].
    intros frame s. repeat constructor.
  - (* PRESET_STAGGER *)
    unfold apply_stagger. destruct mesh.
    + cbv zeta. replace (start_frame + d - start_frame) with d by lia.
      destruct (stagger_copies_in_window (stagger_insert (lx, ly, lz) (rx, ry, rz))
                  start_frame d 0.2 base_keyframes (seq 0 num_copies))
        as (kss & -> & _ & Hw).
      * intros frame v. apply stagger_insert_placed.
      * exact Hd.
      * split; reflexivity.
      * unit_fractions.
      * repeat constructor.
      * cbn [Py.bind]. eexists; split; [reflexivity|].
        now apply (on_copies_window (in_window start_frame d)).
    + cbn [Py.bind]. eexists; split; [reflexivity|constructor].
Qed.

Lemma for_selected_ok {A B : Type} (body : A -> result B) (P : B -> Prop)
    (selected_objects : list A) :
  (forall obj, exists r, body obj = Ok r /\ P r) ->
  exists rs,
    for_selected body selected_objects = Ok rs
    /\ length rs = length selected_objects /\ Forall P rs.
Proof.
  intros Hbody. induction selected_objects as [|obj rest (rs & IH & IHl & IHp)].
  - exists []. repeat split; constructor.
  - destruct (Hbody obj) as (r & Hr & Pr). exists (r :: rs).
    cbn [for_selected]. rewrite Hr. cbn [Py.bind]. rewrite IH. cbn [Py.bind].
    split; [reflexivity|]. split; [cbn [length]; now rewrite IHl|].
    constructor; assumption.
Qed.

(** X3. Whatever the preset and the selected objects, at a speed of at
    least 0.1 (the least the speed property allows) [execute] raises
    nothing, handles every selected object, and every keyframe it
    inserts, on an object, on a copy or on a material, lies on a frame
    from the current frame to the current frame plus the duration
    [int(30 / speed)]. *)
Theorem execute_preset_window (preset : preset_enum)
    (selected_objects : list selected_object) (frame_current : Z) (speed : float) :
  (0.1 <=? speed)%float = true ->
  exists d xss,
    actual_duration speed = Ok d
    /\ execute_preset preset selected_objects frame_current speed = Ok xss
    /\ length xss = length selected_objects
    /\ Forall
         (Forall (fun x => frame_current <= insertion_frame x <= frame_current + d))
         xss.
Proof.
  intros Hs. destruct (actual_duration_small speed Hs) as (d & Hd & Hb).
  destruct (for_selected_ok
              (fun obj => apply_preset preset obj frame_current (frame_current + d))
              (Forall (fun x => in_window frame_current d (insertion_frame x)))
              selected_objects) as (xss & Hx & Hl & Hw).
  { intros obj. now apply apply_preset_window. }
  exists d, xss. split; [exact Hd|].
  unfold execute_preset, ANIM_OT_add_preset.execute. rewrite Hd. cbn [Py.bind].
  split; [exact Hx|]. split; [exact Hl|exact Hw].
Qed.

Lemma execute_preset_window_witness :
  exists d xss,
    actual_duration 1.0 = Ok d
    /\ execute_preset PRESET_STAGGER
         [ {| ob_is_mesh := true; ob_location := (0, 0, 0)%float;
              ob_rotation_euler := (0, 0, 0)%float; ob_principled_nodes := 1 |} ]
         1 1.0 = Ok xss
    /\ length xss = 1%nat
    /\ Forall (Forall (fun x => 1 <= insertion_frame x <= 1 + d)) xss.
Proof.
  apply (execute_preset_window PRESET_STAGGER
           [ {| ob_is_mesh := true; ob_location := (0, 0, 0)%float;
                ob_rotation_euler := (0, 0, 0)%float; ob_principled_nodes := 1 |} ]
           1 1.0).
  reflexivity.
Defined.

(** X4. The guard of the staggered reveal keeps every copy inside the
    window: for a duration of 0 to [2 ^ 53 - 1] frames, a delay and time
    fractions in [[0, 1]], the loops raise nothing, give one keyframe
    list per copy, and no keyframe of any copy lies before
    [start_frame] or after [start_frame + duration]. *)
Theorem stagger_copies_window {V : Type} (insert : Z -> V -> list keyframe)
    (start_frame duration : Z) (delay : float) (keyframes : list (float * V))
    (copies : nat) :
  (forall frame v, Forall (fun k => kf_frame k = frame) (insert frame v)) ->
  0 <= duration < 2 ^ 53 -> in_unit_interval delay ->
  Forall (fun kv => in_unit_interval (fst kv)) keyframes ->
  Z.of_nat copies <= 2 ^ 1023 ->
  exists kss,
    stagger_copies insert start_frame duration delay keyframes (seq 0 copies) = Ok kss
    /\ length kss = copies
    /\ Forall
         (Forall (fun k => start_frame <= kf_frame k <= start_frame + duration))
         kss.
Proof.
  intros Hins Hd Hdelay Hu Hc.
  destruct (stagger_copies_in_window insert start_frame duration delay keyframes
              (seq 0 copies) Hins Hd Hdelay Hu) as (kss & Hk & Hl & Hw).
  - apply Forall_forall. intros i Hi. apply in_seq in Hi. lia.
  - exists kss. split; [exact Hk|]. split; [now rewrite Hl, length_seq|exact Hw].
Qed.

Lemma stagger_copies_window_witness :
  exists kss,
    stagger_copies (stagger_insert (0, 0, 0)%float (0, 0, 0)%float) 1 30 0.2
      base_keyframes (seq 0 3) = Ok kss
    /\ length kss = 3%nat
    /\ Forall (Forall (fun k => 1 <= kf_frame k <= 1 + 30)) kss.
Proof.
  apply (stagger_copies_window (stagger_insert (0, 0, 0)%float (0, 0, 0)%float)
           1 30 0.2 base_keyframes 3).
  - intros frame v. apply stagger_insert_placed.
  - split; [lia|reflexivity].
  - split; reflexivity.
  - unit_fractions.
  - discriminate.
Defined.

(** ** Stepping through an enum *)

Lemma index_spec (l : list String.string) (x : String.string) :
  match PyList.index l x with
  | inr i => 0 <= i < Z.of_nat (length l) /\ nth_error l (Z.to_nat i) = Some x
  | inl e => e = PyList.ValueError /\ ~ In x l
  end.
Proof.
  induction l as [|y l IH]; cbn [PyList.index].
  - split; [reflexivity|]. intros [].
  - destruct (String.eqb_spec y x) as [->|Hne].
    + split; [cbn [length]; lia|reflexivity].
    + destruct (PyList.index l x) as [e|i].
      * destruct IH as [-> Hn]. split; [reflexivity|]. intros [H|H]; auto.
      * destruct IH as [Hi Hnth]. split; [cbn [length]; lia|].
        replace (Z.to_nat (i + 1)) with (S (Z.to_nat i)) by lia. exact Hnth.
Qed.

(** Without duplicates, an element is found where it is. *)
Lemma index_nth (l : list String.string) (n : nat) (x : String.string) :
  NoDup l -> nth_error l n = Some x -> PyList.index l x = inr (Z.of_nat n).
Proof.
  intros Hnd. revert n. induction Hnd as [|y l Hy _ IH]; intros [|n];
    cbn [nth_error PyList.index]; try discriminate.
  - intros [= ->]. now rewrite String.eqb_refl.
  - intros Hn. destruct (String.eqb_spec y x) as [->|Hne].
    + exfalso. apply Hy. eapply nth_error_In. exact Hn.
    + rewrite (IH n Hn). f_equal. lia.
Qed.

Lemma getitem_nth (l : list String.string) (k : Z) :
  0 <= k < Z.of_nat (length l) ->
  exists x, PyList.getitem l k = inr x /\ nth_error l (Z.to_nat k) = Some x.
Proof.
  intros Hk. unfold PyList.getitem.
  replace (k <? 0) with false by (symmetry; apply Z.ltb_ge; lia).
  replace (k <? 0) with false by (symmetry; apply Z.ltb_ge; lia).
  replace (Z.of_nat (length l) <=? k) with false by (symmetry; apply Z.leb_gt; lia).
  cbn [orb]. destruct (nth_error l (Z.to_nat k)) as [x|] eqn:E.
  - exists x. split; reflexivity.
  - apply nth_error_None in E. lia.
Qed.

(** The step of [CURVE_OT_NextCurve] and [CURVE_OT_PrevCurve] from the
    position [i] of the current value. *)
Lemma curve_step (items : list String.string) (x : String.string) (i : Z) :
  PyList.index items x = inr i ->
  (exists y, CURVE_OT_NextCurve.execute items x = inr y
     /\ nth_error items (Z.to_nat ((i + 1) mod Z.of_nat (length items))) = Some y)
  /\ (exists y, CURVE_OT_PrevCurve.execute items x = inr y
     /\ nth_error items (Z.to_nat ((i - 1) mod Z.of_nat (length items))) = Some y).
Proof.
  intros Hi. pose proof (index_spec items x) as Hs. rewrite Hi in Hs.
  destruct Hs as [Hb _].
  unfold CURVE_OT_NextCurve.execute, CURVE_OT_PrevCurve.execute, PyList.modulo.
  rewrite Hi. replace (Z.of_nat (length items) =? 0) with false
    by (symmetry; apply Z.eqb_neq; lia).
  split; apply getitem_nth; apply Z.mod_pos_bound; lia.
Qed.

Lemma find_current_index_spec (items : list String.string) (x : String.string)
    (i current_index : Z) :
  ANIM_OT_PrevPreset.find_current_index items x i current_index
  = match PyList.index items x with
    | inr k => i + k
    | inl _ => current_index
    end.
Proof.
  revert i. induction items as [|y items IH]; intros i;
    cbn [ANIM_OT_PrevPreset.find_current_index PyList.index]; [reflexivity|].
  destruct (String.eqb y x); [lia|].
  rewrite IH. destruct (PyList.index items x); [reflexivity|lia].
Qed.

(** X5. Next and Prev undo each other: on a list of distinct
    identifiers that holds the current value, [CURVE_OT_NextCurve]
    raises nothing and yields a member of the list from which
    [CURVE_OT_PrevCurve] leads back to the current value, and the other
    way round. *)
Theorem next_prev_round_trip (items : list String.string) (curve_enum : String.string) :
  NoDup items -> In curve_enum items ->
  (exists y, CURVE_OT_NextCurve.execute items curve_enum = inr y /\ In y items
     /\ CURVE_OT_PrevCurve.execute items y = inr curve_enum)
  /\ (exists y, CURVE_OT_PrevCurve.execute items curve_enum = inr y /\ In y items
     /\ CURVE_OT_NextCurve.execute items y = inr curve_enum).
Proof.
  intros Hnd Hin.
  pose proof (index_spec items curve_enum) as Hs.
  destruct (PyList.index items curve_enum) as [e|i] eqn:Hi; [now destruct Hs|].
  destruct Hs as [Hb Hnth].
  set (n := Z.of_nat (length items)) in *.
  destruct (curve_step items curve_enum i Hi) as [(y & Hy & Hyn) (z & Hz & Hzn)].
  fold n in Hyn, Hzn.
  split.
  - exists y. split; [exact Hy|]. split; [eapply nth_error_In; exact Hyn|].
    pose proof (Z.mod_pos_bound (i + 1) n ltac:(lia)) as Hm.
    pose proof (index_nth items _ _ Hnd Hyn) as Ey. rewrite Z2Nat.id in Ey by lia.
    destruct (curve_step items y _ Ey) as [_ (w & Hw & Hwn)]. fold n in Hwn.
    rewrite Hw. f_equal.
    replace ((((i + 1) mod n) - 1) mod n) with i in Hwn; [congruence|].
    rewrite Zminus_mod_idemp_l. replace (i + 1 - 1) with i by lia.
    now rewrite Z.mod_small.
  - exists z. split; [exact Hz|]. split; [eapply nth_error_In; exact Hzn|].
    pose proof (Z.mod_pos_bound (i - 1) n ltac:(lia)) as Hm.
    pose proof (index_nth items _ _ Hnd Hzn) as Ez. rewrite Z2Nat.id in Ez by lia.
    destruct (curve_step items z _ Ez) as [(w & Hw & Hwn) _]. fold n in Hwn.
    rewrite Hw. f_equal.
    replace ((((i - 1) mod n) + 1) mod n) with i in Hwn; [congruence|].
    rewrite Zplus_mod_idemp_l. replace (i - 1 + 1) with i by lia.
    now rewrite Z.mod_small.
Qed.

Lemma next_prev_round_trip_witness :
  (exists y, CURVE_OT_NextCurve.execute
               ["Curve Twist"; "Curve Twist 02"; "NurbsPath Roll"]%string
               "NurbsPath Roll"%string = inr y
     /\ In y ["Curve Twist"; "Curve Twist 02"; "NurbsPath Roll"]%string
     /\ CURVE_OT_PrevCurve.execute
          ["Curve Twist"; "Curve Twist 02"; "NurbsPath Roll"]%string y
        = inr "NurbsPath Roll"%string)
  /\ (exists y, CURVE_OT_PrevCurve.execute
               ["Curve Twist"; "Curve Twist 02"; "NurbsPath Roll"]%string
               "NurbsPath Roll"%string = inr y
     /\ In y ["Curve Twist"; "Curve Twist 02"; "NurbsPath Roll"]%string
     /\ CURVE_OT_NextCurve.execute
          ["Curve Twist"; "Curve Twist 02"; "NurbsPath Roll"]%string y
        = inr "NurbsPath Roll"%string).
Proof.
  apply (next_prev_round_trip
           ["Curve Twist"; "Curve Twist 02"; "NurbsPath Roll"]%string
           "NurbsPath Roll"%string).
  - repeat constructor; cbn [In]; intros H;
      repeat (destruct H as [H|H]; [discriminate H|]); exact H.
  - cbn [In]. auto.
Defined.

Lemma presses_next (items : list String.string) :
  NoDup items ->
  forall (j : nat) x i, PyList.index items x = inr i ->
    exists y, presses j (CURVE_OT_NextCurve.execute items) x = inr y
      /\ nth_error items (Z.to_nat ((i + Z.of_nat j) mod Z.of_nat (length items)))
         = Some y.
Proof.
  intros Hnd. set (n := Z.of_nat (length items)).
  induction j as [|j IH]; intros x i Hi;
    pose proof (index_spec items x) as Hs; rewrite Hi in Hs; destruct Hs as [Hb Hnth];
    fold n in Hb.
  - exists x. split; [reflexivity|]. cbn [Z.of_nat]. rewrite Z.add_0_r.
    now rewrite Z.mod_small.
  - destruct (curve_step items x i Hi) as [(y & Hy & Hyn) _]. fold n in Hyn.
    pose proof (Z.mod_pos_bound (i + 1) n ltac:(lia)) as Hm.
    pose proof (index_nth items _ _ Hnd Hyn) as Ey. rewrite Z2Nat.id in Ey by lia.
    destruct (IH y _ Ey) as (z & Hz & Hzn).
    exists z. cbn [presses]. rewrite Hy. split; [exact Hz|].
    rewrite Zplus_mod_idemp_l in Hzn.
    replace (i + Z.of_nat (S j)) with (i + 1 + Z.of_nat j) by lia. exact Hzn.
Qed.

Lemma presses_prev (items : list String.string) :
  NoDup items ->
  forall (j : nat) x i, PyList.index items x = inr i ->
    exists y, presses j (CURVE_OT_PrevCurve.execute items) x = inr y
      /\ nth_error items (Z.to_nat ((i - Z.of_nat j) mod Z.of_nat (length items)))
         = Some y.
Proof.
  intros Hnd. set (n := Z.of_nat (length items)).
  induction j as [|j IH]; intros x i Hi;
    pose proof (index_spec items x) as Hs; rewrite Hi in Hs; destruct Hs as [Hb Hnth];
    fold n in Hb.
  - exists x. split; [reflexivity|]. cbn [Z.of_nat]. rewrite Z.sub_0_r.
    now rewrite Z.mod_small.
  - destruct (curve_step items x i Hi) as [_ (y & Hy & Hyn)]. fold n in Hyn.
    pose proof (Z.mod_pos_bound (i - 1) n ltac:(lia)) as Hm.
    pose proof (index_nth items _ _ Hnd Hyn) as Ey. rewrite Z2Nat.id in Ey by lia.
    destruct (IH y _ Ey) as (z & Hz & Hzn).
    exists z. cbn [presses]. rewrite Hy. split; [exact Hz|].
    rewrite Zminus_mod_idemp_l in Hzn.
    replace (i - Z.of_nat (S j)) with (i - 1 - Z.of_nat j) by lia. exact Hzn.
Qed.

(** X6. One press per item closes the cycle: on a list of distinct
    identifiers that holds the current value, as many presses of Next
    as the list has items raise nothing and end on the current value
    again, and so do as many presses of Prev. *)
Theorem presses_cycle (items : list String.string) (curve_enum : String.string) :
  NoDup items -> In curve_enum items ->
  presses (length items) (CURVE_OT_NextCurve.execute items) curve_enum = inr curve_enum
  /\ presses (length items) (CURVE_OT_PrevCurve.execute items) curve_enum
     = inr curve_enum.
Proof.
  intros Hnd Hin.
  pose proof (index_spec items curve_enum) as Hs.
  destruct (PyList.index items curve_enum) as [e|i] eqn:Hi; [now destruct Hs|].
  destruct Hs as [Hb Hnth].
  destruct (presses_next items Hnd (length items) _ _ Hi) as (y & -> & Hy).
  destruct (presses_prev items Hnd (length items) _ _ Hi) as (z & -> & Hz).
  replace ((i + Z.of_nat (length items)) mod Z.of_nat (length items)) with i in Hy.
  - replace ((i - Z.of_nat (length items)) mod Z.of_nat (length items)) with i in Hz.
    + split; congruence.
    + replace (i - Z.of_nat (length items)) with (i + (-1) * Z.of_nat (length items))
        by lia.
      rewrite Z.mod_add by lia. now rewrite Z.mod_small.
  - replace (i + Z.of_nat (length items)) with (i + 1 * Z.of_nat (length items)) by lia.
    rewrite Z.mod_add by lia. now rewrite Z.mod_small.
Qed.

Lemma presses_cycle_witness :
  presses (length ["Curve Twist"; "Curve Twist 02"; "NurbsPath Roll"]%string)
    (CURVE_OT_NextCurve.execute ["Curve Twist"; "Curve Twist 02"; "NurbsPath Roll"]%string)
    "Curve Twist 02"%string = inr "Curve Twist 02"%string
  /\ presses (length ["Curve Twist"; "Curve Twist 02"; "NurbsPath Roll"]%string)
       (CURVE_OT_PrevCurve.execute ["Curve Twist"; "Curve Twist 02"; "NurbsPath Roll"]%string)
       "Curve Twist 02"%string = inr "Curve Twist 02"%string.
Proof.
  apply (presses_cycle ["Curve Twist"; "Curve Twist 02"; "NurbsPath Roll"]%string
           "Curve Twist 02"%string).
  - repeat constructor; cbn [In]; intros H;
      repeat (destruct H as [H|H]; [discriminate H|]); exact H.
  - cbn [In]. auto.
Defined.

(** X7. The two ways of stepping agree on the values of the list: for
    a current value in the list, the search loop and the explicit wrap of
    [ANIM_OT_PrevPreset] and [ANIM_OT_NextPreset] give what [index] and
    [%] give in [CURVE_OT_PrevCurve] and [CURVE_OT_NextCurve]. *)
Theorem preset_steps_as_curve_steps (items : list String.string) (x : String.string) :
  In x items ->
  ANIM_OT_NextPreset.execute items x = CURVE_OT_NextCurve.execute items x
  /\ ANIM_OT_PrevPreset.execute items x = CURVE_OT_PrevCurve.execute items x.
Proof.
  intros Hin. pose proof (index_spec items x) as Hs.
  unfold ANIM_OT_NextPreset.execute, ANIM_OT_PrevPreset.execute,
    CURVE_OT_NextCurve.execute, CURVE_OT_PrevCurve.execute.
  rewrite !find_current_index_spec.
  destruct (PyList.index items x) as [e|i] eqn:Hi; [now destruct Hs|].
  destruct Hs as [Hb Hnth].
  rewrite Z.add_0_l. split; [reflexivity|].
  unfold PyList.modulo.
  replace (Z.of_nat (length items) =? 0) with false
    by (symmetry; apply Z.eqb_neq; lia).
  f_equal. destruct (Z.ltb_spec (i - 1) 0) as [Hlt|Hge].
  - apply (Z.mod_unique (i - 1) (Z.of_nat (length items)) (-1)); lia.
  - rewrite Z.mod_small; lia.
Qed.

Lemma preset_steps_as_curve_steps_witness :
  ANIM_OT_NextPreset.execute ["PRESET_A"; "PRESET_B"; "PRESET_C"]%string
    "PRESET_A"%string
  = CURVE_OT_NextCurve.execute ["PRESET_A"; "PRESET_B"; "PRESET_C"]%string
      "PRESET_A"%string
  /\ ANIM_OT_PrevPreset.execute ["PRESET_A"; "PRESET_B"; "PRESET_C"]%string
       "PRESET_A"%string
     = CURVE_OT_PrevCurve.execute ["PRESET_A"; "PRESET_B"; "PRESET_C"]%string
         "PRESET_A"%string.
Proof.
  apply (preset_steps_as_curve_steps ["PRESET_A"; "PRESET_B"; "PRESET_C"]%string
           "PRESET_A"%string).
  cbn [In]. auto.
Defined.

(** X8. They differ on a current value that is not in the list: the
    curve operators raise [ValueError], while the preset operators,
    whose search leaves [current_index] at 0, step as if the first item
    were current. *)
Theorem steps_from_unknown_value (items : list String.string)
    (x first : String.string) :
  ~ In x items -> hd_error items = Some first ->
  CURVE_OT_NextCurve.execute items x = inl PyList.ValueError
  /\ CURVE_OT_PrevCurve.execute items x = inl PyList.ValueError
  /\ ANIM_OT_NextPreset.execute items x = ANIM_OT_NextPreset.execute items first
  /\ ANIM_OT_PrevPreset.execute items x = ANIM_OT_PrevPreset.execute items first.
Proof.
  intros Hn Hf. pose proof (index_spec items x) as Hs.
  unfold ANIM_OT_NextPreset.execute, ANIM_OT_PrevPreset.execute,
    CURVE_OT_NextCurve.execute, CURVE_OT_PrevCurve.execute.
  rewrite !find_current_index_spec.
  destruct (PyList.index items x) as [e|i] eqn:Hi.
  - destruct Hs as [-> _]. split; [reflexivity|]. split; [reflexivity|].
    destruct items as [|y items]; [discriminate|].
    injection Hf as ->. cbn [PyList.index]. rewrite String.eqb_refl.
    split; reflexivity.
  - destruct Hs as [_ Hnth]. exfalso. apply Hn. eapply nth_error_In. exact Hnth.
Qed.

Lemma steps_from_unknown_value_witness :
  CURVE_OT_NextCurve.execute ["PRESET_A"; "PRESET_B"; "PRESET_C"]%string "NONE"%string
  = inl PyList.ValueError
  /\ CURVE_OT_PrevCurve.execute ["PRESET_A"; "PRESET_B"; "PRESET_C"]%string
       "NONE"%string
     = inl PyList.ValueError
  /\ ANIM_OT_NextPreset.execute ["PRESET_A"; "PRESET_B"; "PRESET_C"]%string
       "NONE"%string
     = ANIM_OT_NextPreset.execute ["PRESET_A"; "PRESET_B"; "PRESET_C"]%string
         "PRESET_A"%string
  /\ ANIM_OT_PrevPreset.execute ["PRESET_A"; "PRESET_B"; "PRESET_C"]%string
       "NONE"%string
     = ANIM_OT_PrevPreset.execute ["PRESET_A"; "PRESET_B"; "PRESET_C"]%string
         "PRESET_A"%string.
Proof.
  apply (steps_from_unknown_value ["PRESET_A"; "PRESET_B"; "PRESET_C"]%string
           "NONE"%string "PRESET_A"%string).
  - cbn [In]. intros H. repeat (destruct H as [H|H]; [discriminate H|]). exact H.
  - reflexivity.
Defined.

(** ** The tally of the curve operator *)

Lemma for_objects_tally (settings : CURVE_PG_AnimationProperties)
    (options : transform_options) (duration : Z) (spacing_offset : option float)
    (selected_objects : list animated_object) :
  forall (i : nat) (t t' : tally),
    for_objects settings options duration spacing_offset i selected_objects t = t' ->
    (fst t' + length (snd t') = fst t + length (snd t) + length selected_objects)%nat
    /\ exists more, snd t' = snd t ++ more /\ incl more (map name selected_objects).
Proof.
  induction selected_objects as [|obj rest IH]; intros i [sc failed] t' H.
  - cbn [for_objects] in H. subst t'. cbn [fst snd length]. split; [lia|].
    exists []. split; [now rewrite app_nil_r|]. intros x [].
  - cbn [for_objects] in H.
    destruct (animate_object settings options duration spacing_offset i obj)
      as [[keys|]|e];
      apply IH in H; cbn [fst snd length map] in *; destruct H as [Hc (more & Hm & Hi)].
    + split; [lia|]. exists more. split; [exact Hm|]. now apply incl_tl.
    + rewrite length_app in Hc. cbn [length] in Hc. split; [lia|].
      exists (name obj :: more). rewrite <- app_assoc in Hm. split; [exact Hm|].
      apply incl_cons; [now left|now apply incl_tl].
    + rewrite length_app in Hc. cbn [length] in Hc. split; [lia|].
      exists (name obj :: more). rewrite <- app_assoc in Hm. split; [exact Hm|].
      apply incl_cons; [now left|now apply incl_tl].
Qed.

(** X9. Every selected object is counted once: when [execute] reaches
    its loop, the successes and the failed names add up to the number
    of selected objects and the failed names are names of selected
    objects.  If the curve object is in no collection, the operator
    finishes exactly when at least one object succeeded and its report
    is at level INFO exactly when none failed; if the curve object is
    in a collection, [update_curve_visibility] raises and the operator
    is cancelled with a report at level ERROR, whatever the tally. *)
Theorem execute_tally (host : assets) (settings : CURVE_PG_AnimationProperties)
    (options : transform_options) (selected_objects : list animated_object)
    (duration : Z) (s : status) (l : level) (success_count : nat)
    (failed_objects : list nat) :
  Operator.execute host settings options selected_objects duration
  = (s, l, Some (success_count, failed_objects)) ->
  (success_count + length failed_objects = length selected_objects)%nat
  /\ incl failed_objects (map name selected_objects)
  /\ (curve_users_collection host = O ->
      (s = FINISHED <-> (0 < success_count)%nat)
      /\ (l = INFO <-> failed_objects = []))
  /\ (curve_users_collection host <> O -> s = CANCELLED /\ l = ERROR).
Proof.
  unfold Operator.execute, validate_inputs.
  destruct (Nat.eqb_spec (length selected_objects) 0) as [|Hlen]; [discriminate|].
  destruct (duration <? 1); [discriminate|].
  destruct (assets_folder_found host); cbn [negb]; [|discriminate].
  destruct (blend_file_exists host); cbn [negb]; [|discriminate].
  destruct (curve_loaded host); cbn [negb]; [|discriminate].
  destruct (curve_users_collection host) as [|k]; cbn [update_curve_visibility].
  - intros H. injection H as Hr Ht. rewrite Ht in Hr.
    apply for_objects_tally in Ht. cbn [fst snd length app] in Ht.
    destruct Ht as [Hc (more & -> & Hi)].
    split; [lia|]. split; [exact Hi|]. split; [intros _|intros H; now contradiction H].
    unfold report_results in Hr. cbv beta iota in Hr.
    destruct (Nat.eqb_spec success_count (length selected_objects)) as [He|Hne].
    + injection Hr as <- <-. split; split; try reflexivity; try lia.
      intros _. destruct more; [reflexivity|cbn [length] in Hc; lia].
    + destruct (Nat.ltb_spec 0 success_count) as [Hp|Hz]; injection Hr as <- <-.
      * split; split; try reflexivity; try discriminate; try lia.
        intros ->. cbn [length] in Hc. lia.
      * split; split; try discriminate; try lia.
        intros ->. cbn [length] in Hc. lia.
  - intros H. injection H as <- <- Ht.
    apply for_objects_tally in Ht. cbn [fst snd length app] in Ht.
    destruct Ht as [Hc (more & -> & Hi)].
    split; [lia|]. split; [exact Hi|]. split; [discriminate|].
    intros _. split; reflexivity.
Qed.

Lemma execute_tally_witness :
  (1 + length [7%nat] = length
     [ {| name := 3; constraints_ok := true; following_ok := true |};
       {| name := 7; constraints_ok := false; following_ok := true |} ])%nat
  /\ incl [7%nat]
       (map name
          [ {| name := 3; constraints_ok := true; following_ok := true |};
            {| name := 7; constraints_ok := false; following_ok := true |} ])
  /\ (curve_users_collection
        {| assets_folder_found := true; blend_file_exists := true;
           curve_loaded := true; curve_users_collection := 0 |} = O ->
      (FINISHED = FINISHED <-> (0 < 1)%nat)
      /\ (WARNING = INFO <-> [7%nat] = []))
  /\ (curve_users_collection
        {| assets_folder_found := true; blend_file_exists := true;
           curve_loaded := true; curve_users_collection := 0 |} <> O ->
      FINISHED = CANCELLED /\ WARNING = ERROR).
Proof.
  apply (execute_tally
           {| assets_folder_found := true; blend_file_exists := true;
              curve_loaded := true; curve_users_collection := 0 |}
           (looping 1.0 false PING_PONG 0.1)
           {| spacing := 5.0; follow_curve := true;
              additional_rotation := (0, 0, 0)%float;
              scale_animation := true; scale_factor := (2, 2, 2)%float |}
           [ {| name := 3; constraints_ok := true; following_ok := true |};
             {| name := 7; constraints_ok := false; following_ok := true |} ]
           30 FINISHED WARNING 1 [7%nat]).
  vm_compute. reflexivity.
Defined.

(** ** The scale animation of the curve operator *)

(** Half a duration, truncated. *)
Lemma half_duration (d : Z) :
  0 <= d < 2 ^ 53 ->
  exists x, int_mul_float d 0.5 = Ok x /\ Py.int x = Ok (d / 2).
Proof.
  intros Hd. destruct (float_of_int_53 d Hd) as (fd & Hfd & Nd & Vd).
  unfold int_mul_float. rewrite Hfd. cbn [Py.bind]. eexists; split; [reflexivity|].
  destruct (unit_interval_scaled 0.5) as [Nt Ht]; [reflexivity|reflexivity|].
  destruct (mul_nonneg_value fd 0.5 Nd Nt Ht) as [Np Hp].
  rewrite (int_nonneg 2148) by (auto; lia). f_equal. rewrite Hp, Vd.
  replace (SFscaled 1074 (Prim2SF 0.5)) with (2 ^ 1073) by (vm_compute; reflexivity).
  rewrite <- Z.mul_assoc, <- Z.pow_add_r by lia.
  change (1074 + 1073) with (-1 + 2148).
  destruct (Z.eq_dec d 0) as [->|Hnz].
  - rewrite Z.mul_0_l, round_grid_0 by lia. reflexivity.
  - pose proof (Zdigits2_le d 53 ltac:(lia) (proj2 Hd)).
    rewrite round_grid_exact by (unfold fexp64; lia).
    change (-1 + 2148) with 2147. change (2 ^ 2148) with (2 * 2 ^ 2147).
    assert (0 < 2 ^ 2147) by (apply Z.pow_pos_nonneg; lia).
    rewrite Z.div_mul_cancel_r by lia. reflexivity.
Qed.

(** X10. The scale animation of an object is aligned with its motion
    along the curve: for a duration of 0 to [2 ^ 53 - 1] frames, when
    [apply_animation] inserts its keys, [apply_scale_animation] raises
    nothing and keys scale 1 on the frame of the first offset key, the
    scale factor [duration // 2] frames later, and scale 1 again
    [duration] frames after the first. *)
Theorem scale_animation_frames (scale_factor : vec3) (duration : Z)
    (time_offset : option float) (settings : CURVE_PG_AnimationProperties)
    (ks : list offset_key) :
  0 <= duration < 2 ^ 53 ->
  apply_animation duration time_offset settings = Ok ks ->
  exists start_frame,
    option_map fst (hd_error ks) = Some start_frame
    /\ apply_scale_animation scale_factor duration time_offset
       = Ok [ insert_keyframe scale start_frame (1, 1, 1)%float;
              insert_keyframe scale (start_frame + duration / 2) scale_factor;
              insert_keyframe scale (start_frame + duration) (1, 1, 1)%float ].
Proof.
  intros Hd. unfold apply_animation, apply_scale_animation.
  destruct (half_duration duration Hd) as (x & Hx & Hh).
  destruct (match time_offset with
            | Some t => x0 <- int_mul_float duration t ;; Py.int x0
            | None => Ok (0 * duration)
            end) as [shift|e]; cbn [Py.bind]; [|discriminate].
  rewrite Hx. cbn [Py.bind]. rewrite Hh. cbn [Py.bind].
  unfold offset_factor_keyframes.
  match goal with |- Py.bind ?r _ = _ -> _ => destruct r as [rest|e] end;
    cbn [Py.bind]; [|discriminate].
  intros [= <-]. exists (1 + shift). split; reflexivity.
Qed.

Lemma scale_animation_frames_witness :
  exists start_frame,
    option_map fst (hd_error [ (16, 0.0%float); (46, 1.0%float); (76, 0.0%float) ])
    = Some start_frame
    /\ apply_scale_animation (2, 2, 2)%float 30 (Some 0.5%float)
       = Ok [ insert_keyframe scale start_frame (1, 1, 1)%float;
              insert_keyframe scale (start_frame + 30 / 2) (2, 2, 2)%float;
              insert_keyframe scale (start_frame + 30) (1, 1, 1)%float ].
Proof.
  apply (scale_animation_frames (2, 2, 2)%float 30 (Some 0.5%float)
           (looping 1.0 false PING_PONG 0.1)
           [ (16, 0.0%float); (46, 1.0%float); (76, 0.0%float) ]).
  - split; [lia|reflexivity].
  - vm_compute. reflexivity.
Defined.

(** ** Reversing the direction *)

(** X11. Reversing the direction mirrors the motion: unless the loop
    type in force is OFFSET, [apply_animation] with [reverse_direction]
    flipped raises exactly when it raised before and otherwise inserts
    keys on the same frames, each offset factor [f] replaced by
    [1 - f]. *)
Theorem reverse_mirrors (duration : Z) (time_offset : option float)
    (settings : CURVE_PG_AnimationProperties) :
  loop_animation settings = false \/ loop_type settings <> OFFSET ->
  apply_animation duration time_offset (reversed settings)
  = match apply_animation duration time_offset settings with
    | Ok ks => Ok (mirrored ks)
    | Raise e => Raise e
    end.
Proof.
  intros H. destruct settings as [speed reverse loop lt offset].
  unfold apply_animation, reversed, offset_factor_keyframes.
  cbn [reverse_direction loop_animation loop_type loop_offset speed_factor] in *.
  destruct (match time_offset with
            | Some t => x0 <- int_mul_float duration t ;; Py.int x0
            | None => Ok (0 * duration)
            end) as [shift|e]; cbn [Py.bind]; [|reflexivity].
  destruct loop; [destruct lt|];
    try (destruct H as [H|H]; [discriminate H|now contradiction H]);
    destruct reverse; reflexivity.
Qed.

Lemma reverse_mirrors_witness :
  apply_animation 30 None (reversed (looping 1.0 false PING_PONG 0.1))
  = match apply_animation 30 None (looping 1.0 false PING_PONG 0.1) with
    | Ok ks => Ok (mirrored ks)
    | Raise e => Raise e
    end.
Proof.
  apply (reverse_mirrors 30 None (looping 1.0 false PING_PONG 0.1)).
  right. discriminate.
Defined.

(** ** The key that ends the motion and the preview range *)

(** X12. At the default speed 1.0 and without spacing, the keys of
    [apply_animation] run past the preview range that [execute] sets
    from [total_duration]: for a duration of 0 to [2 ^ 53 - 1] frames
    the last key lies on frame [total_duration + 1], one frame after
    the range, unless an OFFSET loop is in force, whose last key lies on
    frame [total_duration - duration + 1]. *)
Theorem last_key_and_preview_range (duration : Z)
    (settings : CURVE_PG_AnimationProperties) :
  0 <= duration < 2 ^ 53 ->
  speed_factor settings = 1.0%float ->
  exists ks,
    (d <- adjusted_duration duration settings ;;
     apply_animation d None settings) = Ok ks
    /\ last (map fst ks) 0
       = if loop_animation settings
         then match loop_type settings with
              | OFFSET => total_duration duration settings - duration + 1
              | _ => total_duration duration settings + 1
              end
         else total_duration duration settings + 1.
Proof.
  intros Hd Hs.
  destruct (halves_at_double_speed settings duration Hd) as [H1 _].
  assert (Ha : adjusted_duration duration settings = Ok duration).
  { rewrite <- H1. unfold adjusted_duration, with_speed. cbn [speed_factor].
    now rewrite Hs. }
  rewrite Ha. cbn [Py.bind].
  unfold apply_animation, offset_factor_keyframes, total_duration. cbn [Py.bind].
  unfold _create_repeat_animation, _create_ping_pong_animation.
  destruct (loop_animation settings); [destruct (loop_type settings)|];
    cbn [Py.bind].
  - eexists; split; [reflexivity|]. cbn [map fst last]. lia.
  - eexists; split; [reflexivity|]. cbn [map fst last]. lia.
  - unfold _create_offset_animation, offset_cycle.
    destruct float_of_int_small as (_ & E1 & E2 & E3).
    unfold int_mul_float. rewrite E1, E2, E3. cbn [Py.bind].
    eexists; split; [reflexivity|]. cbn [map fst last]. lia.
  - eexists; split; [reflexivity|]. cbn [map fst last]. lia.
Qed.

Lemma last_key_and_preview_range_witness :
  exists ks,
    (d <- adjusted_duration 30 (looping 1.0 false PING_PONG 0.1) ;;
     apply_animation d None (looping 1.0 false PING_PONG 0.1)) = Ok ks
    /\ last (map fst ks) 0
       = if loop_animation (looping 1.0 false PING_PONG 0.1)
         then match loop_type (looping 1.0 false PING_PONG 0.1) with
              | OFFSET => total_duration 30 (looping 1.0 false PING_PONG 0.1) - 30 + 1
              | _ => total_duration 30 (looping 1.0 false PING_PONG 0.1) + 1
              end
         else total_duration 30 (looping 1.0 false PING_PONG 0.1) + 1.
Proof.
  apply (last_key_and_preview_range 30 (looping 1.0 false PING_PONG 0.1)).
  - split; [lia|reflexivity].
  - reflexivity.
Defined.

(** ** animate_along_curve.py *)

(** X13. [ANIM_OT_animate_along_curve] finishes only when a target
    curve is set, there is an active object, the target is a curve and
    the start frame is before the end frame; it then leaves a path
    duration of at least one frame, which is the distance between its
    two keys, factor 0.0 on the start frame and 1.0 on the end frame. *)
Theorem animate_along_curve_finished (target_curve active_object curve_is_curve : bool)
    (start_frame end_frame : Z) (r : ANIM_OT_animate_along_curve.applied) :
  ANIM_OT_animate_along_curve.invoke target_curve active_object curve_is_curve
    start_frame end_frame = inr r ->
  target_curve = true /\ active_object = true /\ curve_is_curve = true
  /\ start_frame < end_frame
  /\ 1 <= ANIM_OT_animate_along_curve.path_duration r
  /\ ANIM_OT_animate_along_curve.offset_factor_keys r
     = [ (start_frame, 0.0%float);
         (start_frame + ANIM_OT_animate_along_curve.path_duration r, 1.0%float) ].
Proof.
  unfold ANIM_OT_animate_along_curve.invoke, ANIM_OT_animate_along_curve.execute.
  destruct target_curve, active_object, curve_is_curve; cbn [negb];
    try discriminate.
  destruct (Z.leb_spec end_frame start_frame) as [Hle|Hlt]; [discriminate|].
  intros [= <-]. cbn [ANIM_OT_animate_along_curve.path_duration
                      ANIM_OT_animate_along_curve.offset_factor_keys].
  repeat split; try lia. repeat f_equal. lia.
Qed.

Lemma animate_along_curve_finished_witness :
  true = true /\ true = true /\ true = true /\ 1 < 250
  /\ 1 <= ANIM_OT_animate_along_curve.path_duration
            {| ANIM_OT_animate_along_curve.path_duration := 249;
               ANIM_OT_animate_along_curve.offset_factor_keys :=
                 [ (1, 0.0%float); (250, 1.0%float) ] |}
  /\ ANIM_OT_animate_along_curve.offset_factor_keys
       {| ANIM_OT_animate_along_curve.path_duration := 249;
          ANIM_OT_animate_along_curve.offset_factor_keys :=
            [ (1, 0.0%float); (250, 1.0%float) ] |}
     = [ (1, 0.0%float);
         (1 + ANIM_OT_animate_along_curve.path_duration
                {| ANIM_OT_animate_along_curve.path_duration := 249;
                   ANIM_OT_animate_along_curve.offset_factor_keys :=
                     [ (1, 0.0%float); (250, 1.0%float) ] |}, 1.0%float) ].
Proof.
  apply (animate_along_curve_finished true true true 1 250
           {| ANIM_OT_animate_along_curve.path_duration := 249;
              ANIM_OT_animate_along_curve.offset_factor_keys :=
                [ (1, 0.0%float); (250, 1.0%float) ] |}).
  reflexivity.
Defined.

(** ** Products and quotients that stay in range *)

Lemma below_nonneg (M : Z) (x : spec_float) : SFbelow M x -> SFnonneg x.
Proof. destruct x; cbn [SFbelow SFnonneg]; tauto. Qed.

Lemma valid_below (x : float) (p : positive) (e2 B : Z) :
  Prim2SF x = S754_finite false p e2 -> e2 <= B ->
  SFbelow (53 + B) (Prim2SF x).
Proof.
  intros E He. rewrite E. cbn [SFbelow]. split; [reflexivity|].
  destruct (valid_finite x _ _ _ E) as [C _]. unfold fexp64 in C. lia.
Qed.

Lemma mul_below (x y : float) (Mx My : Z) :
  SFbelow Mx (Prim2SF x) -> SFbelow My (Prim2SF y) -> Mx + My <= 1023 ->
  SFbelow (Z.max (Mx + My + 1) (-1020)) (Prim2SF (x * y)).
Proof.
  intros Bx By HM.
  destruct (Prim2SF x) as [sx|sx| |sx mx ex] eqn:Ex; cbn [SFbelow] in Bx;
    try contradiction;
    destruct (Prim2SF y) as [sy|sy| |sy my ey] eqn:Ey; cbn [SFbelow] in By;
    try contradiction.
  1-3: rewrite mul_spec, Ex, Ey; exact I.
  destruct Bx as [-> Bx], By as [-> By].
  destruct (valid_finite x _ _ _ Ex) as [Cx _].
  destruct (valid_finite y _ _ _ Ey) as [Cy _].
  pose proof (product_has_digits mx my ex ey Cx Cy) as Hpre.
  pose proof (digits2_pos_bounds mx) as [_ Ux].
  pose proof (digits2_pos_bounds my) as [_ Uy].
  assert (Hdig : Zdigits2 (Zpos (mx * my))
                 <= Zpos (digits2_pos mx) + Zpos (digits2_pos my)).
  { apply Zdigits2_le; [lia|]. rewrite Pos2Z.inj_mul, Z.pow_add_r by lia.
    apply Z.mul_lt_mono_nonneg; lia. }
  pose proof (fexp64_mono _ _ (Zplus_le_compat_r _ _ (ex + ey) Hdig)) as Hmono.
  pose proof (binary_round_aux_bound false (Zpos (mx * my)) (ex + ey) loc_Exact
                ltac:(lia)) as Hb.
  assert (Hp : Prim2SF (x * y)
               = binary_round_aux prec emax false (Zpos (mx * my)) (ex + ey) loc_Exact)
    by (rewrite mul_spec, Ex, Ey; reflexivity).
  rewrite <- Hp in Hb.
  destruct (Prim2SF (x * y)) as [s|s| |s p e2] eqn:Ep.
  - exact I.
  - destruct Hb as [_ Hb]. unfold fexp64 in Hmono, Hb, Hpre. lia.
  - contradiction.
  - destruct Hb as (-> & He2 & _).
    destruct (valid_finite (x * y) _ _ _ Ep) as [C _].
    cbn [SFbelow]. split; [reflexivity|]. unfold fexp64 in *. lia.
Qed.

Lemma div_below (x y : float) (my : positive) (ey Mx L : Z) :
  SFbelow Mx (Prim2SF x) -> Prim2SF y = S754_finite false my ey ->
  L <= Zpos (digits2_pos my) + ey -> Mx - L <= 1022 ->
  SFbelow (Z.max (Mx - L + 2) (-1020)) (Prim2SF (x / y)).
Proof.
  intros Bx Ey HL HM.
  destruct (Prim2SF x) as [sx|sx| |sx mx ex] eqn:Ex; cbn [SFbelow] in Bx;
    try contradiction.
  { rewrite div_spec, Ex, Ey. exact I. }
  destruct Bx as [-> Bx].
  pose proof (div_finite_bound x y mx my ex ey Ex Ey) as Hb. cbn zeta in Hb.
  assert (HX : fexp64 (Zpos (digits2_pos mx) + ex - (Zpos (digits2_pos my) + ey) + 1)
               <= fexp64 (Mx - L + 1)) by (apply fexp64_mono; lia).
  destruct (Prim2SF (x / y)) as [s|s| |s p e2] eqn:Ep.
  - exact I.
  - destruct Hb as [_ Hb]. unfold fexp64 in *. lia.
  - contradiction.
  - destruct Hb as (-> & He2 & _).
    destruct (valid_finite (x / y) _ _ _ Ep) as [C _].
    cbn [SFbelow]. split; [reflexivity|]. unfold fexp64 in *. lia.
Qed.

(** The float of an int below [2 ^ k]. *)
Lemma float_of_int_below (i k : Z) :
  0 <= i < 2 ^ k -> 0 <= k <= 1022 ->
  exists fi, float_of_int i = Ok fi /\ SFbelow (k + 1) (Prim2SF fi).
Proof.
  intros [H0 Hlt] Hk.
  assert (Hp : 0 < 2 ^ 1074) by (apply Z.pow_pos_nonneg; lia).
  destruct (float_of_int_nonneg i) as (fi & Hfi & Ni & Vi).
  { split; [lia|]. apply Z.lt_le_trans with (2 ^ k); [lia|].
    apply Z.pow_le_mono_r; lia. }
  exists fi. split; [exact Hfi|].
  destruct (Prim2SF fi) as [s|s| |s m e] eqn:E; cbn [SFnonneg] in Ni;
    try contradiction; [exact I|].
  subst s. cbn [SFbelow]. split; [reflexivity|].
  cbn [SFscaled cond_Zopp] in Vi.
  destruct (valid_finite fi _ _ _ E) as [C _].
  pose proof (canonical_bounds _ _ C) as (L & _ & _).
  pose proof (digits2_pos_bounds m) as [Lm _].
  assert (Hle : Zpos m * 2 ^ (e + 1074) <= 1 * 2 ^ (k + 1074)).
  { rewrite Vi, <- (round_grid_exact 1074 1 k)
      by (unfold fexp64; cbn [Zdigits2 digits2_pos]; lia).
    apply round_grid_mono; [lia|]. split; [lia|].
    rewrite Z.mul_1_l, Z.pow_add_r by lia.
    apply Z.mul_le_mono_nonneg_r; lia. }
  assert (Hlow : 2 ^ (Zpos (digits2_pos m) - 1 + (e + 1074))
                 <= Zpos m * 2 ^ (e + 1074)).
  { rewrite Z.pow_add_r by lia.
    apply Z.mul_le_mono_nonneg_r; [apply Z.pow_nonneg; lia|exact Lm]. }
  assert (Hpow : 2 ^ (Zpos (digits2_pos m) - 1 + (e + 1074)) <= 2 ^ (k + 1074)) by lia.
  apply Z.pow_le_mono_r_iff in Hpow; lia.
Qed.

(** The float of an int that is at least 1 is finite, positive and at
    least 1. *)
Lemma float_of_int_ge_1 (d : Z) :
  1 <= d < 2 ^ 1023 ->
  exists fd md ed, float_of_int d = Ok fd /\ Prim2SF fd = S754_finite false md ed
    /\ 1 <= Zpos (digits2_pos md) + ed.
Proof.
  intros [H1 Hlt].
  assert (Hp : 0 < 2 ^ 1074) by (apply Z.pow_pos_nonneg; lia).
  destruct (float_of_int_nonneg d ltac:(lia)) as (fd & Hfd & Nd & Vd).
  assert (Hge : 1 * 2 ^ (0 + 1074) <= SFscaled 1074 (Prim2SF fd)).
  { rewrite Vd, <- (round_grid_exact 1074 1 0) by (cbn; lia).
    apply round_grid_mono; [lia|]. split; [cbn; lia|].
    rewrite Z.add_0_l. apply Z.mul_le_mono_nonneg_r; lia. }
  rewrite Z.mul_1_l, Z.add_0_l in Hge.
  destruct (Prim2SF fd) as [s|s| |s m e] eqn:E; cbn [SFnonneg] in Nd;
    try contradiction; cbn [SFscaled] in Hge; try lia.
  subst s. cbn [cond_Zopp] in Hge. exists fd, m, e.
  split; [exact Hfd|]. split; [exact E|].
  destruct (valid_finite fd _ _ _ E) as [C _].
  pose proof (canonical_bounds _ _ C) as (L & _ & _).
  pose proof (digits2_pos_bounds m) as [_ Um].
  assert (Hup : Zpos m * 2 ^ (e + 1074) < 2 ^ (Zpos (digits2_pos m) + (e + 1074))).
  { rewrite (Z.pow_add_r 2 (Zpos (digits2_pos m)) (e + 1074)) by lia.
    apply Z.mul_lt_mono_pos_r; [|exact Um].
    apply Z.pow_pos_nonneg; lia. }
  assert (Hpow : 2 ^ 1074 < 2 ^ (Zpos (digits2_pos m) + (e + 1074))) by lia.
  apply Z.pow_lt_mono_r_iff in Hpow; lia.
Qed.

(** A spacing above 0 and at most 10, the most its property allows. *)
Lemma spacing_below (sp : float) :
  (0 <? sp)%float = true -> (sp <=? 10)%float = true ->
  SFbelow 4 (Prim2SF sp).
Proof.
  intros H0 H10.
  assert (Hp : 0 < 2 ^ 1074) by (apply Z.pow_pos_nonneg; lia).
  assert (Hn : SFnonneg (Prim2SF sp)).
  { destruct (leb_0_nonneg sp) as [Hn|Hinf]; [|exact Hn|].
    - rewrite leb_spec. rewrite ltb_spec in H0. unfold SFleb, SFltb in *.
      destruct (SFcompare (Prim2SF 0) (Prim2SF sp)) as [[| |]|]; try discriminate;
        reflexivity.
    - rewrite leb_spec, Hinf in H10. discriminate H10. }
  assert (Hv : SFscaled 1074 (Prim2SF sp) <= 10 * 2 ^ 1074).
  { replace (10 * 2 ^ 1074) with (SFscaled 1074 (Prim2SF 10))
      by (vm_compute; reflexivity).
    apply SFleb_scaled; try apply Prim2SF_valid; auto.
    - vm_compute. reflexivity.
    - now rewrite <- leb_spec. }
  destruct (Prim2SF sp) as [s|s| |s m e] eqn:E; cbn [SFnonneg] in Hn;
    try contradiction; [exact I|].
  subst s. cbn [SFbelow]. split; [reflexivity|].
  cbn [SFscaled cond_Zopp] in Hv.
  destruct (valid_finite sp _ _ _ E) as [C _].
  pose proof (canonical_bounds _ _ C) as (L & _ & _).
  pose proof (digits2_pos_bounds m) as [Lm _].
  assert (Hlow : 2 ^ (Zpos (digits2_pos m) - 1 + (e + 1074))
                 <= Zpos m * 2 ^ (e + 1074)).
  { rewrite Z.pow_add_r by lia.
    apply Z.mul_le_mono_nonneg_r; [apply Z.pow_nonneg; lia|exact Lm]. }
  assert (Hpow : 2 ^ (Zpos (digits2_pos m) - 1 + (e + 1074)) < 2 ^ (4 + 1074)).
  { rewrite (Z.pow_add_r 2 4 1074) by lia. change (2 ^ 4) with 16. lia. }
  apply Z.pow_lt_mono_r_iff in Hpow; lia.
Qed.

Lemma int_below (M : Z) (x : float) :
  SFbelow M (Prim2SF x) -> exists n, Py.int x = Ok n /\ 0 <= n.
Proof.
  intros B. pose proof (below_nonneg _ _ B) as N.
  rewrite (int_nonneg 1074) by (auto; lia). eexists; split; [reflexivity|].
  apply Z.div_pos; [now apply SFscaled_nonneg|apply Z.pow_pos_nonneg; lia].
Qed.

(** ** No object failing *)

(** The time offset of the object at index [i]. *)
Lemma time_offset_ok (i : nat) (so : option float) (duration : Z) :
  Z.of_nat i < 2 ^ 31 -> 1 <= duration < 2 ^ 1023 ->
  (forall sp, so = Some sp -> (sp <=? 10)%float = true) ->
  exists t,
    time_offset i so duration = Ok t
    /\ forall x, t = Some x -> SFbelow 38 (Prim2SF x).
Proof.
  intros Hi Hd Hsp. unfold time_offset. destruct so as [sp|].
  - destruct (0 <? sp)%float eqn:H0.
    + pose proof (spacing_below sp H0 (Hsp sp eq_refl)) as Bs.
      destruct (float_of_int_below (Z.of_nat i) 31 ltac:(lia) ltac:(lia))
        as (fi & Hfi & Bi).
      destruct (float_of_int_ge_1 duration Hd) as (fd & md & ed & Hfd & Ed & Ld).
      unfold int_mul_float. rewrite Hfi. cbn [Py.bind]. rewrite Hfd. cbn [Py.bind].
      assert (Hnz : (fd =? 0)%float = false).
      { rewrite eqb_spec, Ed. reflexivity. }
      rewrite Hnz. eexists; split; [reflexivity|]. intros x [= <-].
      pose proof (mul_below fi sp _ _ Bi Bs ltac:(lia)) as Bx.
      exact (div_below (fi * sp) fd md ed _ 1 Bx Ed Ld ltac:(lia)).
    + exists None. split; [reflexivity|]. discriminate.
  - exists None. split; [reflexivity|]. discriminate.
Qed.

(** [int(time_offset * duration)] *)
Lemma shift_ok (adjusted : Z) (t : option float) :
  0 <= adjusted < 2 ^ 53 ->
  (forall x, t = Some x -> SFbelow 38 (Prim2SF x)) ->
  exists shift,
    match t with
    | Some x => y <- int_mul_float adjusted x ;; Py.int y
    | None => Ok (0 * adjusted)
    end = Ok shift.
Proof.
  intros Ha Ht. destruct t as [x|]; [|eexists; reflexivity].
  destruct (float_of_int_below adjusted 53 Ha ltac:(lia)) as (fa & Hfa & Ba).
  unfold int_mul_float. rewrite Hfa. cbn [Py.bind].
  pose proof (mul_below fa x _ _ Ba (Ht x eq_refl) ltac:(lia)) as Bp.
  destruct (int_below _ _ Bp) as (n & Hn & _). exists n. exact Hn.
Qed.

(** What makes the host cooperate for one object. *)
Lemma animate_object_ok (settings : CURVE_PG_AnimationProperties)
    (options : transform_options) (duration : Z) (so : option float)
    (i : nat) (obj : animated_object) :
  (0.1 <=? speed_factor settings)%float = true ->
  1 <= duration < 2 ^ 40 -> Z.of_nat i < 2 ^ 31 ->
  (forall sp, so = Some sp -> (sp <=? 10)%float = true) ->
  constraints_ok obj = true ->
  (follow_curve options = true -> following_ok obj = true) ->
  exists keys, animate_object settings options duration so i obj = Ok (Some keys).
Proof.
  intros Hs Hd Hi Hsp Hc Hf. unfold animate_object.
  destruct (time_offset_ok i so duration Hi) as (t & -> & Ht); [|exact Hsp|].
  { split; [lia|]. apply Z.lt_trans with (2 ^ 40); [lia|reflexivity]. }
  cbn [Py.bind].
  destruct (int_div_small duration (speed_factor settings) ltac:(lia) Hs)
    as (q & adj & Hq & Hn & Ha).
  unfold adjusted_duration. rewrite Hq. cbn [Py.bind]. rewrite Hn. cbn [Py.bind].
  destruct (shift_ok adj t Ha Ht) as (shift & Hshift).
  unfold apply_animation_of, apply_animation. rewrite Hc, Hshift. cbn [Py.bind].
  destruct (offset_factor_keyframes_ok (1 + shift) adj
              (if reverse_direction settings then 1%float else 0%float)
              (if reverse_direction settings then 0%float else 1%float) settings)
    as (ks & ->).
  destruct (follow_curve options) eqn:Ef.
  - rewrite (Hf eq_refl). cbn [negb andb].
    destruct (scale_animation options); cbn [Py.bind]; [|eexists; reflexivity].
    unfold apply_scale_animation. rewrite Hshift. cbn [Py.bind].
    destruct (half_duration adj Ha) as (x & Hx & Hh).
    rewrite Hx. cbn [Py.bind]. rewrite Hh. cbn [Py.bind].
    eexists; reflexivity.
  - cbn [andb].
    destruct (scale_animation options); cbn [Py.bind]; [|eexists; reflexivity].
    unfold apply_scale_animation. rewrite Hshift. cbn [Py.bind].
    destruct (half_duration adj Ha) as (x & Hx & Hh).
    rewrite Hx. cbn [Py.bind]. rewrite Hh. cbn [Py.bind].
    eexists; reflexivity.
Qed.

Lemma for_objects_all (settings : CURVE_PG_AnimationProperties)
    (options : transform_options) (duration : Z) (so : option float)
    (selected_objects : list animated_object) :
  (0.1 <=? speed_factor settings)%float = true ->
  1 <= duration < 2 ^ 40 ->
  (forall sp, so = Some sp -> (sp <=? 10)%float = true) ->
  Forall (fun obj => constraints_ok obj = true
                     /\ (follow_curve options = true -> following_ok obj = true))
    selected_objects ->
  forall (i success_count : nat) (failed_objects : list nat),
    Z.of_nat (i + length selected_objects) <= 2 ^ 31 ->
    for_objects settings options duration so i selected_objects
      (success_count, failed_objects)
    = ((success_count + length selected_objects)%nat, failed_objects).
Proof.
  intros Hs Hd Hsp. induction 1 as [|obj rest [Hc Hf] _ IH]; intros i sc failed Hi.
  - cbn [for_objects length]. now rewrite Nat.add_0_r.
  - cbn [for_objects length] in *.
    destruct (animate_object_ok settings options duration so i obj Hs Hd
                ltac:(lia) Hsp Hc Hf) as (keys & ->).
    rewrite IH by lia. f_equal. lia.
Qed.

(** X14. Within the ranges of its properties, no object fails in the
    curve operator: with the assets found and the curve loaded,
    constraints made for every object, a speed factor of at least 0.1,
    a spacing of at most 10, a duration of 1 to [2 ^ 40 - 1] frames and
    at most [2 ^ 31] selected objects, no arithmetic of the loop raises
    and every selected object is counted as a success, none as failed.
    [execute] then finishes with a report at level INFO if the curve
    object is in no collection; if it is in one,
    [update_curve_visibility] raises and [execute] is cancelled with a
    report at level ERROR all the same. *)
Theorem no_object_fails (host : assets) (settings : CURVE_PG_AnimationProperties)
    (options : transform_options) (selected_objects : list animated_object)
    (duration : Z) :
  assets_folder_found host = true -> blend_file_exists host = true ->
  curve_loaded host = true ->
  Forall (fun obj => constraints_ok obj = true
                     /\ (follow_curve options = true -> following_ok obj = true))
    selected_objects ->
  (0.1 <=? speed_factor settings)%float = true ->
  (spacing options <=? 10)%float = true ->
  1 <= duration < 2 ^ 40 ->
  (0 < length selected_objects)%nat ->
  Z.of_nat (length selected_objects) <= 2 ^ 31 ->
  Operator.execute host settings options selected_objects duration
  = (match curve_users_collection host with
     | O => (FINISHED, INFO)
     | S _ => (CANCELLED, ERROR)
     end,
     Some (length selected_objects, [])).
Proof.
  intros H1 H2 H3 Hobjs Hs Hsp Hd Hl0 Hl.
  unfold Operator.execute, validate_inputs.
  destruct (Nat.eqb_spec (length selected_objects) 0) as [|_]; [lia|].
  replace (duration <? 1) with false by (symmetry; apply Z.ltb_ge; lia).
  rewrite H1, H2, H3. cbn [negb].
  rewrite (for_objects_all settings options duration _ selected_objects Hs Hd);
    auto.
  - cbn [Nat.add]. unfold report_results. rewrite Nat.eqb_refl.
    now destruct (curve_users_collection host).
  - unfold spacing_offset. intros sp.
    destruct (Nat.ltb 1 (length selected_objects)); [|discriminate].
    now intros [= <-].
Qed.

Lemma no_object_fails_witness :
  Operator.execute
    {| assets_folder_found := true; blend_file_exists := true; curve_loaded := true;
       curve_users_collection := 1 |}
    (looping 2.0 true OFFSET 0.25)
    {| spacing := 5.0; follow_curve := true; additional_rotation := (0, 0, 1)%float;
       scale_animation := true; scale_factor := (2, 2, 2)%float |}
    [ {| name := 3; constraints_ok := true; following_ok := true |};
      {| name := 7; constraints_ok := true; following_ok := true |} ]
    30
  = (match curve_users_collection
             {| assets_folder_found := true; blend_file_exists := true;
                curve_loaded := true; curve_users_collection := 1 |} with
     | O => (FINISHED, INFO)
     | S _ => (CANCELLED, ERROR)
     end,
     Some (length [ {| name := 3; constraints_ok := true; following_ok := true |};
                    {| name := 7; constraints_ok := true; following_ok := true |} ],
           [])).
Proof.
  apply (no_object_fails
           {| assets_folder_found := true; blend_file_exists := true;
              curve_loaded := true; curve_users_collection := 1 |}
           (looping 2.0 true OFFSET 0.25)
           {| spacing := 5.0; follow_curve := true;
              additional_rotation := (0, 0, 1)%float;
              scale_animation := true; scale_factor := (2, 2, 2)%float |}
           [ {| name := 3; constraints_ok := true; following_ok := true |};
             {| name := 7; constraints_ok := true; following_ok := true |} ]
           30).
  - reflexivity.
  - reflexivity.
  - reflexivity.
  - repeat constructor.
  - reflexivity.
  - reflexivity.
  - split; [lia|reflexivity].
  - cbn [length]. lia.
  - discriminate.
Defined.

(** ** The first object *)

Lemma zero_time_offset (so : option float) (duration : Z) :
  1 <= duration < 2 ^ 1023 ->
  (forall sp, so = Some sp -> (sp <=? 10)%float = true) ->
  exists t,
    time_offset 0 so duration = Ok t
    /\ forall x, t = Some x -> exists s, Prim2SF x = S754_zero s.
Proof.
  intros Hd Hsp. unfold time_offset. destruct so as [sp|].
  - destruct (0 <? sp)%float eqn:H0.
    + pose proof (spacing_below sp H0 (Hsp sp eq_refl)) as Bs.
      destruct (float_of_int_ge_1 duration Hd) as (fd & md & ed & Hfd & Ed & _).
      unfold int_mul_float. cbn [Z.of_nat].
      change (float_of_int 0) with (Ok 0%float). cbn [Py.bind].
      rewrite Hfd. cbn [Py.bind].
      assert (Hnz : (fd =? 0)%float = false) by (rewrite eqb_spec, Ed; reflexivity).
      rewrite Hnz. eexists; split; [reflexivity|]. intros x [= <-].
      rewrite div_spec, mul_spec, Ed. change (Prim2SF 0) with (S754_zero false).
      unfold SF64div, SF64mul.
      destruct (Prim2SF sp) as [s|s| |s m e]; cbn [SFbelow] in Bs; try contradiction;
        eexists; reflexivity.
    + exists None. split; [reflexivity|]. discriminate.
  - exists None. split; [reflexivity|]. discriminate.
Qed.

Lemma zero_shift (adjusted : Z) (t : option float) :
  0 <= adjusted < 2 ^ 1023 ->
  (forall x, t = Some x -> exists s, Prim2SF x = S754_zero s) ->
  match t with
  | Some x => y <- int_mul_float adjusted x ;; Py.int y
  | None => Ok (0 * adjusted)
  end = Ok (0 * adjusted).
Proof.
  intros Ha Ht. destruct t as [x|]; [|reflexivity].
  destruct (Ht x eq_refl) as [s Ex].
  destruct (float_of_int_nonneg adjusted Ha) as (fa & Hfa & Na & _).
  unfold int_mul_float. rewrite Hfa. cbn [Py.bind].
  unfold Py.int. rewrite mul_spec, Ex. unfold SF64mul.
  destruct (Prim2SF fa) as [sa|sa| |sa ma ea]; cbn [SFnonneg] in Na;
    try contradiction; reflexivity.
Qed.

(** X15. Spacing never delays the first object: for a duration of at
    least one frame, a spacing of at most 10 and an adjusted duration
    from 0 to [2 ^ 1023 - 1], the time offset of the object at index 0
    is computed without error, and with it [apply_animation] and
    [apply_scale_animation] do exactly what they do without spacing,
    so that the first key lies on frame 1. *)
Theorem first_object_not_delayed (spacing_offset : option float)
    (duration adjusted_duration : Z) :
  1 <= duration < 2 ^ 1023 ->
  (forall sp, spacing_offset = Some sp -> (sp <=? 10)%float = true) ->
  0 <= adjusted_duration < 2 ^ 1023 ->
  exists t,
    time_offset 0 spacing_offset duration = Ok t
    /\ (forall settings,
          apply_animation adjusted_duration t settings
          = apply_animation adjusted_duration None settings)
    /\ (forall scale_factor,
          apply_scale_animation scale_factor adjusted_duration t
          = apply_scale_animation scale_factor adjusted_duration None).
Proof.
  intros Hd Hsp Ha.
  destruct (zero_time_offset spacing_offset duration Hd Hsp) as (t & Ht & Hz).
  exists t. split; [exact Ht|].
  pose proof (zero_shift adjusted_duration t Ha Hz) as Hshift.
  split; intros; unfold apply_animation, apply_scale_animation; now rewrite Hshift.
Qed.

Lemma first_object_not_delayed_witness :
  exists t,
    time_offset 0 (Some 5.0%float) 30 = Ok t
    /\ (forall settings,
          apply_animation 15 t settings = apply_animation 15 None settings)
    /\ (forall scale_factor,
          apply_scale_animation scale_factor 15 t
          = apply_scale_animation scale_factor 15 None).
Proof.
  apply (first_object_not_delayed (Some 5.0%float) 30 15).
  - split; [lia|reflexivity].
  - intros sp [= <-]. reflexivity.
  - split; [lia|reflexivity].
Defined.

(** * Timings the properties allow *)

(** ** Quotients that are at least one *)





(** ** Errors *)


